(** * uma-tools: the template-based image parser and the skill resolver

    A shallow embedding of the screenshot-to-record pipeline of
    [TemplateBasedImageParser] (template search, calibration, region
    projection, field parsing) and of the skill resolver of the
    application ([findMatchingSkills] and the tier bonus), with the
    properties of its specification stated and settled against the code.

    Conventions.
    - A JavaScript number is a rational ([Q], compared with [==]); pixel
      coordinates, lengths and counters that the code keeps integral are
      [Z] or [nat].  [Math.round x] is [floor (x + 1/2)].
    - A JavaScript string holding text (recognized text, display names) is
      the list of its UTF-16 code units ([jsstring]); property names and
      skill identifiers, which the code only builds from ASCII literals and
      decimal numbers, are [string].
    - A plain object used as a dictionary is a [gmap string _]; a missing
      property is [None].
    - The host capabilities that the code drives but does not own
      (correlation of a resized template, text recognition,
      [String.prototype.toLowerCase]) are section variables, total
      functions: a failure inside one of them is outside this model.
    - A [while] loop, and the rescheduled [binarySearchScale], is a
      function with fuel that returns [None] only when the fuel runs out;
      each is shown to end by its own guard within the fuel it is given. *)

From Stdlib Require Import ZArith QArith Qround Qminmax Lqa Lia List Bool.
From stdpp Require Import base option list strings pretty gmap fin_maps.

Local Open Scope Z_scope.

(** ** Numbers *)

Definition Qltb (a b : Q) : bool := negb (Qle_bool b a).

Definition Math_round (q : Q) : Z := Qfloor (q + (1 # 2))%Q.

Definition Math_min (a b : Q) : Q := if Qle_bool a b then a else b.
Definition Math_max (a b : Q) : Q := if Qle_bool a b then b else a.

(** ** Strings as sequences of UTF-16 code units *)

Definition char := N.
Definition jsstring := list char.

Definition code (a : Ascii.ascii) : char := Ascii.N_of_ascii a.

Fixpoint lit (s : string) : jsstring :=
  match s with
  | EmptyString => []
  | String a s' => code a :: lit s'
  end.

(** Character classes of the regular expressions in the source:
    [\d] is [0-9], [[A-Z]] the ASCII capitals, [\w] is [[A-Za-z0-9_]],
    [\s] the ECMAScript white space and line terminators. *)

Definition isDigit (c : char) : bool := ((48 <=? c) && (c <=? 57))%N.
Definition isUpper (c : char) : bool := ((65 <=? c) && (c <=? 90))%N.
Definition isLower (c : char) : bool := ((97 <=? c) && (c <=? 122))%N.
Definition isWord (c : char) : bool :=
  isUpper c || isLower c || isDigit c || (c =? 95)%N.

Definition isSpace (c : char) : bool :=
  (((9 <=? c) && (c <=? 13)) || (c =? 32) || (c =? 160) || (c =? 5760)
   || ((8192 <=? c) && (c <=? 8202)) || (c =? 8232) || (c =? 8233)
   || (c =? 8239) || (c =? 8287) || (c =? 12288) || (c =? 65279))%N.

(** [String.prototype.trim] *)
Fixpoint trimStart (s : jsstring) : jsstring :=
  match s with
  | c :: s' => if isSpace c then trimStart s' else s
  | [] => []
  end.

Definition trimEnd (s : jsstring) : jsstring := rev (trimStart (rev s)).
Definition trim (s : jsstring) : jsstring := trimEnd (trimStart s).

(** [s.startsWith(p)] on code units *)
Fixpoint startsWith (p s : jsstring) : bool :=
  match p, s with
  | [], _ => true
  | a :: p', b :: s' => (a =? b)%N && startsWith p' s'
  | _ :: _, [] => false
  end.

Definition endsWith (p s : jsstring) : bool := startsWith (rev p) (rev s).

(** [s.includes(p)] *)
Fixpoint includes (s p : jsstring) : bool :=
  startsWith p s ||
  match s with
  | [] => false
  | _ :: s' => includes s' p
  end.

(** [parseInt] on a run of decimal digits *)
Definition digitValue (c : char) : Z := Z.of_N c - 48.

Definition parseInt (digits : jsstring) : Z :=
  fold_left (fun acc c => 10 * acc + digitValue c) digits 0.

(** ** Field parser *)

(** [text.match(/(\d{3,4})/)]: the leftmost position where three digits
    start, extended greedily by a fourth. *)
Fixpoint match_digits_3_4 (text : jsstring) : option jsstring :=
  match text with
  | [] => None
  | a :: rest =>
      match rest with
      | b :: c :: tl =>
          if isDigit a && isDigit b && isDigit c then
            match tl with
            | d :: _ => if isDigit d then Some [a; b; c; d] else Some [a; b; c]
            | [] => Some [a; b; c]
            end
          else match_digits_3_4 rest
      | _ => match_digits_3_4 rest
      end
  end.

Definition parseStat (text : jsstring) : Z :=
  match match_digits_3_4 text with
  | Some m => parseInt m
  | None => 0
  end.

(** [text.match(/([A-Z])/)] *)
Fixpoint match_upper (text : jsstring) : option jsstring :=
  match text with
  | [] => None
  | c :: rest => if isUpper c then Some [c] else match_upper rest
  end.

Definition parseAptitude (text : jsstring) : jsstring :=
  match match_upper text with
  | Some m => m
  | None => lit "G"
  end.

(** ** The output record *)

Record Stats := { speed : Z; stamina : Z; power : Z; guts : Z; wisdom : Z }.
Record Track := { turf : jsstring; dirt : jsstring }.
Record Distance :=
  { sprint : jsstring; mile : jsstring; medium : jsstring; long : jsstring }.
Record Style :=
  { front : jsstring; pace : jsstring; late : jsstring; end_ : jsstring }.
Record Aptitudes := { track : Track; distance : Distance; style : Style }.

Record ParsedUmaData := {
  outfit : jsstring;
  name : jsstring;
  stats : Stats;
  aptitudes : Aptitudes;
  skills : list jsstring
}.

(** The ten aptitude values of a record, in the order of the source. *)
Definition aptitudeValues (d : ParsedUmaData) : list jsstring :=
  let a := aptitudes d in
  [ turf (track a); dirt (track a);
    sprint (distance a); mile (distance a); medium (distance a);
    long (distance a);
    front (style a); pace (style a); late (style a); end_ (style a) ].

(** A call either returns or throws; [message] is [error.message]. *)
Inductive completion (A : Type) :=
  | Returned (a : A)
  | Threw (message : string).
Arguments Returned {A} a.
Arguments Threw {A} message.

(** What the engine reports for [undefined.match(...)]. *)
Definition undefined_match_message : string :=
  "Cannot read properties of undefined (reading 'match')".

(** The extracted-field dictionary: region name to recognized text. *)
Abbreviation ExtractedData := (gmap string jsstring).

(** The property name [`skill_${skillIndex}`]. *)
Definition skillKey (skillIndex : nat) : string :=
  "skill_" +:+ pretty skillIndex.

Definition truthy (s : jsstring) : bool :=
  match s with [] => false | _ => true end.

(** [x || fallback] on a string-valued property. *)
Definition or_else (v : option jsstring) (fallback : jsstring) : jsstring :=
  match v with
  | Some s => if truthy s then s else fallback
  | None => fallback
  end.

(** The loop [while (data[`skill_${skillIndex}`] !== undefined)] of
    [parseExtractedData]; [None] only when the fuel runs out. *)
Fixpoint collectSkills (fuel : nat) (data : ExtractedData)
    (skillIndex : nat) (skills : list jsstring) : option (list jsstring) :=
  match data !! skillKey skillIndex with
  | None => Some skills
  | Some skillText =>
      match fuel with
      | O => None
      | S fuel' =>
          collectSkills fuel' data (S skillIndex)
            (if truthy skillText && truthy (trim skillText)
             then skills ++ [trim skillText] else skills)
      end
  end.

(** [parseStat(data.k)] and [parseAptitude(data.k)]: calling [.match] on a
    missing property throws. *)
Definition statField (data : ExtractedData) (k : string) : option Z :=
  parseStat <$> data !! k.
Definition aptitudeField (data : ExtractedData) (k : string)
  : option jsstring :=
  parseAptitude <$> data !! k.

Definition parseFields (data : ExtractedData) (sk : list jsstring)
  : option ParsedUmaData :=
  sp ← statField data "speed";
  st ← statField data "stamina";
  po ← statField data "power";
  gu ← statField data "guts";
  wi ← statField data "wit";
  tu ← aptitudeField data "turf_aptitude";
  di ← aptitudeField data "dirt_aptitude";
  spr ← aptitudeField data "sprint_aptitude";
  mi ← aptitudeField data "mile_aptitude";
  me ← aptitudeField data "medium_aptitude";
  lo ← aptitudeField data "long_aptitude";
  fr ← aptitudeField data "front_aptitude";
  pa ← aptitudeField data "pace_aptitude";
  la ← aptitudeField data "late_aptitude";
  en ← aptitudeField data "end_aptitude";
  Some {|
    outfit := or_else (data !! "uma_outfit") [];
    name := or_else (data !! "uma_name") (lit "Unknown Uma");
    stats := {| speed := sp; stamina := st; power := po; guts := gu;
                wisdom := wi |};
    aptitudes := {|
      track := {| turf := tu; dirt := di |};
      distance := {| sprint := spr; mile := mi; medium := me; long := lo |};
      style := {| front := fr; pace := pa; late := la; end_ := en |} |};
    skills := sk |}.

(** [parseExtractedData]: the fields are parsed first (and may throw), the
    skills are collected after; [None] only when the fuel of the skills
    loop runs out. *)
Definition parseExtractedData (data : ExtractedData)
  : option (completion ParsedUmaData) :=
  match parseFields data [] with
  | None => Some (Threw undefined_match_message)
  | Some d =>
      sk ← collectSkills (S (size data)) data 1%nat [];
      Some (Returned {| outfit := outfit d; name := name d; stats := stats d;
                        aptitudes := aptitudes d; skills := sk |})
  end.

(** ** Regions of the reference layout *)

Module DataRegion.
Inductive kind := stats | aptitudes | skills | name.
Record t := mk {
  name_ : string;
  x : Z;
  y : Z;
  width : Z;
  height : Z;
  type : kind
}.
End DataRegion.

Record Scales := { scaleX : Q; scaleY : Q }.
Record Offset := { x : Q; y : Q }.

Definition TEMPLATE_POSITIONS_change : Z * Z := (852, 292).
Definition TEMPLATE_POSITIONS_headers : Z * Z := (38, 404).

Definition DATA_REGIONS : list DataRegion.t :=
  [ DataRegion.mk "uma_outfit" 553 117 456 84 DataRegion.name;
    DataRegion.mk "uma_name" 565 195 420 64 DataRegion.name;
    DataRegion.mk "speed" 118 453 106 56 DataRegion.stats;
    DataRegion.mk "stamina" 319 453 106 56 DataRegion.stats;
    DataRegion.mk "power" 523 453 106 56 DataRegion.stats;
    DataRegion.mk "guts" 731 453 106 56 DataRegion.stats;
    DataRegion.mk "wit" 923 453 106 56 DataRegion.stats;
    DataRegion.mk "turf_aptitude" 386 551 40 40 DataRegion.aptitudes;
    DataRegion.mk "dirt_aptitude" 578 551 40 40 DataRegion.aptitudes;
    DataRegion.mk "sprint_aptitude" 386 610 40 40 DataRegion.aptitudes;
    DataRegion.mk "mile_aptitude" 578 610 40 40 DataRegion.aptitudes;
    DataRegion.mk "medium_aptitude" 770 610 40 40 DataRegion.aptitudes;
    DataRegion.mk "long_aptitude" 960 610 40 40 DataRegion.aptitudes;
    DataRegion.mk "front_aptitude" 386 672 40 40 DataRegion.aptitudes;
    DataRegion.mk "pace_aptitude" 578 672 40 40 DataRegion.aptitudes;
    DataRegion.mk "late_aptitude" 770 672 40 40 DataRegion.aptitudes;
    DataRegion.mk "end_aptitude" 960 672 40 40 DataRegion.aptitudes ].

(** *** [generateSkillRegions] *)

Definition skillYInterval : Z := 112.
Definition startY : Z := 864.
Definition leftX : Z := 112.
Definition rightX : Z := 615.
Definition skillWidth : Z := 320.
Definition skillHeight : Z := 68.

Definition skillRegionAt (skillIndex : nat) (columnX currentY : Z)
    (scale : Q) (offset : Offset) : DataRegion.t :=
  DataRegion.mk (skillKey skillIndex)
    (Math_round (inject_Z columnX * scale + x offset))
    (Math_round (inject_Z currentY * scale + y offset))
    (Math_round (inject_Z skillWidth * scale))
    (Math_round (inject_Z skillHeight * scale))
    DataRegion.skills.

(** The loop [while (currentY + skillHeight < imageHeight)]; [None] only
    when the fuel runs out. *)
Fixpoint generateSkillRegions_loop (fuel : nat) (imageHeight : Z) (scale : Q)
    (offset : Offset) (skillIndex : nat) (currentY : Z)
    (skillRegions : list DataRegion.t) : option (list DataRegion.t) :=
  if currentY + skillHeight <? imageHeight then
    match fuel with
    | O => None
    | S fuel' =>
        let leftSkillRegion :=
          skillRegionAt skillIndex leftX currentY scale offset in
        let rightSkillRegion :=
          skillRegionAt (S skillIndex) rightX currentY scale offset in
        generateSkillRegions_loop fuel' imageHeight scale offset
          (S (S skillIndex)) (currentY + skillYInterval)
          (skillRegions ++ [leftSkillRegion; rightSkillRegion])
    end
  else Some skillRegions.

Definition generateSkillRegions (imageHeight : Z) (scale : Q)
    (offset : Offset) : option (list DataRegion.t) :=
  generateSkillRegions_loop (Z.to_nat imageHeight) imageHeight scale offset
    1%nat startY [].

(** *** [adjustRegion] *)

Definition adjustRegion (region : DataRegion.t) (scales : Scales)
    (offset : Offset) : DataRegion.t :=
  DataRegion.mk (DataRegion.name_ region)
    (Math_round (inject_Z (DataRegion.x region) * scaleX scales + x offset))
    (Math_round (inject_Z (DataRegion.y region) * scaleY scales + y offset))
    (Math_round (inject_Z (DataRegion.width region) * scaleX scales))
    (Math_round (inject_Z (DataRegion.height region) * scaleY scales))
    (DataRegion.type region).

(** The test guarding the extraction of a generated skill region. *)
Definition withinImage (imageWidth imageHeight : Z) (region : DataRegion.t)
  : bool :=
  (0 <=? DataRegion.x region) && (0 <=? DataRegion.y region)
  && (DataRegion.x region + DataRegion.width region <=? imageWidth)
  && (DataRegion.y region + DataRegion.height region <=? imageHeight).

(** ** Template search and calibration *)

Module TemplateMatch.
Record t := mk {
  x : Z;
  y : Z;
  scaleX : Q;
  scaleY : Q;
  confidence : Q
}.
End TemplateMatch.

(** The state that the closures [testScale] and [binarySearchScale] of
    [findBestTemplateMatch] share. *)
Record SearchState := {
  bestMatch : option TemplateMatch.t;
  bestConfidence : Q;
  minScale : Q;
  maxScale : Q;
  stepCount : nat
}.

Definition maxSteps : nat := 10.

Section TemplateSearch.

(** The uploaded image and one template: their sizes, and the response of
    [cv.resize] to a target size followed by [cv.matchTemplate] and
    [cv.minMaxLoc]: the maximum of the correlation and where it is. *)
Variables image_width image_height : Z.
Variables template_width template_height : Z.
Variable matchTemplate : Z -> Z -> Q * (Z * Z).

Definition testScale (scale : Q) (st : SearchState) : Q * SearchState :=
  let scaledWidth := Math_round (inject_Z template_width * scale) in
  let scaledHeight := Math_round (inject_Z template_height * scale) in
  if (image_width <? scaledWidth) || (image_height <? scaledHeight) then
    (0%Q, st)
  else
    let '(confidence, location) := matchTemplate scaledWidth scaledHeight in
    let st' :=
      if Qltb (bestConfidence st) confidence then
        {| bestMatch :=
             Some (TemplateMatch.mk (fst location) (snd location)
                     scale scale confidence);
           bestConfidence := confidence;
           minScale := minScale st; maxScale := maxScale st;
           stepCount := stepCount st |}
      else st in
    (confidence, st').

Definition lowScaleOf (st : SearchState) : Q :=
  (minScale st + (maxScale st - minScale st) * (1 # 4))%Q.
Definition midScaleOf (st : SearchState) : Q :=
  ((minScale st + maxScale st) / 2)%Q.
Definition highScaleOf (st : SearchState) : Q :=
  (minScale st + (maxScale st - minScale st) * (3 # 4))%Q.

(** Which range an iteration keeps. *)
Inductive Range := LowRange | HighRange | MidRange.

Definition chooseRange (lowConfidence midConfidence highConfidence : Q)
  : Range :=
  if Qle_bool midConfidence lowConfidence
     && Qle_bool highConfidence lowConfidence then LowRange
  else if Qle_bool midConfidence highConfidence
          && Qle_bool lowConfidence highConfidence then HighRange
  else MidRange.

(** One pass through the body of [binarySearchScale] below its guard. *)
Definition binarySearchStep (st : SearchState) : SearchState :=
  let st0 := {| bestMatch := bestMatch st;
                bestConfidence := bestConfidence st;
                minScale := minScale st; maxScale := maxScale st;
                stepCount := S (stepCount st) |} in
  let lowScale := lowScaleOf st0 in
  let midScale := midScaleOf st0 in
  let highScale := highScaleOf st0 in
  let '(lowConfidence, st1) := testScale lowScale st0 in
  let '(midConfidence, st2) := testScale midScale st1 in
  let '(highConfidence, st3) := testScale highScale st2 in
  match chooseRange lowConfidence midConfidence highConfidence with
  | LowRange =>
      {| bestMatch := bestMatch st3; bestConfidence := bestConfidence st3;
         minScale := minScale st3; maxScale := midScale;
         stepCount := stepCount st3 |}
  | HighRange =>
      {| bestMatch := bestMatch st3; bestConfidence := bestConfidence st3;
         minScale := midScale; maxScale := maxScale st3;
         stepCount := stepCount st3 |}
  | MidRange =>
      {| bestMatch := bestMatch st3; bestConfidence := bestConfidence st3;
         minScale := lowScale; maxScale := highScale;
         stepCount := stepCount st3 |}
  end.

(** [binarySearchScale], rescheduling itself until [stepCount] reaches
    [maxSteps]; [None] only when the fuel runs out. *)
Fixpoint binarySearchScale (fuel : nat) (st : SearchState)
  : option (option TemplateMatch.t) :=
  if (maxSteps <=? stepCount st)%nat then Some (bestMatch st)
  else
    match fuel with
    | O => None
    | S fuel' => binarySearchScale fuel' (binarySearchStep st)
    end.

Definition initialSearchState : SearchState :=
  {| bestMatch := None; bestConfidence := (-1)%Q;
     minScale := (3 # 10)%Q; maxScale := 2%Q; stepCount := 0 |}.

Definition findBestTemplateMatch : option (option TemplateMatch.t) :=
  binarySearchScale maxSteps initialSearchState.

End TemplateSearch.

(** The single-scale variant with the fixed threshold, [findTemplateMatch]
    (the search above is the one that [handleFileSelect] calls). *)
Definition findTemplateMatch (template_width template_height : Z)
    (matchTemplate : Z -> Z -> Q * (Z * Z)) : option TemplateMatch.t :=
  let '(maxVal, maxLoc) := matchTemplate template_width template_height in
  if Qltb (7 # 10) maxVal then
    Some (TemplateMatch.mk (fst maxLoc) (snd maxLoc) 1 1 maxVal)
  else None.

Definition findTemplateMatchWithCustomThreshold
    (template_width template_height : Z)
    (matchTemplate : Z -> Z -> Q * (Z * Z)) (threshold : Q)
  : option TemplateMatch.t :=
  let '(maxVal, maxLoc) := matchTemplate template_width template_height in
  if Qltb threshold maxVal then
    Some (TemplateMatch.mk (fst maxLoc) (snd maxLoc) 1 1 maxVal)
  else None.

Definition calculateScales (changeMatch headersMatch : TemplateMatch.t)
  : Scales :=
  {| scaleX :=
       ((TemplateMatch.scaleX changeMatch
         + TemplateMatch.scaleX headersMatch) / 2)%Q;
     scaleY :=
       ((TemplateMatch.scaleY changeMatch
         + TemplateMatch.scaleY headersMatch) / 2)%Q |}.

Definition calculateOffset (changeMatch headersMatch : TemplateMatch.t)
    (scales : Scales) : Offset :=
  let changeOffsetX :=
    (inject_Z (TemplateMatch.x changeMatch)
     - inject_Z (fst TEMPLATE_POSITIONS_change)
       * TemplateMatch.scaleX changeMatch)%Q in
  let changeOffsetY :=
    (inject_Z (TemplateMatch.y changeMatch)
     - inject_Z (snd TEMPLATE_POSITIONS_change)
       * TemplateMatch.scaleY changeMatch)%Q in
  let headersOffsetX :=
    (inject_Z (TemplateMatch.x headersMatch)
     - inject_Z (fst TEMPLATE_POSITIONS_headers)
       * TemplateMatch.scaleX headersMatch)%Q in
  let headersOffsetY :=
    (inject_Z (TemplateMatch.y headersMatch)
     - inject_Z (snd TEMPLATE_POSITIONS_headers)
       * TemplateMatch.scaleY headersMatch)%Q in
  {| x := ((changeOffsetX + headersOffsetX) / 2)%Q;
     y := ((changeOffsetY + headersOffsetY) / 2)%Q |}.

(** ** [handleFileSelect]: from the uploaded image to the callback *)

Inductive Callback :=
  | onDataParsed (data : ParsedUmaData)
  | onError (error : string).

Definition no_template_matches : string :=
  "Could not find template matches in the image. Please ensure the image contains the Uma Musume details screen.".

Section Pipeline.

Variables image_width image_height : Z.
(** The two templates, [change.jpg] and [headers.jpg]. *)
Variables change_width change_height : Z.
Variable change_matchTemplate : Z -> Z -> Q * (Z * Z).
Variables headers_width headers_height : Z.
Variable headers_matchTemplate : Z -> Z -> Q * (Z * Z).
(** [Tesseract.recognize] on the crop of the image at [x y width height]. *)
Variable recognize : Z -> Z -> Z -> Z -> jsstring.

(** [ocrRegion(extractRegion(uploadedImage, region))] *)
Definition ocrRegion (region : DataRegion.t) : jsstring :=
  trim (recognize (DataRegion.x region) (DataRegion.y region)
          (DataRegion.width region) (DataRegion.height region)).

(** The loop over [DATA_REGIONS]. *)
Definition extractStatic (scales : Scales) (offset : Offset)
    (extractedData : ExtractedData) : ExtractedData :=
  fold_left
    (fun data region =>
       let adjustedRegion := adjustRegion region scales offset in
       <[DataRegion.name_ region := ocrRegion adjustedRegion]> data)
    DATA_REGIONS extractedData.

(** The loop over the generated skill regions. *)
Definition extractSkills (skillRegions : list DataRegion.t)
    (extractedData : ExtractedData) : ExtractedData :=
  fold_left
    (fun data region =>
       if withinImage image_width image_height region
       then <[DataRegion.name_ region := ocrRegion region]> data
       else data)
    skillRegions extractedData.

Definition extractData (scales : Scales) (offset : Offset)
  : option ExtractedData :=
  let extractedData := extractStatic scales offset ∅ in
  skillRegions ← generateSkillRegions image_height (scaleY scales) offset;
  Some (extractSkills skillRegions extractedData).

Definition handleFileSelect : option Callback :=
  changeMatch ← findBestTemplateMatch image_width image_height
                   change_width change_height change_matchTemplate;
  headersMatch ← findBestTemplateMatch image_width image_height
                   headers_width headers_height headers_matchTemplate;
  match changeMatch, headersMatch with
  | Some changeMatch, Some headersMatch =>
      let scales := calculateScales changeMatch headersMatch in
      let offset := calculateOffset changeMatch headersMatch scales in
      extractedData ← extractData scales offset;
      parsedData ← parseExtractedData extractedData;
      match parsedData with
      | Returned parsedData => Some (onDataParsed parsedData)
      | Threw message =>
          Some (onError ("Failed to process image: " +:+ message))
      end
  | _, _ => Some (onError no_template_matches)
  end.

End Pipeline.

(** ** Skill resolver *)

Definition glyph_double_circle : char := 9678%N.  (* U+25CE *)
Definition glyph_circle : char := 9675%N.         (* U+25CB *)
Definition glyph_times : char := 215%N.           (* U+00D7 *)
Definition glyph_copyright : char := 169%N.       (* U+00A9 *)
Definition glyph_registered : char := 174%N.      (* U+00AE *)
Definition glyph_trademark : char := 8482%N.      (* U+2122 *)

(** [matrix[i]] from [matrix[i-1]], for the character [c2] of [str2] at
    [i-1]; [left] is [matrix[i][j-1]]. *)
Fixpoint levenshteinRow (str1 : jsstring) (c2 : char) (previous : list Z)
    (left : Z) : list Z :=
  match str1, previous with
  | c1 :: str1', diagonal :: ((up :: _) as previous') =>
      let cell :=
        if (c2 =? c1)%N then diagonal
        else Z.min (diagonal + 1) (Z.min (left + 1) (up + 1)) in
      cell :: levenshteinRow str1' c2 previous' cell
  | _, _ => []
  end.

Fixpoint levenshteinRows (str1 str2 : jsstring) (i : Z) (previous : list Z)
  : list Z :=
  match str2 with
  | [] => previous
  | c2 :: str2' =>
      levenshteinRows str1 str2' (i + 1)
        (i :: levenshteinRow str1 c2 previous i)
  end.

Definition levenshteinDistance (str1 str2 : jsstring) : Z :=
  let row0 := map Z.of_nat (seq 0 (S (length str1))) in
  List.last (levenshteinRows str1 str2 1 row0) 0.

Definition calculateSimilarity (str1 str2 : jsstring) : Q :=
  let longer := if (length str2 <? length str1)%nat then str1 else str2 in
  let shorter := if (length str2 <? length str1)%nat then str2 else str1 in
  if (length longer =? 0)%nat then 1%Q
  else
    let distance := levenshteinDistance longer shorter in
    (inject_Z (Z.of_nat (length longer) - distance)
     / inject_Z (Z.of_nat (length longer)))%Q.

(** [text.match(/[◎○×©®™]/)] *)
Definition isTierGlyph (c : char) : bool :=
  ((c =? glyph_double_circle) || (c =? glyph_circle) || (c =? glyph_times)
   || (c =? glyph_copyright) || (c =? glyph_registered)
   || (c =? glyph_trademark))%N.

Fixpoint match_tier (text : jsstring) : option jsstring :=
  match text with
  | [] => None
  | c :: rest => if isTierGlyph c then Some [c] else match_tier rest
  end.

Definition extractTierSymbol (text : jsstring) : option jsstring :=
  match match_tier text with
  | Some tierMatch => Some tierMatch
  | None =>
      if endsWith (lit " O") (trim text) then Some [glyph_circle]
      else if includes text [glyph_copyright] then Some [glyph_copyright]
      else None
  end.

Definition tierMap : list (jsstring * list jsstring) :=
  [ ([glyph_double_circle],
     [[glyph_circle]; [glyph_copyright]; [glyph_registered];
      [glyph_trademark]]);
    ([glyph_circle],
     [[glyph_double_circle]; [glyph_copyright]; [glyph_registered];
      [glyph_trademark]]);
    ([glyph_times], [[glyph_times]]);
    ([glyph_copyright], [[glyph_double_circle]; [glyph_circle]]);
    ([glyph_registered], [[glyph_double_circle]; [glyph_circle]]);
    ([glyph_trademark], [[glyph_double_circle]; [glyph_circle]]) ].

Definition array_includes (a : list jsstring) (s : jsstring) : bool :=
  existsb (fun e => bool_decide (e = s)) a.

Fixpoint property {A} (o : list (jsstring * A)) (k : jsstring) : option A :=
  match o with
  | [] => None
  | (k', v) :: o' => if bool_decide (k' = k) then Some v else property o' k
  end.

Definition isTierCompatible (skillTier parsedTier : jsstring) : bool :=
  match property tierMap skillTier with
  | Some compatible => array_includes compatible parsedTier
  | None => false
  end.

(** The test [hasTierVariants] of [applyTierMatchingBonus]: the name holds
    one of the three tier glyphs. *)
Definition hasTierVariants (skillName : jsstring) : bool :=
  includes skillName [glyph_double_circle]
  || includes skillName [glyph_circle]
  || includes skillName [glyph_times].

Definition applyTierMatchingBonus (skillName parsedSkill : jsstring)
    (baseSimilarity : Q) : Q :=
  if negb (hasTierVariants skillName) then baseSimilarity
  else
    match extractTierSymbol skillName, extractTierSymbol parsedSkill with
    | Some skillTier, Some parsedTier =>
        if truthy skillTier && truthy parsedTier then
          if bool_decide (skillTier = parsedTier) then
            (baseSimilarity + (5 # 10))%Q
          else if isTierCompatible skillTier parsedTier then
            Math_min 1 (baseSimilarity + (3 # 10))
          else Math_max 0 (baseSimilarity - (2 # 10))
        else baseSimilarity
    | _, _ => baseSimilarity
    end.

Section SkillResolver.

(** [String.prototype.toLowerCase] *)
Variable toLowerCase : jsstring -> jsstring.
(** [Object.entries(skillnames)]: identifier and display names, in the
    order of enumeration. *)
Variable skillnames : list (string * list jsstring).

(** [s.toLowerCase().replace(/[^\w\s]/g, '').trim()] *)
Definition normalizeString (s : jsstring) : jsstring :=
  trim (filter (fun c => isWord c || isSpace c = true) (toLowerCase s)).

Definition fuzzyMatch (str1 str2 : jsstring) : bool :=
  let n1 := normalizeString str1 in
  let n2 := normalizeString str2 in
  includes n1 n2 || includes n2 n1
  || Qltb (7 # 10) (calculateSimilarity n1 n2).

(** The body of the loop over the names of one catalog entry. *)
Definition considerName (skillId : string) (skillName : jsstring)
    (best : option string * Q) (name : jsstring) : option string * Q :=
  if fuzzyMatch name skillName then
    let similarity :=
      calculateSimilarity (normalizeString name) (normalizeString skillName)
    in
    let similarity := applyTierMatchingBonus name skillName similarity in
    if Qltb (snd best) similarity then (Some skillId, similarity) else best
  else best.

(** The pool filter: the first slot keeps the identifiers that start with
    10, every other slot the rest. *)
Definition inPool (isUniqueSkill : bool) (skillId : string) : bool :=
  if isUniqueSkill then String.prefix "10" skillId
  else negb (String.prefix "10" skillId).

(** The body of the loop over the catalog. *)
Definition considerEntry (skillName : jsstring) (isUniqueSkill : bool)
    (best : option string * Q) (entry : string * list jsstring)
  : option string * Q :=
  let '(skillId, skillNames) := entry in
  if inPool isUniqueSkill skillId then
    fold_left (considerName skillId skillName) skillNames best
  else best.

Definition findMatchingSkill (skillName : jsstring) (isUniqueSkill : bool)
  : option string :=
  let '(bestMatch, bestSimilarity) :=
    fold_left (considerEntry skillName isUniqueSkill) skillnames
      (None, 0%Q) in
  if Qltb (6 # 10) bestSimilarity then bestMatch else None.

(** The loop of [findMatchingSkills] from index [i] on. *)
Fixpoint findMatchingSkills_from (i : nat) (parsedSkills : list jsstring)
    (matchedSkills : list string) : list string :=
  match parsedSkills with
  | [] => matchedSkills
  | parsedSkill :: rest =>
      if negb (truthy parsedSkill) || negb (truthy (trim parsedSkill)) then
        findMatchingSkills_from (S i) rest matchedSkills
      else
        let isUniqueSkill := (i =? 0)%nat in
        match findMatchingSkill parsedSkill isUniqueSkill with
        | Some skillId =>
            if bool_decide (skillId = "") then
              findMatchingSkills_from (S i) rest matchedSkills
            else
              findMatchingSkills_from (S i) rest (matchedSkills ++ [skillId])
        | None => findMatchingSkills_from (S i) rest matchedSkills
        end
  end.

Definition findMatchingSkills (parsedSkills : list jsstring) : list string :=
  findMatchingSkills_from 0 parsedSkills [].

End SkillResolver.

(** An instance of [toLowerCase] for text in the ASCII range. *)
Definition asciiLowerCase (s : jsstring) : jsstring :=
  map (fun c => if isUpper c then (c + 32)%N else c) s.

(** * Vocabulary of the properties *)

(** ** Field parser: what the two regular expressions find *)

(** Three consecutive digits start at position [i] of [text]. *)
Definition digits3At (text : jsstring) (i : nat) : Prop :=
  ∃ a b c, text !! i = Some a ∧ text !! S i = Some b
           ∧ text !! S (S i) = Some c
           ∧ isDigit a = true ∧ isDigit b = true ∧ isDigit c = true.

(** The length of the run taken at [i]: four when a fourth digit follows. *)
Definition runLengthAt (text : jsstring) (i : nat) : nat :=
  match text !! S (S (S i)) with
  | Some d => if isDigit d then 4 else 3
  | None => 3
  end.

(** [run] is the first run of three to four consecutive digits of [text]. *)
Definition firstDigitRun (text run : jsstring) : Prop :=
  ∃ i, digits3At text i ∧ (∀ j, (j < i)%nat → ¬ digits3At text j)
       ∧ run = take (runLengthAt text i) (drop i text).

(** [c] is the first capital letter of [text]. *)
Definition firstUpper (text : jsstring) (c : char) : Prop :=
  ∃ pre post, text = pre ++ c :: post ∧ isUpper c = true
              ∧ Forall (fun d => isUpper d = false) pre.


(** ** Parsed record: grades and the skills loop *)

(** The eight grades of the aptitude scale, best first. *)
Definition grades : list jsstring :=
  [lit "S"; lit "A"; lit "B"; lit "C"; lit "D"; lit "E"; lit "F"; lit "G"].

(** The properties read for the ten aptitudes, in the order of
    [aptitudeValues]. *)
Definition aptitudeKeys : list string :=
  [ "turf_aptitude"; "dirt_aptitude";
    "sprint_aptitude"; "mile_aptitude"; "medium_aptitude"; "long_aptitude";
    "front_aptitude"; "pace_aptitude"; "late_aptitude"; "end_aptitude" ].

(** What one present skill field contributes to the skills list. *)
Definition keepSkill (skillText : jsstring) : option jsstring :=
  if truthy skillText && truthy (trim skillText) then Some (trim skillText)
  else None.

(** The contributions of [skill_i] ... [skill_(i+n-1)]. *)
Definition skillsBetween (data : ExtractedData) (i n : nat) : list jsstring :=
  omap (fun j => data !! skillKey j ≫= keepSkill) (seq i n).

(** [k] is the first index from 1 whose skill field is missing. *)
Definition firstGap (data : ExtractedData) (k : nat) : Prop :=
  (1 ≤ k)%nat ∧ data !! skillKey k = None
  ∧ ∀ j, (1 ≤ j < k)%nat → is_Some (data !! skillKey j).

(** A dictionary holding [text] under every static region name. *)
Definition staticFields (text : jsstring) : ExtractedData :=
  list_to_map (map (fun r => (DataRegion.name_ r, text)) DATA_REGIONS).

(** What [parseFields] stores for the aptitude read from [key]. *)
Definition aptitudeOf (data : ExtractedData) (key : string) (v : jsstring)
  : Prop :=
  ∃ text, data !! key = Some text ∧ v = parseAptitude text
          ∧ (∃ c, v = [c] ∧ isUpper c = true)
          ∧ ((∀ c, firstUpper text c → [c] ∈ grades) → v ∈ grades).

(** The record that [parseExtractedData] returns for [staticFields text]. *)
Definition staticRecord (text : jsstring) : ParsedUmaData :=
  let a := parseAptitude text in
  let s := parseStat text in
  {| outfit := or_else (Some text) [];
     name := or_else (Some text) (lit "Unknown Uma");
     stats := {| speed := s; stamina := s; power := s; guts := s;
                 wisdom := s |};
     aptitudes := {|
       track := {| turf := a; dirt := a |};
       distance := {| sprint := a; mile := a; medium := a; long := a |};
       style := {| front := a; pace := a; late := a; end_ := a |} |};
     skills := [] |}.

(** The properties that [parseExtractedData] calls [.match] on. *)
Definition requiredKeys : list string :=
  ["speed"; "stamina"; "power"; "guts"; "wit"] ++ aptitudeKeys.

(** ** Generated skill rows *)

(** [n] rows of two regions from the row at [currentY], numbered from
    [skillIndex]. *)
Fixpoint skillRowsFrom (skillIndex : nat) (currentY : Z) (n : nat)
    (scale : Q) (offset : Offset) : list DataRegion.t :=
  match n with
  | O => []
  | S n' =>
      skillRegionAt skillIndex leftX currentY scale offset
      :: skillRegionAt (S skillIndex) rightX currentY scale offset
      :: skillRowsFrom (S (S skillIndex)) (currentY + skillYInterval) n'
           scale offset
  end.

(** The number of rows whose bottom edge in the reference layout,
    [startY + i * skillYInterval + skillHeight], is below [imageHeight]. *)
Definition rowCount (imageHeight : Z) : nat :=
  Z.to_nat ((imageHeight - (startY + skillHeight) + (skillYInterval - 1))
            / skillYInterval).

(** The bottom edge of a region: one past its last pixel row. *)
Definition bottomEdge (region : DataRegion.t) : Z :=
  DataRegion.y region + DataRegion.height region.

Definition noOffset : Offset := {| x := 0; y := 0 |}.

(** ** Regions and the image bounds *)

(** The pixels of [region] all lie in [0,imageWidth) x [0,imageHeight). *)
Definition insideImage (imageWidth imageHeight : Z) (region : DataRegion.t)
  : Prop :=
  0 ≤ DataRegion.x region ∧ 0 ≤ DataRegion.y region
  ∧ DataRegion.x region + DataRegion.width region ≤ imageWidth
  ∧ DataRegion.y region + DataRegion.height region ≤ imageHeight.

Definition identityScales : Scales := {| scaleX := 1; scaleY := 1 |}.

(** The static region of the wisdom stat. *)
Definition witRegion : DataRegion.t :=
  DataRegion.mk "wit" 923 453 106 56 DataRegion.stats.

(** ** The probes of the scale search *)

Section SearchVocabulary.

Variables image_width image_height : Z.
Variables template_width template_height : Z.
Variable matchTemplate : Z -> Z -> Q * (Z * Z).

(** The template resized by [scale] still fits the image, so that
    [testScale] correlates it instead of skipping it. *)
Definition evaluated (scale : Q) : bool :=
  negb ((image_width <? Math_round (inject_Z template_width * scale))
        || (image_height <? Math_round (inject_Z template_height * scale))).

(** The response of the correlation at [scale]. *)
Definition responseAt (scale : Q) : Q * (Z * Z) :=
  matchTemplate (Math_round (inject_Z template_width * scale))
    (Math_round (inject_Z template_height * scale)).

(** The match that a probe at [scale] stands for. *)
Definition matchAt (scale : Q) : TemplateMatch.t :=
  TemplateMatch.mk (fst (snd (responseAt scale))) (snd (snd (responseAt scale)))
    scale scale (fst (responseAt scale)).

(** The confidence that [testScale] hands back for a probe: the response,
    or 0 for a probe it skips. *)
Definition probeConfidence (scale : Q) : Q :=
  if evaluated scale then fst (responseAt scale) else 0%Q.

(** The three probes of an iteration that starts in [st]. *)
Definition probesOf (st : SearchState) : list Q :=
  [lowScaleOf st; midScaleOf st; highScaleOf st].

(** The state after [n] further iterations, and the probes they test. *)
Fixpoint afterSteps (n : nat) (st : SearchState) : SearchState :=
  match n with
  | O => st
  | S n' =>
      afterSteps n'
        (binarySearchStep image_width image_height template_width
           template_height matchTemplate st)
  end.

Fixpoint searchProbes (n : nat) (st : SearchState) : list Q :=
  match n with
  | O => []
  | S n' =>
      probesOf st
      ++ searchProbes n'
           (binarySearchStep image_width image_height template_width
              template_height matchTemplate st)
  end.

(** [best] is the best of the probes: no evaluated probe has a higher
    confidence than [bestConfidence], and the match kept, if any, is the
    match of an evaluated probe with that confidence. *)
Definition bestOver (probes : list Q) (bestConfidence : Q)
    (best : option TemplateMatch.t) : Prop :=
  (∀ s, s ∈ probes → evaluated s = true →
        (fst (responseAt s) <= bestConfidence)%Q)
  ∧ match best with
    | Some m => ∃ s, s ∈ probes ∧ evaluated s = true ∧ m = matchAt s
                     ∧ bestConfidence = TemplateMatch.confidence m
    | None => bestConfidence = (-1)%Q
    end.

(** The interval an iteration leaves, from the three confidences. *)
Definition narrowed (st : SearchState) : Q * Q :=
  match chooseRange (probeConfidence (lowScaleOf st))
          (probeConfidence (midScaleOf st))
          (probeConfidence (highScaleOf st)) with
  | LowRange => (minScale st, midScaleOf st)
  | HighRange => (midScaleOf st, maxScale st)
  | MidRange => (lowScaleOf st, highScaleOf st)
  end.

End SearchVocabulary.

(** A response that is the same at every scale. *)
Definition flatResponse (confidence : Q) : Z -> Z -> Q * (Z * Z) :=
  fun _ _ => (confidence, (3, 4)).

(** ** Calibration *)

(** A region standing at the reference anchor of a template. *)
Definition anchorRegion (anchor : Z * Z) : DataRegion.t :=
  DataRegion.mk "anchor" (fst anchor) (snd anchor) 0 0 DataRegion.name.

(** The offset that one match implies on its own, per axis. *)
Definition impliedOffsetX (anchor : Z * Z) (m : TemplateMatch.t) : Q :=
  (inject_Z (TemplateMatch.x m)
   - inject_Z (fst anchor) * TemplateMatch.scaleX m)%Q.
Definition impliedOffsetY (anchor : Z * Z) (m : TemplateMatch.t) : Q :=
  (inject_Z (TemplateMatch.y m)
   - inject_Z (snd anchor) * TemplateMatch.scaleY m)%Q.

(** The two matches tell the same story: one scale and one offset. *)
Definition matchesAgree (changeMatch headersMatch : TemplateMatch.t) : Prop :=
  (TemplateMatch.scaleX changeMatch == TemplateMatch.scaleX headersMatch)%Q
  ∧ (TemplateMatch.scaleY changeMatch == TemplateMatch.scaleY headersMatch)%Q
  ∧ (impliedOffsetX TEMPLATE_POSITIONS_change changeMatch
     == impliedOffsetX TEMPLATE_POSITIONS_headers headersMatch)%Q
  ∧ (impliedOffsetY TEMPLATE_POSITIONS_change changeMatch
     == impliedOffsetY TEMPLATE_POSITIONS_headers headersMatch)%Q.

(** Where the calibration derived from two matches puts an anchor. *)
Definition calibratedAnchor (changeMatch headersMatch : TemplateMatch.t)
    (anchor : Z * Z) : Z * Z :=
  let scales := calculateScales changeMatch headersMatch in
  let offset := calculateOffset changeMatch headersMatch scales in
  let r := adjustRegion (anchorRegion anchor) scales offset in
  (DataRegion.x r, DataRegion.y r).

(** Two matches at scale 1 that disagree by ten pixels on the offset. *)
Definition shiftedChangeMatch : TemplateMatch.t :=
  TemplateMatch.mk 862 292 1 1 (9 # 10).
Definition plainHeadersMatch : TemplateMatch.t :=
  TemplateMatch.mk 38 404 1 1 (9 # 10).

(** ** Tier adjustment *)

(** The glyphs that the specification lists as compatible with one
    another. *)
Definition compatibilitySet : list jsstring :=
  [ [glyph_double_circle]; [glyph_circle]; [glyph_copyright];
    [glyph_registered]; [glyph_trademark] ].

(** The adjustment in the words of the specification: an exact glyph match
    adds 0.5; two glyphs of the compatibility set add 0.3, capped at 1; any
    other mismatch takes 0.2 off, floored at 0. *)
Definition claimedTierAdjustment (skillTier parsedTier : jsstring)
    (baseSimilarity : Q) : Q :=
  if bool_decide (skillTier = parsedTier) then (baseSimilarity + (5 # 10))%Q
  else if bool_decide (skillTier ∈ compatibilitySet)
          && bool_decide (parsedTier ∈ compatibilitySet)
       then Math_min 1 (baseSimilarity + (3 # 10))
       else Math_max 0 (baseSimilarity - (2 # 10)).

(** The pairs of distinct glyphs that [tierMap] lists: a circle with the
    other circle or a look-alike, and a look-alike with a circle. *)
Definition circles : list jsstring :=
  [ [glyph_double_circle]; [glyph_circle] ].
Definition lookAlikes : list jsstring :=
  [ [glyph_copyright]; [glyph_registered]; [glyph_trademark] ].
Definition listedCompatible (skillTier parsedTier : jsstring) : Prop :=
  (skillTier ∈ circles ∧ parsedTier ∈ circles ++ lookAlikes
   ∧ skillTier ≠ parsedTier)
  ∨ (skillTier ∈ lookAlikes ∧ parsedTier ∈ circles)
  ∨ (skillTier = [glyph_times] ∧ parsedTier = [glyph_times]).

(** A one-glyph string holding one of the six glyphs that
    [extractTierSymbol] looks for. *)
Definition tierSymbol (s : jsstring) : Prop :=
  ∃ c, s = [c] ∧ isTierGlyph c = true.

(** A display name that holds a look-alike glyph before its tier glyph, and
    a recognized line whose glyph came out as the registered sign. *)
Definition markedName : jsstring :=
  lit "Ace" ++ [glyph_copyright] ++ lit " Corners " ++ [glyph_double_circle].
Definition registeredLine : jsstring :=
  lit "Ace Corners " ++ [glyph_registered].

(** ** Candidates of a recognized skill line *)

(** The running best of [findMatchingSkill] meets one scored candidate. *)
Definition keepBest (best : option string * Q) (candidate : string * Q)
  : option string * Q :=
  if Qltb (snd best) (snd candidate)
  then (Some (fst candidate), snd candidate) else best.

Section ResolverVocabulary.

Variable toLowerCase : jsstring -> jsstring.
Variable skillnames : list (string * list jsstring).

(** The similarity of a display name to a line, after the tier bonus. *)
Definition adjustedSimilarity (name line : jsstring) : Q :=
  applyTierMatchingBonus name line
    (calculateSimilarity (normalizeString toLowerCase name)
       (normalizeString toLowerCase line)).

(** The scored candidates of one catalog entry: its names that pass
    [fuzzyMatch], each with its adjusted similarity. *)
Definition entryScores (line : jsstring) (skillId : string)
    (names : list jsstring) : list (string * Q) :=
  omap (fun name =>
          if fuzzyMatch toLowerCase name line
          then Some (skillId, adjustedSimilarity name line) else None)
    names.

(** The scored candidates of a line: those of the entries of its pool, in
    the order of the catalog. *)
Definition candidateScores (line : jsstring) (isUniqueSkill : bool)
  : list (string * Q) :=
  skillnames ≫= fun entry =>
    if inPool isUniqueSkill (fst entry)
    then entryScores line (fst entry) (snd entry) else [].

(** [skillId] is a candidate of the line with the adjusted similarity
    [similarity], and no candidate has a higher one. *)
Definition bestCandidate (line : jsstring) (isUniqueSkill : bool)
    (skillId : string) (similarity : Q) : Prop :=
  (skillId, similarity) ∈ candidateScores line isUniqueSkill
  ∧ ∀ c, c ∈ candidateScores line isUniqueSkill → (snd c <= similarity)%Q.

(** What the line at index [i] contributes to the result of
    [findMatchingSkills]: nothing when it is blank or has no match (or an
    empty identifier), else its identifier. *)
Definition resolveLine (i : nat) (line : jsstring) : option string :=
  if negb (truthy line) || negb (truthy (trim line)) then None
  else
    match findMatchingSkill toLowerCase skillnames line (i =? 0)%nat with
    | Some skillId => if bool_decide (skillId = "") then None else Some skillId
    | None => None
    end.

End ResolverVocabulary.

(** A small catalog: one original unique skill, its inherited variant, and
    the two tiers of a regular skill. *)
Definition sampleCatalog : list (string * list jsstring) :=
  [ ("100101", [lit "Shooting Star"]);
    ("900101", [lit "Shooting Star"]);
    ("200012", [lit "Right-Handed " ++ [glyph_double_circle]]);
    ("200013", [lit "Right-Handed " ++ [glyph_circle]]) ].

(** Two matches of one screenshot, twice the reference size and shifted by
    (7, 9). *)
Definition doubledChangeMatch : TemplateMatch.t :=
  TemplateMatch.mk 1711 593 2 2 (9 # 10).
Definition doubledHeadersMatch : TemplateMatch.t :=
  TemplateMatch.mk 83 817 2 2 (9 # 10).

(** The two tiers of one skill name, and the cross. *)
Definition rightHandedDouble : jsstring :=
  lit "Right-Handed " ++ [glyph_double_circle].
Definition rightHandedSingle : jsstring :=
  lit "Right-Handed " ++ [glyph_circle].
Definition rightHandedCross : jsstring :=
  lit "Right-Handed " ++ [glyph_times].

(** * Further definitions *)

From Stdlib Require Import Qpower Qabs.

Local Open Scope Z_scope.

(** ** Edit distance: the cells of the matrix *)

(** Every cell of the row [row] of index [i], whose first cell stands in
    column [offset], lies between 0 and the larger of its two indices. *)
Definition rowBounded (i offset : Z) (row : list Z) : Prop :=
  ∀ (k : nat) v, row !! k = Some v →
    0 ≤ v ≤ Z.max i (offset + Z.of_nat k).

(** The cell [v] of row [i] and column [j] is at least the difference of
    its indices, and is 0 only when the first [j] characters of [str1] are
    the first [i] characters of [str2]. *)
Definition cellSound (str1 str2 : jsstring) (i j : nat) (v : Z) : Prop :=
  Z.abs (Z.of_nat i - Z.of_nat j) ≤ v
  ∧ (v = 0 → take j str1 = take i str2).

Definition rowSound (str1 str2 : jsstring) (i offset : nat) (row : list Z)
  : Prop :=
  ∀ (k : nat) v, row !! k = Some v → cellSound str1 str2 i (offset + k) v.

(** ** Text *)

(** [p] occurs in [s] as a run of consecutive characters. *)
Definition occursIn (p s : jsstring) : Prop :=
  ∃ pre post, s = pre ++ p ++ post.

(** [s] neither starts nor ends with white space. *)
Definition trimmed (s : jsstring) : Prop :=
  (∀ c, head s = Some c → isSpace c = false)
  ∧ (∀ c, last s = Some c → isSpace c = false).

(** ** Resolver: samples *)

(** A recognized line that differs from a display name of [sampleCatalog]
    in case and punctuation only. *)
Definition shoutedLine : jsstring := lit "SHOOTING STAR!".

(** ** From the parsed record to the horse state *)

(** [array.indexOf(x)]: the first index of [x], or -1. *)
Fixpoint indexOf_from (array : list jsstring) (x : jsstring) (i : Z) : Z :=
  match array with
  | [] => -1
  | y :: rest => if bool_decide (y = x) then i else indexOf_from rest x (i + 1)
  end.

Definition indexOf (array : list jsstring) (x : jsstring) : Z :=
  indexOf_from array x 0.

Definition aptitudeOrder : list jsstring :=
  [lit "S"; lit "A"; lit "B"; lit "C"; lit "D"; lit "E"; lit "F"; lit "G"].

(** The body of the loop of [getHighestAptitude]. *)
Definition betterAptitude (best : jsstring * Z) (aptitude : jsstring)
  : jsstring * Z :=
  let index := indexOf aptitudeOrder aptitude in
  if negb (index =? -1) && (index <? snd best) then (aptitude, index)
  else best.

Definition getHighestAptitude (aptitudes : list jsstring) : jsstring :=
  fst (fold_left betterAptitude aptitudes
         (lit "G", Z.of_nat (length aptitudeOrder) - 1)).

Definition getStrategyFromAptitude (styleAptitudes : Style)
    (highestStyle : jsstring) : string :=
  if bool_decide (front styleAptitudes = highestStyle) then "Senkou"
  else if bool_decide (pace styleAptitudes = highestStyle) then "Senkou"
  else if bool_decide (late styleAptitudes = highestStyle) then "Oikomi"
  else if bool_decide (end_ styleAptitudes = highestStyle) then "Oikomi"
  else "Sasi".

(** An entry of the roster [umas]: the display name read as [uma.name[1]],
    and the outfits in the order of [Object.entries(uma.outfits)]. *)
Record Uma := {
  uma_name : jsstring;
  outfits : list (string * jsstring)
}.

(** A field of the horse state. *)
Inductive HorseValue :=
  | HId (id : string)
  | HNumber (n : Z)
  | HText (s : jsstring)
  | HSkillSet (ids : list string).

Section HorseStateConversion.

Variable toLowerCase : jsstring -> jsstring.
Variable skillnames : list (string * list jsstring).
(** [Object.entries(umas)], in the order of enumeration. *)
Variable umas : list (string * Uma).
(** [new HorseState()]: the fields of a fresh state. *)
Variable newHorseState : gmap string HorseValue.

(** The first outfit of one uma whose display name passes [fuzzyMatch]. *)
Fixpoint findOutfitOf (outfit : jsstring) (entries : list (string * jsstring))
  : option string :=
  match entries with
  | [] => None
  | (outfitId, outfitName) :: rest =>
      if fuzzyMatch toLowerCase outfitName outfit then Some outfitId
      else findOutfitOf outfit rest
  end.

(** The loop of [findMatchingUma] over outfits. *)
Fixpoint findByOutfit (outfit : jsstring) (roster : list (string * Uma))
  : option string :=
  match roster with
  | [] => None
  | (_, uma) :: rest =>
      match findOutfitOf outfit (outfits uma) with
      | Some outfitId => Some outfitId
      | None => findByOutfit outfit rest
      end
  end.

(** The loop of [findMatchingUma] over names: the first uma whose name
    matches ends it, with the first of its outfits ([undefined], here
    [None], when it has none). *)
Fixpoint findByName (name : jsstring) (roster : list (string * Uma))
  : option string :=
  match roster with
  | [] => None
  | (_, uma) :: rest =>
      if fuzzyMatch toLowerCase (uma_name uma) name
      then fst <$> head (outfits uma)
      else findByName name rest
  end.

(** [findMatchingUma]; [None] stands for both [null] and [undefined], which
    the caller tests alike. *)
Definition findMatchingUma (outfit name : jsstring) : option string :=
  match
    (if truthy outfit && truthy (trim outfit) then findByOutfit outfit umas
     else None)
  with
  | Some outfitId => Some outfitId
  | None =>
      if truthy name && truthy (trim name) then findByName name umas
      else None
  end.

(** [convertParsedDataToHorseState]; [horseState.set(k, v)] is the state with
    the field [k] replaced by [v]. *)
Definition convertParsedDataToHorseState (data : ParsedUmaData)
  : gmap string HorseValue :=
  let horseState := newHorseState in
  let umaId := findMatchingUma (outfit data) (name data) in
  let horseState :=
    match umaId with
    | Some id =>
        if bool_decide (id = "") then horseState
        else <["outfitId" := HId id]> horseState
    | None => horseState
    end in
  let horseState := <["speed" := HNumber (speed (stats data))]> horseState in
  let horseState :=
    <["stamina" := HNumber (stamina (stats data))]> horseState in
  let horseState := <["power" := HNumber (power (stats data))]> horseState in
  let horseState := <["guts" := HNumber (guts (stats data))]> horseState in
  let horseState :=
    <["wisdom" := HNumber (wisdom (stats data))]> horseState in
  let a := aptitudes data in
  let surfaceAptitudes := [turf (track a); dirt (track a)] in
  let distanceAptitudes :=
    [sprint (distance a); mile (distance a); medium (distance a);
     long (distance a)] in
  let styleAptitudes :=
    [front (style a); pace (style a); late (style a); end_ (style a)] in
  let highestSurface := getHighestAptitude surfaceAptitudes in
  let highestDistance := getHighestAptitude distanceAptitudes in
  let highestStyle := getHighestAptitude styleAptitudes in
  let strategy := getStrategyFromAptitude (style a) highestStyle in
  let horseState :=
    <["surfaceAptitude" := HText highestSurface]> horseState in
  let horseState :=
    <["distanceAptitude" := HText highestDistance]> horseState in
  let horseState :=
    <["strategyAptitude" := HText highestStyle]> horseState in
  let horseState := <["strategy" := HId strategy]> horseState in
  let matchedSkills :=
    findMatchingSkills toLowerCase skillnames (skills data) in
  match matchedSkills with
  | [] => horseState
  | _ :: _ => <["skills" := HSkillSet matchedSkills]> horseState
  end.

End HorseStateConversion.

(** The ranks of the grades, and the fields that the conversion writes. *)
Definition isGrade (aptitude : jsstring) : Prop := aptitude ∈ aptitudeOrder.

Definition writtenFields : list string :=
  [ "outfitId"; "speed"; "stamina"; "power"; "guts"; "wisdom";
    "surfaceAptitude"; "distanceAptitude"; "strategyAptitude"; "strategy";
    "skills" ].

Definition styleValues (s : Style) : list jsstring :=
  [front s; pace s; late s; end_ s].

(** ** The record of a run *)

(** The five stats of a record, in the order of the source. *)
Definition statValues (d : ParsedUmaData) : list Z :=
  [ speed (stats d); stamina (stats d); power (stats d); guts (stats d);
    wisdom (stats d) ].

(** The properties read for the five stats, in the order of [statValues]. *)
Definition statKeys : list string :=
  ["speed"; "stamina"; "power"; "guts"; "wit"].

(** The static regions of one kind, in the order of [DATA_REGIONS]. *)
Definition isKind (k r : DataRegion.kind) : bool :=
  match k, r with
  | DataRegion.stats, DataRegion.stats
  | DataRegion.aptitudes, DataRegion.aptitudes
  | DataRegion.skills, DataRegion.skills
  | DataRegion.name, DataRegion.name => true
  | _, _ => false
  end.

Definition regionsOfKind (k : DataRegion.kind) : list DataRegion.t :=
  List.filter (fun r => isKind k (DataRegion.type r)) DATA_REGIONS.

(** The number of regions at the head of [regions] that pass the bounds
    test of the extraction. *)
Fixpoint leadingInside (imageWidth imageHeight : Z)
    (regions : list DataRegion.t) : nat :=
  match regions with
  | [] => 0
  | r :: rest =>
      if withinImage imageWidth imageHeight r
      then S (leadingInside imageWidth imageHeight rest) else 0
  end.

(** ** Skill rows of the reference layout *)

(** The skill region of index [i] (from 0) in the reference layout: the row
    [i / 2], the left column when [i] is even and the right one when it is
    odd. *)
Definition referenceSkillRegion (i : nat) : DataRegion.t :=
  DataRegion.mk (skillKey (S i))
    (if Nat.even i then leftX else rightX)
    (startY + skillYInterval * Z.of_nat (i / 2))
    skillWidth skillHeight DataRegion.skills.

(** The right and the bottom edge of a region of the reference layout,
    projected as a point. *)
Definition projectedRight (region : DataRegion.t) (scales : Scales)
    (offset : Offset) : Z :=
  Math_round (inject_Z (DataRegion.x region + DataRegion.width region)
              * scaleX scales + x offset).

Definition projectedBottom (region : DataRegion.t) (scales : Scales)
    (offset : Offset) : Z :=
  Math_round (inject_Z (DataRegion.y region + DataRegion.height region)
              * scaleY scales + y offset).

(** ** Single-scale matching with a chosen method *)

(** The comparison methods of [cv.matchTemplate]. *)
Inductive Method :=
  | TM_SQDIFF | TM_SQDIFF_NORMED
  | TM_CCORR | TM_CCORR_NORMED
  | TM_CCOEFF | TM_CCOEFF_NORMED.

(** What [cv.minMaxLoc] reports. *)
Record MinMaxLoc := {
  minVal : Q;
  maxVal : Q;
  minLoc : Z * Z;
  maxLoc : Z * Z
}.

Definition isSquaredDifference (method : Method) : bool :=
  match method with
  | TM_SQDIFF | TM_SQDIFF_NORMED => true
  | _ => false
  end.

(** [findTemplateMatchWithMethod]; [minMaxLoc] is the report for the
    correlation of the template at its own size under [method]. *)
Definition findTemplateMatchWithMethod (minMaxLoc : MinMaxLoc)
    (method : Method) (threshold : Q) : option TemplateMatch.t :=
  let '(maxVal, maxLoc) :=
    if isSquaredDifference method
    then ((1 - minVal minMaxLoc)%Q, minLoc minMaxLoc)
    else (maxVal minMaxLoc, maxLoc minMaxLoc) in
  if Qltb threshold maxVal then
    Some (TemplateMatch.mk (fst maxLoc) (snd maxLoc) 1 1 maxVal)
  else None.

(** ** Nearest sample *)

(** [a[i]] for an integer [i]: [undefined], here [None], outside the
    array. *)
Definition at_index (a : list Q) (i : Z) : option Q :=
  if i <? 0 then None else a !! Z.to_nat i.

(** [x < v] and [x > v], false when [v] is [undefined]. *)
Definition lessThan (x : Q) (v : option Q) : bool :=
  match v with Some y => Qltb x y | None => false end.
Definition greaterThan (x : Q) (v : option Q) : bool :=
  match v with Some y => Qltb y x | None => false end.

(** [Math.abs(p - x) < Math.abs(q - x)], false when [p] or [q] is
    [undefined]. *)
Definition nearer (x : Q) (p q : option Q) : bool :=
  match p, q with
  | Some p, Some q => Qltb (Qabs (p - x)) (Qabs (q - x))
  | _, _ => false
  end.

(** The loop of [binSearch] and its final choice; [None] only when the
    fuel runs out. *)
Fixpoint binSearch_loop (fuel : nat) (a : list Q) (x : Q) (lo hi : Z)
  : option Z :=
  if lo <=? hi then
    match fuel with
    | O => None
    | S fuel' =>
        let mid := (lo + hi) / 2 in
        if lessThan x (at_index a mid) then
          binSearch_loop fuel' a x lo (mid - 1)
        else if greaterThan x (at_index a mid) then
          binSearch_loop fuel' a x (mid + 1) hi
        else Some mid
    end
  else
    Some (if nearer x (at_index a lo) (at_index a hi) then lo else hi).

Definition binSearch (a : list Q) (x : Q) : option Z :=
  let lo := 0 in
  let hi := Z.of_nat (length a) - 1 in
  if lessThan x (at_index a 0) then Some 0
  else if greaterThan x (at_index a hi) then Some (hi - 1)
  else binSearch_loop (S (length a)) a x lo hi.

(** [a] is in ascending order. *)
Definition ascending (a : list Q) : Prop :=
  ∀ (i j : nat) p q, (i ≤ j)%nat → a !! i = Some p → a !! j = Some q →
                     (p <= q)%Q.

(** The distance from the sample at [i] to [x]. *)
Definition distanceAt (a : list Q) (x : Q) (i : Z) : option Q :=
  (fun v => Qabs (v - x)) <$> at_index a i.

(** The sample at [r] is as near to [x] as any sample of [a]. *)
Definition nearestAt (a : list Q) (x : Q) (r : Z) : Prop :=
  ∃ v, at_index a r = Some v
       ∧ ∀ (i : nat) w, a !! i = Some w → (Qabs (v - x) <= Qabs (w - x))%Q.

(** ** The parser of the recognized page ([ImageParser.tsx]) *)

Module ImageParser.

(** [text.split('\n')] *)
Fixpoint split_lines (text : jsstring) : list jsstring :=
  match text with
  | [] => [[]]
  | c :: rest =>
      if (c =? 10)%N then [] :: split_lines rest
      else match split_lines rest with
           | line :: others => (c :: line) :: others
           | [] => [[c]]
           end
  end.

(** The lines that [parseUmaData] hands to the extractors:
    [text.split('\n').map(line => line.trim()).filter(line => line.length > 0)]. *)
Definition lines (text : jsstring) : list jsstring :=
  List.filter (fun line => (0 <? length line)%nat)
    (map trim (split_lines text)).

(** [line.match(/^[A-Za-z\s]{lo,hi}$/)] *)
Definition isLetterOrSpace (c : char) : bool :=
  isUpper c || isLower c || isSpace c.

Definition match_letters (lo hi : nat) (line : jsstring) : bool :=
  (lo <=? length line)%nat && (length line <=? hi)%nat
  && forallb isLetterOrSpace line.

(** The test of [extractUmaName] on one line. *)
Definition isNameLine (line : jsstring) : bool :=
  match_letters 3 30 line
  && negb (includes line (lit "Details"))
  && negb (includes line (lit "Speed"))
  && negb (includes line (lit "Stamina")).

Fixpoint extractUmaName (lines : list jsstring) : jsstring :=
  match lines with
  | [] => lit "Unknown Uma"
  | line :: rest => if isNameLine line then line else extractUmaName rest
  end.

(** The lines that [extractSkills] skips as labels. *)
Definition isLabelLine (line : jsstring) : bool :=
  includes line (lit "Speed") || includes line (lit "Stamina")
  || includes line (lit "Power") || includes line (lit "Guts")
  || includes line (lit "Wit") || includes line (lit "Details")
  || includes line (lit "Track") || includes line (lit "Distance")
  || includes line (lit "Style").

(** The loop of [extractSkills]. *)
Fixpoint extractSkills_loop (lines skills : list jsstring) : list jsstring :=
  match lines with
  | [] => skills
  | line :: rest =>
      if isLabelLine line then extractSkills_loop rest skills
      else if match_letters 4 50 line && (3 <? length line)%nat then
        extractSkills_loop rest (skills ++ [line])
      else extractSkills_loop rest skills
  end.

Definition extractSkills (lines : list jsstring) : list jsstring :=
  take 10 (extractSkills_loop lines []).

(** [line.match(/([A-Z])\s*$/)]: the leftmost capital letter that only
    white space follows. *)
Fixpoint match_upper_end (line : jsstring) : option jsstring :=
  match line with
  | [] => None
  | c :: rest =>
      if isUpper c && forallb isSpace rest then Some [c]
      else match_upper_end rest
  end.

(** One of the ten blocks of the loop of [extractAptitudes]: the field
    [current] after a line, for the two spellings of its key word. *)
Definition readAptitude (capitalized plain : string) (line : jsstring)
    (current : jsstring) : jsstring :=
  if includes line (lit capitalized) || includes line (lit plain) then
    match match_upper_end line with
    | Some m => m
    | None => current
    end
  else current.

Definition aptitudeStep (a : Aptitudes) (line : jsstring) : Aptitudes :=
  {| track :=
       {| turf := readAptitude "Turf" "turf" line (turf (track a));
          dirt := readAptitude "Dirt" "dirt" line (dirt (track a)) |};
     distance :=
       {| sprint := readAptitude "Sprint" "sprint" line (sprint (distance a));
          mile := readAptitude "Mile" "mile" line (mile (distance a));
          medium := readAptitude "Medium" "medium" line (medium (distance a));
          long := readAptitude "Long" "long" line (long (distance a)) |};
     style :=
       {| front := readAptitude "Front" "front" line (front (style a));
          pace := readAptitude "Pace" "pace" line (pace (style a));
          late := readAptitude "Late" "late" line (late (style a));
          end_ := readAptitude "End" "end" line (end_ (style a)) |} |}.

Definition initialAptitudes : Aptitudes :=
  {| track := {| turf := lit "G"; dirt := lit "G" |};
     distance := {| sprint := lit "G"; mile := lit "G"; medium := lit "G";
                    long := lit "G" |};
     style := {| front := lit "G"; pace := lit "G"; late := lit "G";
                 end_ := lit "G" |} |}.

Definition extractAptitudes (lines : list jsstring) : Aptitudes :=
  fold_left aptitudeStep lines initialAptitudes.

End ImageParser.

(** The lines that [extractSkills] keeps. *)
Definition isSkillLine (line : jsstring) : bool :=
  negb (ImageParser.isLabelLine line)
  && ImageParser.match_letters 4 50 line.

(** The two spellings of the key words of the ten aptitudes, in the order
    of [aptitudeValues]. *)
Definition aptitudeWords : list (string * string) :=
  [ ("Turf", "turf"); ("Dirt", "dirt");
    ("Sprint", "sprint"); ("Mile", "mile"); ("Medium", "medium");
    ("Long", "long");
    ("Front", "front"); ("Pace", "pace"); ("Late", "late"); ("End", "end") ].

(** The ten aptitude values of an [Aptitudes] record. *)
Definition valuesOf (a : Aptitudes) : list jsstring :=
  [ turf (track a); dirt (track a);
    sprint (distance a); mile (distance a); medium (distance a);
    long (distance a);
    front (style a); pace (style a); late (style a); end_ (style a) ].

(** A line sets the aptitude with the key words [words]: it holds one of
    the two spellings and ends, white space apart, in a capital letter. *)
Definition setsAptitude (words : string * string) (line : jsstring) : bool :=
  (includes line (lit (fst words)) || includes line (lit (snd words)))
  && bool_decide (is_Some (ImageParser.match_upper_end line)).

(** ** Lower case, character by character *)

(** The character map of [asciiLowerCase]. *)
Definition asciiLower (c : char) : char :=
  if isUpper c then (c + 32)%N else c.

(** ** Edit distance: the matrix as a function of its indices *)

(** [str2.charAt(i) === str1.charAt(j)] for indices inside the strings. *)
Definition sameCharAt (str1 str2 : jsstring) (i j : nat) : bool :=
  match (str2 !! i : option char), (str1 !! j : option char) with
  | Some c2, Some c1 => (c2 =? c1)%N
  | _, _ => false
  end.

(** The cell [matrix[i][j]] that the recurrence of [levenshteinDistance]
    defines. *)
Fixpoint editCell (str1 str2 : jsstring) (i : nat) : nat → Z :=
  match i with
  | O => fun j => Z.of_nat j
  | S i' =>
      fix row (j : nat) : Z :=
        match j with
        | O => Z.of_nat (S i')
        | S j' =>
            if sameCharAt str1 str2 i' j' then editCell str1 str2 i' j'
            else Z.min (editCell str1 str2 i' j' + 1)
                   (Z.min (row j' + 1) (editCell str1 str2 i' (S j') + 1))
        end
  end.

Definition rowExact (str1 str2 : jsstring) (i offset : nat) (row : list Z)
  : Prop :=
  ∀ (k : nat) v, row !! k = Some v → v = editCell str1 str2 i (offset + k).
(** * Properties *)

(** ** Field parser *)

Lemma digits3At_cons a text i :
  digits3At (a :: text) (S i) ↔ digits3At text i.
Proof. unfold digits3At; simpl; tauto. Qed.

Lemma digits3At_short text i :
  (length text < 3)%nat → ¬ digits3At text i.
Proof.
  intros Hlen (a & b & c & _ & _ & Hc & _).
  apply lookup_lt_Some in Hc. lia.
Qed.

Lemma firstDigitRun_cons a text run :
  ¬ digits3At (a :: text) 0 → firstDigitRun text run →
  firstDigitRun (a :: text) run.
Proof.
  intros H0 (i & Hi & Hmin & ->). exists (S i). split; [|split].
  - by apply digits3At_cons.
  - intros [|j] Hj; [done|]. rewrite digits3At_cons. apply Hmin. lia.
  - reflexivity.
Qed.

Lemma match_digits_3_4_Some text m :
  match_digits_3_4 text = Some m →
  firstDigitRun text m ∧ (length m = 3 ∨ length m = 4)%nat
  ∧ Forall (fun d => isDigit d = true) m.
Proof.
  induction text as [|a rest IH]; [done|].
  assert (Hrec : ¬ digits3At (a :: rest) 0 →
                 match_digits_3_4 rest = Some m →
                 firstDigitRun (a :: rest) m
                 ∧ (length m = 3 ∨ length m = 4)%nat
                 ∧ Forall (fun d => isDigit d = true) m).
  { intros H0 Hm. destruct (IH Hm) as (Hf & Hl & Hd).
    split; [by apply firstDigitRun_cons|done]. }
  simpl. destruct rest as [|b [|c tl]].
  - simpl; done.
  - simpl; done.
  - destruct (isDigit a && isDigit b && isDigit c) eqn:Habc.
    + apply andb_prop in Habc as [Hab Hc].
      apply andb_prop in Hab as [Ha Hb].
      assert (H3 : digits3At (a :: b :: c :: tl) 0).
      { exists a, b, c. by repeat split. }
      assert (Hmin : ∀ j, (j < 0)%nat → ¬ digits3At (a :: b :: c :: tl) j)
        by (intros j Hj; lia).
      destruct tl as [|d tl'].
      * intros [= <-]. split; [|split].
        -- exists 0%nat. by repeat split.
        -- by left.
        -- by repeat constructor.
      * destruct (isDigit d) eqn:Hd; intros [= <-]; (split; [|split]).
        -- exists 0%nat. repeat split; [done..|].
           unfold runLengthAt; simpl. by rewrite Hd.
        -- by right.
        -- by repeat constructor.
        -- exists 0%nat. repeat split; [done..|].
           unfold runLengthAt; simpl. by rewrite Hd.
        -- by left.
        -- by repeat constructor.
    + apply Hrec. intros (a' & b' & c' & Ha & Hb & Hc & Hda & Hdb & Hdc).
      simpl in Ha, Hb, Hc. simplify_eq. by rewrite Hda, Hdb, Hdc in Habc.
Qed.

Lemma match_digits_3_4_None text :
  match_digits_3_4 text = None → ∀ i, ¬ digits3At text i.
Proof.
  induction text as [|a rest IH]; intros Hm i.
  - apply digits3At_short; simpl; lia.
  - assert (Hrec : ¬ digits3At (a :: rest) 0 →
                   match_digits_3_4 rest = None →
                   ¬ digits3At (a :: rest) i).
    { intros H0 Hr. destruct i as [|i]; [done|].
      rewrite digits3At_cons. by apply IH. }
    simpl in Hm. destruct rest as [|b [|c tl]].
    + apply digits3At_short; simpl; lia.
    + apply digits3At_short; simpl; lia.
    + destruct (isDigit a && isDigit b && isDigit c) eqn:Habc.
      * destruct tl as [|d tl']; [done|]. by destruct (isDigit d).
      * apply Hrec; [|done].
        intros (a' & b' & c' & Ha & Hb & Hc & Hda & Hdb & Hdc).
        simpl in Ha, Hb, Hc. simplify_eq. by rewrite Hda, Hdb, Hdc in Habc.
Qed.

Lemma match_upper_Some text m :
  match_upper text = Some m → ∃ c, m = [c] ∧ firstUpper text c.
Proof.
  induction text as [|d rest IH]; [done|]. simpl.
  destruct (isUpper d) eqn:Hd.
  - intros [= <-]. exists d. split; [done|]. by exists [], rest.
  - intros Hm. destruct (IH Hm) as (c & -> & pre & post & -> & Hc & Hpre).
    exists c. split; [done|]. exists (d :: pre), post.
    repeat split; [done|]. by constructor.
Qed.

Lemma match_upper_None text :
  match_upper text = None → Forall (fun d => isUpper d = false) text.
Proof.
  induction text as [|d rest IH]; [constructor|]. simpl.
  destruct (isUpper d) eqn:Hd; [done|]. intros Hm. constructor; auto.
Qed.

(** C5. For every recognized text, [parseStat] returns the integer value of
    the first run of three to four consecutive digits, and 0 when the text
    has no such run; [parseAptitude] returns the first capital letter, and
    the grade G when the text has none.  Both are total: no text makes them
    fail.  In particular "S 1012" parses to 1012, and the empty text to 0 and
    to G. *)
Theorem field_parsers_first_match :
  (∀ text : jsstring,
      (∃ run, firstDigitRun text run
              ∧ (length run = 3 ∨ length run = 4)%nat
              ∧ Forall (fun d => isDigit d = true) run
              ∧ parseStat text = parseInt run)
      ∨ ((∀ i, ¬ digits3At text i) ∧ parseStat text = 0))
  ∧ (∀ text : jsstring,
      (∃ c, firstUpper text c ∧ parseAptitude text = [c])
      ∨ (Forall (fun d => isUpper d = false) text
         ∧ parseAptitude text = lit "G"))
  ∧ parseStat (lit "S 1012") = 1012
  ∧ parseStat (lit "") = 0
  ∧ parseAptitude (lit "A") = lit "A"
  ∧ parseAptitude (lit "") = lit "G".
Proof.
  split; [|split; [|by repeat split]].
  - intros text. unfold parseStat.
    destruct (match_digits_3_4 text) as [m|] eqn:Hm.
    + left. exists m.
      destruct (match_digits_3_4_Some _ _ Hm) as (? & ? & ?). by repeat split.
    + right. split; [|done]. by apply match_digits_3_4_None.
  - intros text. unfold parseAptitude.
    destruct (match_upper text) as [m|] eqn:Hm.
    + left. destruct (match_upper_Some _ _ Hm) as (c & -> & Hc). by exists c.
    + right. split; [|done]. by apply match_upper_None.
Qed.

(** ** The aptitudes of the parsed record *)

Lemma parseAptitude_capital text :
  ∃ c, parseAptitude text = [c] ∧ isUpper c = true.
Proof.
  unfold parseAptitude. destruct (match_upper text) as [m|] eqn:Hm.
  - destruct (match_upper_Some _ _ Hm) as (c & -> & _ & _ & _ & Hc & _).
    by exists c.
  - by exists 71%N.
Qed.

Lemma parseAptitude_grade text :
  (∀ c, firstUpper text c → [c] ∈ grades) → parseAptitude text ∈ grades.
Proof.
  intros Hg. unfold parseAptitude.
  destruct (match_upper text) as [m|] eqn:Hm.
  - destruct (match_upper_Some _ _ Hm) as (c & -> & Hc). by apply Hg.
  - apply list_elem_of_In. simpl. intuition.
Qed.

Lemma aptitudeField_of data key v :
  aptitudeField data key = Some v → aptitudeOf data key v.
Proof.
  unfold aptitudeField. destruct (data !! key) as [text|] eqn:Hk; [|done].
  intros [= <-]. exists text. split; [done|]. split; [done|]. split.
  - apply parseAptitude_capital.
  - apply parseAptitude_grade.
Qed.

Lemma parseFields_aptitudes data sk d :
  parseFields data sk = Some d →
  Forall2 (aptitudeOf data) aptitudeKeys (aptitudeValues d).
Proof.
  unfold parseFields. intros H.
  repeat match type of H with
  | (mbind _ ?o) = Some _ =>
      let v := fresh "v" in let E := fresh "E" in
      destruct o as [v|] eqn:E; [simpl in H|discriminate H]
  end.
  injection H as <-. unfold aptitudeKeys, aptitudeValues; simpl.
  repeat (constructor; [by apply aptitudeField_of|]). constructor.
Qed.

(** C9, as the code has it. Every aptitude value of a returned record is
    what [parseAptitude] makes of the text recognized in its region: a
    one-letter string holding a capital letter A to Z (the first capital of
    the text, or G when it has none). It is one of the eight grades
    S, A, B, C, D, E, F, G whenever the first capital of the text, if any, is
    one of these letters. *)
Theorem aptitudes_are_capital_letters (data : ExtractedData)
    (d : ParsedUmaData) :
  parseExtractedData data = Some (Returned d) →
  Forall2 (aptitudeOf data) aptitudeKeys (aptitudeValues d).
Proof.
  unfold parseExtractedData.
  destruct (parseFields data []) as [d0|] eqn:Hd0; [|done].
  destruct (collectSkills _ _ _ _) as [sk|]; [|done]. simpl.
  intros [= <-]. by apply parseFields_aptitudes in Hd0.
Qed.

Lemma aptitudes_are_capital_letters_witness :
  Forall2 (aptitudeOf (staticFields (lit "B 7")))
    aptitudeKeys (aptitudeValues (staticRecord (lit "B 7"))).
Proof.
  apply (aptitudes_are_capital_letters (staticFields (lit "B 7"))
           (staticRecord (lit "B 7"))).
  vm_compute. reflexivity.
Defined.

(** C9 as stated fails: a region whose recognized text is "X" gives the
    aptitude "X", which is none of the eight grades. *)
Lemma aptitude_outside_the_grades :
  parseExtractedData (staticFields (lit "X"))
  = Some (Returned (staticRecord (lit "X")))
  ∧ turf (track (aptitudes (staticRecord (lit "X")))) = lit "X"
  ∧ ¬ Forall (fun v => v ∈ grades) (aptitudeValues (staticRecord (lit "X"))).
Proof.
  split; [by vm_compute|]. split; [reflexivity|].
  intros H. apply Forall_cons in H as [H _].
  apply list_elem_of_In in H. simpl in H.
  repeat destruct H as [H|H]; try discriminate H. done.
Qed.

(** ** The skills loop of [parseExtractedData] *)

Lemma skillKey_inj i j : skillKey i = skillKey j → i = j.
Proof.
  unfold skillKey. intros H. apply (inj (String.app "skill_")) in H.
  by apply (inj pretty) in H.
Qed.

Lemma collectSkills_run n : ∀ fuel (data : ExtractedData) i acc,
  (∀ j, (i ≤ j < i + n)%nat → is_Some (data !! skillKey j)) →
  data !! skillKey (i + n) = None → (n ≤ fuel)%nat →
  collectSkills fuel data i acc = Some (acc ++ skillsBetween data i n).
Proof.
  induction n as [|n IH]; intros fuel data i acc Hpresent Hgap Hfuel.
  - replace (i + 0)%nat with i in Hgap by lia.
    unfold skillsBetween; simpl. rewrite app_nil_r.
    destruct fuel; simpl; by rewrite Hgap.
  - destruct fuel as [|fuel]; [lia|].
    destruct (Hpresent i) as [skillText Hi]; [lia|].
    simpl. rewrite Hi. rewrite (IH fuel data (S i)).
    + f_equal. unfold skillsBetween; simpl. rewrite Hi; simpl.
      unfold keepSkill.
      destruct (truthy skillText && truthy (trim skillText)); simpl;
        [by rewrite <- app_assoc|done].
    + intros j Hj. apply Hpresent. lia.
    + by replace (S i + n)%nat with (i + S n)%nat by lia.
    + lia.
Qed.

Lemma present_skills_bound (data : ExtractedData) m :
  (∀ j, (1 ≤ j ≤ m)%nat → is_Some (data !! skillKey j)) →
  (m ≤ size data)%nat.
Proof.
  intros Hpresent.
  set (keys := skillKey <$> seq 1 m).
  assert (Hnodup : NoDup keys).
  { apply NoDup_fmap_2_strong; [|apply NoDup_seq].
    intros i j _ _. apply skillKey_inj. }
  assert (Hsub : (list_to_set keys : gset string) ⊆ dom data).
  { intros key Hkey. apply elem_of_list_to_set in Hkey.
    apply list_elem_of_fmap in Hkey as (j & -> & Hj).
    apply elem_of_seq in Hj. apply elem_of_dom. apply Hpresent. lia. }
  apply subseteq_size in Hsub.
  rewrite size_list_to_set in Hsub by done.
  rewrite size_dom in Hsub. unfold keys in Hsub.
  by rewrite length_fmap, length_seq in Hsub.
Qed.

Lemma gap_or_all_present (data : ExtractedData) m :
  (∀ j, (1 ≤ j ≤ m)%nat → is_Some (data !! skillKey j))
  ∨ (∃ k, (k ≤ m)%nat ∧ firstGap data k).
Proof.
  induction m as [|m [IH|(k & Hk & Hgap)]].
  - left. intros j Hj. lia.
  - destruct (data !! skillKey (S m)) as [t|] eqn:Hm.
    + left. intros j Hj. destruct (decide (j = S m)) as [->|]; [by eexists|].
      apply IH. lia.
    + right. exists (S m). split; [lia|]. split; [lia|]. split; [done|].
      intros j Hj. apply IH. lia.
  - right. exists k. split; [lia|done].
Qed.

Lemma firstGap_exists (data : ExtractedData) : ∃ k, firstGap data k.
Proof.
  destruct (gap_or_all_present data (S (size data))) as [Hall|(k & _ & Hk)].
  - apply present_skills_bound in Hall. lia.
  - by exists k.
Qed.

Lemma firstGap_collect (data : ExtractedData) k :
  firstGap data k →
  collectSkills (S (size data)) data 1 []
  = Some (skillsBetween data 1 (k - 1)).
Proof.
  intros (Hk & Hgap & Hpresent).
  rewrite (collectSkills_run (k - 1)); [done| | |].
  - intros j Hj. apply Hpresent. lia.
  - by replace (1 + (k - 1))%nat with k by lia.
  - assert (k - 1 ≤ size data)%nat; [|lia].
    apply present_skills_bound. intros j Hj. apply Hpresent. lia.
Qed.

Lemma parseFields_skills_irrelevant data sk sk' :
  is_Some (parseFields data sk) → is_Some (parseFields data sk').
Proof.
  unfold parseFields. intros [d H].
  repeat match type of H with
  | (mbind _ ?o) = Some _ =>
      let v := fresh "v" in
      destruct o as [v|]; [simpl in H|discriminate H]
  end.
  simpl. by eexists.
Qed.

Lemma parseFields_present (data : ExtractedData) sk :
  Forall (fun key => is_Some (data !! key)) requiredKeys →
  is_Some (parseFields data sk).
Proof.
  intros H. unfold requiredKeys, aptitudeKeys in H; simpl in H.
  repeat match type of H with
  | Forall _ (_ :: _) =>
      let E := fresh "E" in let t := fresh "t" in
      apply Forall_cons in H as [[t E] H]
  end.
  unfold parseFields, statField, aptitudeField.
  repeat match goal with E : _ !! _ = Some _ |- _ => rewrite E; clear E end.
  simpl. by eexists.
Qed.

Lemma parseFields_insert_skill (data : ExtractedData) j text sk :
  parseFields (<[skillKey j := text]> data) sk = parseFields data sk.
Proof.
  unfold parseFields, statField, aptitudeField.
  by rewrite !lookup_insert_ne by (unfold skillKey; cbv beta iota delta [String.append]; discriminate).
Qed.

Lemma firstGap_insert_above (data : ExtractedData) k j text :
  firstGap data k → (k < j)%nat →
  firstGap (<[skillKey j := text]> data) k
  ∧ skillsBetween (<[skillKey j := text]> data) 1 (k - 1)
    = skillsBetween data 1 (k - 1).
Proof.
  intros (Hk & Hgap & Hpresent) Hj.
  assert (Hne : ∀ i, (i ≤ k)%nat → skillKey j ≠ skillKey i).
  { intros i Hi Heq. apply skillKey_inj in Heq. lia. }
  split.
  - split; [done|]. split.
    + by rewrite lookup_insert_ne by (apply Hne; lia).
    + intros i Hi. rewrite lookup_insert_ne by (apply Hne; lia).
      by apply Hpresent.
  - unfold skillsBetween. apply list_omap_ext, Forall_Forall2_diag.
    apply Forall_forall. intros i Hi. apply elem_of_seq in Hi.
    by rewrite lookup_insert_ne by (apply Hne; lia).
Qed.

Lemma parseExtractedData_returns (data : ExtractedData) :
  Forall (fun key => is_Some (data !! key)) requiredKeys →
  ∃ d, parseExtractedData data = Some (Returned d).
Proof.
  intros Hreq. destruct (firstGap_exists data) as [k Hk].
  unfold parseExtractedData. rewrite (firstGap_collect data k Hk).
  destruct (parseFields_present data [] Hreq) as [d0 ->]. simpl.
  by eexists.
Qed.

(** C10. The skills of the record are collected from [skill_1],
    [skill_2], ... up to the first index [k] whose field is missing from the
    extracted data: the loop ends there (such a [k] exists, and the call
    returns), the list holds the trimmed non-empty texts of the fields below
    [k] in order, and a field [skill_j] with [j > k] changes nothing of what
    is returned, present or not. *)
Theorem skills_stop_at_first_gap (data : ExtractedData) :
  ∃ k, firstGap data k
       ∧ collectSkills (S (size data)) data 1 []
         = Some (skillsBetween data 1 (k - 1))
       ∧ (∃ c, parseExtractedData data = Some c
               ∧ ∀ d, c = Returned d →
                      skills d = skillsBetween data 1 (k - 1))
       ∧ (Forall (fun key => is_Some (data !! key)) requiredKeys →
          ∃ d, parseExtractedData data = Some (Returned d))
       ∧ ∀ j text, (k < j)%nat →
           parseExtractedData (<[skillKey j := text]> data)
           = parseExtractedData data.
Proof.
  destruct (firstGap_exists data) as [k Hk]. exists k.
  pose proof (firstGap_collect data k Hk) as Hrun.
  split; [done|]. split; [done|]. split; [|split].
  - unfold parseExtractedData. rewrite Hrun.
    destruct (parseFields data []) as [d0|]; simpl.
    + eexists. split; [done|]. by intros d [= <-].
    + eexists. split; [done|]. by intros d [=].
  - apply parseExtractedData_returns.
  - intros j text Hj.
    destruct (firstGap_insert_above data k j text Hk Hj) as [Hk' Hsame].
    unfold parseExtractedData.
    rewrite (firstGap_collect _ k Hk'), Hsame, Hrun.
    by rewrite parseFields_insert_skill.
Qed.

(** ** Rounding *)

Lemma Math_round_integer (q : Q) (z : Z) :
  (q == inject_Z z)%Q → Math_round q = z.
Proof.
  intros Hq. unfold Math_round.
  assert (Hlow : (inject_Z z <= q + (1 # 2))%Q) by lra.
  assert (Hhigh : (q + (1 # 2) < inject_Z (z + 1))%Q).
  { rewrite inject_Z_plus. change (inject_Z 1) with 1%Q. lra. }
  apply Qfloor_resp_le in Hlow. rewrite Qfloor_Z in Hlow.
  pose proof (Qfloor_le (q + (1 # 2))) as Hfl.
  assert (Hlt : (inject_Z (Qfloor (q + (1 # 2))) < inject_Z (z + 1))%Q)
    by lra.
  rewrite <- Zlt_Qlt in Hlt. lia.
Qed.

(** ** Generated skill regions *)

Lemma generateSkillRegions_loop_rows n :
  ∀ fuel imageHeight scale offset skillIndex currentY acc,
  imageHeight ≤ currentY + skillHeight + skillYInterval * Z.of_nat n →
  (∀ m, (m < n)%nat →
        currentY + skillHeight + skillYInterval * Z.of_nat m < imageHeight) →
  (n ≤ fuel)%nat →
  generateSkillRegions_loop fuel imageHeight scale offset skillIndex
    currentY acc
  = Some (acc ++ skillRowsFrom skillIndex currentY n scale offset).
Proof.
  induction n as [|n IH];
    intros fuel imageHeight scale offset skillIndex currentY acc
      Hstop Hrows Hfuel.
  - assert (Hguard : (currentY + skillHeight <? imageHeight) = false)
      by (apply Z.ltb_ge; lia).
    simpl. rewrite app_nil_r. destruct fuel; simpl; by rewrite Hguard.
  - destruct fuel as [|fuel]; [lia|].
    assert (Hguard : (currentY + skillHeight <? imageHeight) = true).
    { apply Z.ltb_lt. specialize (Hrows 0%nat). lia. }
    simpl. rewrite Hguard. rewrite (IH fuel).
    + by rewrite <- app_assoc.
    + lia.
    + intros m Hm. specialize (Hrows (S m)). lia.
    + lia.
Qed.

Lemma rowCount_spec imageHeight :
  imageHeight ≤ startY + skillHeight
                + skillYInterval * Z.of_nat (rowCount imageHeight)
  ∧ (∀ m, (m < rowCount imageHeight)%nat →
          startY + skillHeight + skillYInterval * Z.of_nat m < imageHeight)
  ∧ (rowCount imageHeight ≤ Z.to_nat imageHeight)%nat.
Proof.
  unfold rowCount, startY, skillHeight, skillYInterval.
  set (q := (imageHeight - (864 + 68) + (112 - 1)) / 112).
  assert (Hq : 112 * q ≤ imageHeight - 932 + 111 < 112 * q + 112).
  { unfold q. pose proof (Z.mul_div_le (imageHeight - (864 + 68) + (112 - 1))
                            112 ltac:(lia)).
    pose proof (Z.mul_succ_div_gt (imageHeight - (864 + 68) + (112 - 1))
                  112 ltac:(lia)). lia. }
  destruct (Z.le_gt_cases q 0) as [Hneg|Hpos].
  - replace (Z.to_nat q) with 0%nat by lia. repeat split; [lia| |lia].
    intros m Hm. lia.
  - rewrite Z2Nat.id by lia. repeat split; [lia| |lia].
    intros m Hm. lia.
Qed.

(** The loop of [generateSkillRegions] ends by its guard, and yields the
    rows counted by [rowCount], whatever the scale and the offset. *)
Lemma generateSkillRegions_rows imageHeight scale offset :
  generateSkillRegions imageHeight scale offset
  = Some (skillRowsFrom 1 startY (rowCount imageHeight) scale offset).
Proof.
  destruct (rowCount_spec imageHeight) as (Hstop & Hrows & Hfuel).
  unfold generateSkillRegions.
  by rewrite (generateSkillRegions_loop_rows (rowCount imageHeight)).
Qed.

Lemma skillRowsFrom_length skillIndex currentY n scale offset :
  length (skillRowsFrom skillIndex currentY n scale offset) = (2 * n)%nat.
Proof.
  revert skillIndex currentY.
  induction n as [|n IH]; intros; simpl; [done|]. rewrite IH. lia.
Qed.

Lemma skillRowsFrom_names skillIndex currentY n scale offset :
  DataRegion.name_ <$> skillRowsFrom skillIndex currentY n scale offset
  = skillKey <$> seq skillIndex (2 * n).
Proof.
  revert skillIndex currentY.
  induction n as [|n IH]; intros; simpl; [done|].
  rewrite IH. replace (n + S (n + 0))%nat with (S (2 * n)) by lia.
  reflexivity.
Qed.

Lemma rowCount_exact_fit (k : nat) :
  rowCount (startY + skillHeight + skillYInterval * Z.of_nat k) = k.
Proof.
  unfold rowCount, startY, skillHeight, skillYInterval.
  replace (864 + 68 + 112 * Z.of_nat k - (864 + 68) + (112 - 1))
    with (112 * Z.of_nat k + 111) by lia.
  assert (H : (112 * Z.of_nat k + 111) / 112 = Z.of_nat k)
    by (symmetry; apply (Z.div_unique _ _ _ 111); lia).
  rewrite H. lia.
Qed.

(** C4 at the heights that fit a whole number of rows. When the image is
    exactly as high as the bottom edge of the row of index [k], so that
    [k + 1] rows fit, the generator emits [2 * k] regions, not
    [2 * (k + 1)]: under the identity calibration the row of index [k] ends
    at the image height, where the bounds test of the caller would still
    accept it. And the guard ignores the calibration: at half scale and a
    height of 1000 the generator stops after one row, although the tenth row
    still projects inside the image. *)
Theorem skill_rows_exact_fit_is_dropped (k : nat) (scale : Q)
    (offset : Offset) :
  (length
     <$> generateSkillRegions
           (startY + skillHeight + skillYInterval * Z.of_nat k) scale offset)
  = Some (2 * k)%nat
  ∧ bottomEdge
      (skillRegionAt (2 * k + 1) leftX (startY + skillYInterval * Z.of_nat k)
         1 noOffset)
    = startY + skillHeight + skillYInterval * Z.of_nat k
  ∧ generateSkillRegions 932 1 noOffset = Some []
  ∧ withinImage 1080 932 (skillRegionAt 1 leftX startY 1 noOffset) = true
  ∧ (length <$> generateSkillRegions 1000 (1 # 2) noOffset) = Some 2%nat
  ∧ withinImage 1080 1000
      (skillRegionAt 19 leftX (startY + 9 * skillYInterval) (1 # 2) noOffset)
    = true.
Proof.
  split; [|split; [|by vm_compute]].
  - rewrite generateSkillRegions_rows, rowCount_exact_fit. simpl.
    by rewrite skillRowsFrom_length.
  - unfold bottomEdge, skillRegionAt, noOffset. simpl.
    rewrite (Math_round_integer _ (startY + skillYInterval * Z.of_nat k)).
    + change (Math_round (inject_Z skillHeight * 1)) with skillHeight. lia.
    + change (x {| x := 0; y := 0 |}) with 0%Q. ring.
Qed.

(** ** Extraction and the image bounds *)

Lemma withinImage_inside imageWidth imageHeight region :
  withinImage imageWidth imageHeight region = true
  ↔ insideImage imageWidth imageHeight region.
Proof.
  unfold withinImage, insideImage.
  rewrite !andb_true_iff, !Z.leb_le. tauto.
Qed.

Section Extraction.

Variables image_width image_height : Z.
Variable recognize : Z -> Z -> Z -> Z -> jsstring.

Lemma extractSkills_other regions : ∀ (data : ExtractedData) key,
  key ∉ DataRegion.name_ <$> regions →
  extractSkills image_width image_height recognize regions data !! key
  = data !! key.
Proof.
  induction regions as [|a l IH]; intros data key Hkey; [done|].
  rewrite fmap_cons, not_elem_of_cons in Hkey. destruct Hkey as [Hne Hkey].
  unfold extractSkills in *. simpl. rewrite IH by done.
  destruct (withinImage _ _ a); [|done]. by rewrite lookup_insert_ne.
Qed.

Lemma extractSkills_region regions : ∀ (data : ExtractedData) r,
  NoDup (DataRegion.name_ <$> regions) → r ∈ regions →
  extractSkills image_width image_height recognize regions data
    !! DataRegion.name_ r
  = if withinImage image_width image_height r
    then Some (ocrRegion recognize r) else data !! DataRegion.name_ r.
Proof.
  induction regions as [|a l IH]; intros data r Hnodup Hr.
  - by apply elem_of_nil in Hr.
  - rewrite fmap_cons in Hnodup. apply NoDup_cons in Hnodup as [Ha Hl].
    apply elem_of_cons in Hr as [->|Hr].
    + change (extractSkills image_width image_height recognize (a :: l) data)
        with (extractSkills image_width image_height recognize l
                (if withinImage image_width image_height a
                 then <[DataRegion.name_ a := ocrRegion recognize a]> data
                 else data)).
      rewrite extractSkills_other by done.
      destruct (withinImage _ _ a); [|done]. by rewrite lookup_insert_eq.
    + change (extractSkills image_width image_height recognize (a :: l) data)
        with (extractSkills image_width image_height recognize l
                (if withinImage image_width image_height a
                 then <[DataRegion.name_ a := ocrRegion recognize a]> data
                 else data)).
      rewrite IH by done.
      destruct (withinImage _ _ r); [done|].
      destruct (withinImage _ _ a); [|done].
      rewrite lookup_insert_ne; [done|].
      intros Heq. apply Ha. rewrite Heq. by apply list_elem_of_fmap_2.
Qed.

Lemma fold_insert_other (f : DataRegion.t → jsstring) regions :
  ∀ (data : ExtractedData) key,
  key ∉ DataRegion.name_ <$> regions →
  fold_left (fun d r => <[DataRegion.name_ r := f r]> d) regions data !! key
  = data !! key.
Proof.
  induction regions as [|a l IH]; intros data key Hkey; [done|].
  rewrite fmap_cons, not_elem_of_cons in Hkey. destruct Hkey as [Hne Hkey].
  simpl. rewrite IH by done. by rewrite lookup_insert_ne.
Qed.

Lemma fold_insert_region (f : DataRegion.t → jsstring) regions :
  ∀ (data : ExtractedData) r,
  NoDup (DataRegion.name_ <$> regions) → r ∈ regions →
  fold_left (fun d r => <[DataRegion.name_ r := f r]> d) regions data
    !! DataRegion.name_ r
  = Some (f r).
Proof.
  induction regions as [|a l IH]; intros data r Hnodup Hr.
  - by apply elem_of_nil in Hr.
  - rewrite fmap_cons in Hnodup. apply NoDup_cons in Hnodup as [Ha Hl].
    apply elem_of_cons in Hr as [->|Hr]; simpl.
    + rewrite fold_insert_other by done. by rewrite lookup_insert_eq.
    + by apply IH.
Qed.

Lemma static_names_nodup : NoDup (DataRegion.name_ <$> DATA_REGIONS).
Proof. apply (bool_decide_unpack _). by vm_compute. Qed.

Lemma static_name_not_skill r j :
  r ∈ DATA_REGIONS → DataRegion.name_ r ≠ skillKey j.
Proof.
  unfold DATA_REGIONS. rewrite !elem_of_cons, elem_of_nil.
  intros H; repeat destruct H as [H|H]; try done; subst r;
    unfold skillKey; cbv beta iota delta [String.append DataRegion.name_];
    discriminate.
Qed.

Lemma skill_key_not_static j :
  skillKey j ∉ DataRegion.name_ <$> DATA_REGIONS.
Proof.
  intros H. apply list_elem_of_fmap in H as (r & Hj & Hr).
  by apply (static_name_not_skill r j).
Qed.

Lemma skill_rows_nodup skillIndex currentY n scale offset :
  NoDup (DataRegion.name_
           <$> skillRowsFrom skillIndex currentY n scale offset).
Proof.
  rewrite skillRowsFrom_names.
  apply NoDup_fmap_2_strong; [|apply NoDup_seq].
  intros i j _ _. apply skillKey_inj.
Qed.

Lemma extractData_skill (scales : Scales) (offset : Offset) r :
  r ∈ skillRowsFrom 1 startY (rowCount image_height) (scaleY scales) offset →
  extractSkills image_width image_height recognize
    (skillRowsFrom 1 startY (rowCount image_height) (scaleY scales) offset)
    (extractStatic recognize scales offset ∅) !! DataRegion.name_ r
  = if withinImage image_width image_height r
    then Some (ocrRegion recognize r) else None.
Proof.
  intros Hr.
  rewrite extractSkills_region by (done || apply skill_rows_nodup).
  destruct (withinImage image_width image_height r); [done|].
  unfold extractStatic.
  apply list_elem_of_fmap_2 with (f := DataRegion.name_) in Hr.
  rewrite skillRowsFrom_names in Hr.
  apply list_elem_of_fmap in Hr as (j & -> & _).
  rewrite fold_insert_other by apply skill_key_not_static.
  apply lookup_empty.
Qed.

Lemma extractData_static (scales : Scales) (offset : Offset) regions r :
  r ∈ DATA_REGIONS →
  regions = skillRowsFrom 1 startY (rowCount image_height) (scaleY scales)
              offset →
  extractSkills image_width image_height recognize regions
    (extractStatic recognize scales offset ∅) !! DataRegion.name_ r
  = Some (ocrRegion recognize (adjustRegion r scales offset)).
Proof.
  intros Hr ->. rewrite extractSkills_other.
  - unfold extractStatic.
    by rewrite (fold_insert_region
                  (fun r => ocrRegion recognize
                              (adjustRegion r scales offset)))
      by (done || apply static_names_nodup).
  - rewrite skillRowsFrom_names. intros H.
    apply list_elem_of_fmap in H as (j & Hj & _).
    by apply (static_name_not_skill r j).
Qed.

(** C3, as the code has it. Extraction never fails. Each generated skill
    region is tested against the image: one whose pixels all lie in
    [0,width) x [0,height) is stored under its name with its recognized text,
    and one that does not is left out of the extracted data. The regions of
    the static catalog are not tested: each of them is stored, with the text
    recognized at its projected place, wherever that place lies. *)
Theorem skill_regions_outside_are_omitted (scales : Scales)
    (offset : Offset) :
  ∃ data skillRegions,
    extractData image_width image_height recognize scales offset = Some data
    ∧ generateSkillRegions image_height (scaleY scales) offset
      = Some skillRegions
    ∧ (∀ r, r ∈ skillRegions →
         (insideImage image_width image_height r →
          data !! DataRegion.name_ r = Some (ocrRegion recognize r))
         ∧ (¬ insideImage image_width image_height r →
            data !! DataRegion.name_ r = None))
    ∧ (∀ r, r ∈ DATA_REGIONS →
         data !! DataRegion.name_ r
         = Some (ocrRegion recognize (adjustRegion r scales offset))).
Proof.
  unfold extractData. rewrite generateSkillRegions_rows. simpl.
  eexists _, _. split; [done|]. split; [done|]. split.
  - intros r Hr. rewrite extractData_skill by done.
    rewrite <- withinImage_inside.
    by destruct (withinImage image_width image_height r).
  - intros r Hr. by apply extractData_static.
Qed.

End Extraction.

(** C3 as stated fails on the static catalog: in an image of 100 by 100
    pixels under the identity calibration the region of the wisdom stat
    projects to x = 923, outside the image, and its text is extracted and
    stored all the same. *)
Lemma static_region_outside_is_kept :
  witRegion ∈ DATA_REGIONS
  ∧ ¬ insideImage 100 100 (adjustRegion witRegion identityScales noOffset)
  ∧ (extractData 100 100 (fun _ _ _ _ => lit "1200") identityScales noOffset
     ≫= fun data => data !! "wit") = Some (lit "1200").
Proof.
  split; [|split].
  - unfold DATA_REGIONS, witRegion. rewrite !elem_of_cons. tauto.
  - rewrite <- withinImage_inside. by vm_compute.
  - by vm_compute.
Qed.

(** ** The scale search *)

Lemma Qltb_lt a b : Qltb a b = true ↔ (a < b)%Q.
Proof.
  unfold Qltb. rewrite negb_true_iff, <- not_true_iff_false, Qle_bool_iff.
  split; [apply Qnot_le_lt|apply Qlt_not_le].
Qed.

Lemma Qltb_ge a b : Qltb a b = false ↔ (b <= a)%Q.
Proof.
  unfold Qltb. by rewrite negb_false_iff, Qle_bool_iff.
Qed.

Lemma chooseRange_low l m h :
  chooseRange l m h = LowRange ↔ (m <= l)%Q ∧ (h <= l)%Q.
Proof.
  unfold chooseRange.
  destruct (Qle_bool m l) eqn:E1, (Qle_bool h l) eqn:E2; simpl;
    rewrite <- ?Qle_bool_iff, ?E1, ?E2;
    repeat case_match; split; intros; try done; intuition congruence.
Qed.

Lemma chooseRange_high l m h :
  chooseRange l m h = HighRange
  ↔ ¬ ((m <= l)%Q ∧ (h <= l)%Q) ∧ (m <= h)%Q ∧ (l <= h)%Q.
Proof.
  unfold chooseRange. rewrite <- !Qle_bool_iff.
  destruct (Qle_bool m l), (Qle_bool h l), (Qle_bool m h), (Qle_bool l h);
    simpl; split; intros; try done; intuition congruence.
Qed.

Lemma chooseRange_mid l m h :
  chooseRange l m h = MidRange ↔ (l < m)%Q ∧ (h < m)%Q.
Proof.
  unfold chooseRange.
  destruct (Qle_bool m l) eqn:E1, (Qle_bool h l) eqn:E2,
           (Qle_bool m h) eqn:E3, (Qle_bool l h) eqn:E4; simpl;
    try apply Qle_bool_iff in E1; try apply Qle_bool_iff in E2;
    try apply Qle_bool_iff in E3; try apply Qle_bool_iff in E4;
    try (apply not_true_iff_false in E1; rewrite Qle_bool_iff in E1);
    try (apply not_true_iff_false in E2; rewrite Qle_bool_iff in E2);
    try (apply not_true_iff_false in E3; rewrite Qle_bool_iff in E3);
    try (apply not_true_iff_false in E4; rewrite Qle_bool_iff in E4);
    split; try done; try (intros [? ?]; lra); intros _; lra.
Qed.

Section SearchProperties.

Variables image_width image_height : Z.
Variables template_width template_height : Z.
Variable matchTemplate : Z -> Z -> Q * (Z * Z).

Local Abbreviation testScale' :=
  (testScale image_width image_height template_width template_height
     matchTemplate).
Local Abbreviation binarySearchStep' :=
  (binarySearchStep image_width image_height template_width template_height
     matchTemplate).
Local Abbreviation binarySearchScale' :=
  (binarySearchScale image_width image_height template_width template_height
     matchTemplate).
Local Abbreviation evaluated' :=
  (evaluated image_width image_height template_width template_height).
Local Abbreviation responseAt' :=
  (responseAt template_width template_height matchTemplate).
Local Abbreviation matchAt' :=
  (matchAt template_width template_height matchTemplate).
Local Abbreviation probeConfidence' :=
  (probeConfidence image_width image_height template_width template_height
     matchTemplate).
Local Abbreviation bestOver' :=
  (bestOver image_width image_height template_width template_height
     matchTemplate).
Local Abbreviation afterSteps' :=
  (afterSteps image_width image_height template_width template_height
     matchTemplate).
Local Abbreviation searchProbes' :=
  (searchProbes image_width image_height template_width template_height
     matchTemplate).
Local Abbreviation narrowed' :=
  (narrowed image_width image_height template_width template_height
     matchTemplate).

(** [testScale] hands back the confidence of the probe, leaves the interval
    and the step counter alone, and keeps the best match up to date. *)
Lemma testScale_spec scale st :
  fst (testScale' scale st) = probeConfidence' scale
  ∧ minScale (snd (testScale' scale st)) = minScale st
  ∧ maxScale (snd (testScale' scale st)) = maxScale st
  ∧ stepCount (snd (testScale' scale st)) = stepCount st
  ∧ ∀ probes, bestOver' probes (bestConfidence st) (bestMatch st) →
      bestOver' (probes ++ [scale])
        (bestConfidence (snd (testScale' scale st)))
        (bestMatch (snd (testScale' scale st))).
Proof.
  unfold testScale, probeConfidence, evaluated.
  destruct ((image_width <? _) || (image_height <? _)) eqn:Hskip; simpl.
  - repeat split; try done.
    + intros s Hs Hev. apply elem_of_app in Hs as [Hs|Hs].
      * by apply H.
      * apply list_elem_of_singleton in Hs as ->.
        unfold evaluated in Hev. by rewrite Hskip in Hev.
    + destruct H as [_ H]. destruct (bestMatch st); [|done].
      destruct H as (s & Hs & ?). exists s. split; [|done].
      apply elem_of_app. by left.
  - fold (responseAt' scale).
    destruct (responseAt' scale) as [confidence location] eqn:Hresp. simpl.
    destruct (Qltb (bestConfidence st) confidence) eqn:Hlt; simpl;
      (repeat split; try done).
    + apply Qltb_lt in Hlt.
      intros s Hs Hev. apply elem_of_app in Hs as [Hs|Hs].
      * destruct H as [H _]. specialize (H s Hs Hev). lra.
      * apply list_elem_of_singleton in Hs as ->. rewrite Hresp; simpl. lra.
    + exists scale. split; [apply elem_of_app; right; by constructor|].
      split.
      * unfold evaluated. by rewrite Hskip.
      * unfold matchAt', matchAt. fold (responseAt' scale).
        by rewrite Hresp.
    + apply Qltb_ge in Hlt.
      intros s Hs Hev. apply elem_of_app in Hs as [Hs|Hs].
      * by apply H.
      * apply list_elem_of_singleton in Hs as ->. by rewrite Hresp.
    + destruct H as [_ H]. destruct (bestMatch st); [|done].
      destruct H as (s & Hs & ?). exists s. split; [|done].
      apply elem_of_app. by left.
Qed.

Lemma binarySearchStep_spec st :
  stepCount (binarySearchStep' st) = S (stepCount st)
  ∧ (minScale (binarySearchStep' st), maxScale (binarySearchStep' st))
    = narrowed' st
  ∧ ∀ probes, bestOver' probes (bestConfidence st) (bestMatch st) →
      bestOver' (probes ++ probesOf st)
        (bestConfidence (binarySearchStep' st))
        (bestMatch (binarySearchStep' st)).
Proof.
  unfold binarySearchStep, narrowed.
  set (st0 := {| bestMatch := bestMatch st;
                 bestConfidence := bestConfidence st;
                 minScale := minScale st; maxScale := maxScale st;
                 stepCount := S (stepCount st) |}).
  change (lowScaleOf st0) with (lowScaleOf st).
  change (midScaleOf st0) with (midScaleOf st).
  change (highScaleOf st0) with (highScaleOf st).
  pose proof (testScale_spec (lowScaleOf st) st0) as (Hc1 & Hmin1 & Hmax1
                                                      & Hn1 & Hbest1).
  destruct (testScale' (lowScaleOf st) st0) as [lowConfidence st1].
  pose proof (testScale_spec (midScaleOf st) st1) as (Hc2 & Hmin2 & Hmax2
                                                      & Hn2 & Hbest2).
  destruct (testScale' (midScaleOf st) st1) as [midConfidence st2].
  pose proof (testScale_spec (highScaleOf st) st2) as (Hc3 & Hmin3 & Hmax3
                                                       & Hn3 & Hbest3).
  destruct (testScale' (highScaleOf st) st2) as [highConfidence st3].
  simpl in *. subst lowConfidence midConfidence highConfidence.
  assert (Hbest : ∀ probes,
            bestOver' probes (bestConfidence st) (bestMatch st) →
            bestOver' (probes ++ probesOf st)
              (bestConfidence st3) (bestMatch st3)).
  { intros probes Hp. unfold probesOf.
    replace (probes ++ [lowScaleOf st; midScaleOf st; highScaleOf st])
      with (((probes ++ [lowScaleOf st]) ++ [midScaleOf st])
              ++ [highScaleOf st])
      by (by rewrite <- !app_assoc).
    apply Hbest3, Hbest2, Hbest1. exact Hp. }
  destruct (chooseRange _ _ _); simpl;
    (split; [congruence|split; [congruence|exact Hbest]]).
Qed.

Lemma binarySearchScale_runs n : ∀ fuel st,
  (stepCount st + n = maxSteps)%nat → (n ≤ fuel)%nat →
  binarySearchScale' fuel st = Some (bestMatch (afterSteps' n st)).
Proof.
  induction n as [|n IH]; intros fuel st Hsteps Hfuel.
  - assert (Hguard : (maxSteps <=? stepCount st)%nat = true)
      by (apply Nat.leb_le; lia).
    destruct fuel; cbn -[Nat.leb maxSteps]; by rewrite Hguard.
  - destruct fuel as [|fuel]; [lia|].
    assert (Hguard : (maxSteps <=? stepCount st)%nat = false)
      by (apply Nat.leb_gt; lia).
    cbn -[Nat.leb maxSteps]. rewrite Hguard. apply IH; [|lia].
    destruct (binarySearchStep_spec st) as (-> & _). lia.
Qed.

Lemma afterSteps_best n : ∀ st probes,
  bestOver' probes (bestConfidence st) (bestMatch st) →
  bestOver' (probes ++ searchProbes' n st)
    (bestConfidence (afterSteps' n st)) (bestMatch (afterSteps' n st)).
Proof.
  induction n as [|n IH]; intros st probes Hp.
  - simpl. by rewrite app_nil_r.
  - change (afterSteps' (S n) st)
      with (afterSteps' n (binarySearchStep' st)).
    change (searchProbes' (S n) st)
      with (probesOf st ++ searchProbes' n (binarySearchStep' st)).
    rewrite app_assoc. apply IH.
    by apply (binarySearchStep_spec st).
Qed.

Lemma searchProbes_length n st : length (searchProbes' n st) = (3 * n)%nat.
Proof.
  revert st. induction n as [|n IH]; intros st; [done|].
  change (searchProbes' (S n) st)
    with (probesOf st ++ searchProbes' n (binarySearchStep' st)).
  rewrite length_app, IH. simpl. lia.
Qed.

(** The search ends after [maxSteps] iterations, with the best of the
    probes it evaluated. *)
Lemma findBestTemplateMatch_best :
  findBestTemplateMatch image_width image_height template_width
    template_height matchTemplate
  = Some (bestMatch (afterSteps' maxSteps initialSearchState))
  ∧ bestOver' (searchProbes' maxSteps initialSearchState)
      (bestConfidence (afterSteps' maxSteps initialSearchState))
      (bestMatch (afterSteps' maxSteps initialSearchState)).
Proof.
  split.
  - unfold findBestTemplateMatch. by apply binarySearchScale_runs.
  - apply (afterSteps_best maxSteps initialSearchState []).
    split; [|done]. intros s Hs. by apply elem_of_nil in Hs.
Qed.

(** No threshold stands between a probe and the result: as soon as one
    evaluated probe has a confidence above -1, the search returns a match,
    at least as confident as that probe. *)
Lemma findBestTemplateMatch_keeps_any_probe s :
  s ∈ searchProbes' maxSteps initialSearchState →
  evaluated' s = true → (-1 < fst (responseAt' s))%Q →
  ∃ m, findBestTemplateMatch image_width image_height template_width
         template_height matchTemplate = Some (Some m)
       ∧ (fst (responseAt' s) <= TemplateMatch.confidence m)%Q.
Proof.
  intros Hs Hev Hconf.
  destruct findBestTemplateMatch_best as [Hrun [Hall Hkept]].
  specialize (Hall s Hs Hev). rewrite Hrun.
  destruct (bestMatch (afterSteps' maxSteps initialSearchState)) as [m|].
  - exists m. split; [done|].
    destruct Hkept as (_ & _ & _ & _ & <-). exact Hall.
  - rewrite Hkept in Hall. lra.
Qed.


End SearchProperties.


(** ** The run as a whole *)

Lemma required_keys_static key :
  key ∈ requiredKeys → ∃ r, r ∈ DATA_REGIONS ∧ DataRegion.name_ r = key.
Proof.
  unfold requiredKeys, aptitudeKeys. simpl. rewrite !elem_of_cons, elem_of_nil.
  intros H. repeat destruct H as [->|H]; try done;
  match goal with
  | |- ∃ r, r ∈ DATA_REGIONS ∧ DataRegion.name_ r = ?k =>
      let found :=
        eval vm_compute in
          (List.find (fun r => String.eqb (DataRegion.name_ r) k)
             DATA_REGIONS) in
      match found with
      | Some ?r0 => exists r0; split; [|reflexivity]
      end
  end;
  apply list_elem_of_In; simpl; repeat first [left; reflexivity | right].
Qed.

Section Run.

Variables image_width image_height : Z.
Variables change_width change_height : Z.
Variable change_matchTemplate : Z -> Z -> Q * (Z * Z).
Variables headers_width headers_height : Z.
Variable headers_matchTemplate : Z -> Z -> Q * (Z * Z).
Variable recognize : Z -> Z -> Z -> Z -> jsstring.

(** A run ends in one of two ways. When either search kept no match it
    reports that the templates were not found, whatever the recognizer
    would say; when both kept one, it calibrates, extracts and hands the
    parsed record over. *)
Lemma handleFileSelect_outcome :
  ∃ changeMatch headersMatch,
    findBestTemplateMatch image_width image_height change_width
      change_height change_matchTemplate = Some changeMatch
    ∧ findBestTemplateMatch image_width image_height headers_width
        headers_height headers_matchTemplate = Some headersMatch
    ∧ match changeMatch, headersMatch with
      | Some c, Some h =>
          ∃ data d,
            extractData image_width image_height recognize
              (calculateScales c h)
              (calculateOffset c h (calculateScales c h)) = Some data
            ∧ parseExtractedData data = Some (Returned d)
            ∧ handleFileSelect image_width image_height change_width
                change_height change_matchTemplate headers_width
                headers_height headers_matchTemplate recognize
              = Some (onDataParsed d)
      | _, _ =>
          handleFileSelect image_width image_height change_width
            change_height change_matchTemplate headers_width
            headers_height headers_matchTemplate recognize
          = Some (onError no_template_matches)
      end.
Proof.
  destruct (findBestTemplateMatch_best image_width image_height change_width
              change_height change_matchTemplate) as [Hc _].
  destruct (findBestTemplateMatch_best image_width image_height headers_width
              headers_height headers_matchTemplate) as [Hh _].
  revert Hc Hh.
  generalize (bestMatch (afterSteps image_width image_height change_width
                change_height change_matchTemplate maxSteps
                initialSearchState)).
  generalize (bestMatch (afterSteps image_width image_height headers_width
                headers_height headers_matchTemplate maxSteps
                initialSearchState)).
  intros headersMatch changeMatch Hc Hh.
  exists changeMatch, headersMatch. split; [exact Hc|]. split; [exact Hh|].
  unfold handleFileSelect. rewrite Hc, Hh. simpl.
  destruct changeMatch as [c|]; [|done].
  destruct headersMatch as [h|]; [|done].
  unfold extractData. rewrite generateSkillRegions_rows.
  remember (calculateScales c h) as scales eqn:Hscales.
  remember (calculateOffset c h scales) as offset eqn:Hoffset.
  cbv beta iota delta [mbind option_bind].
  remember (extractSkills image_width image_height recognize
              (skillRowsFrom 1 startY (rowCount image_height)
                 (scaleY scales) offset)
              (extractStatic recognize scales offset ∅)) as data eqn:Hdata.
  assert (Hreq : Forall (fun key => is_Some (data !! key)) requiredKeys).
  { apply Forall_forall. intros key Hkey.
    destruct (required_keys_static key Hkey) as (r & Hr & <-).
    rewrite Hdata.
    rewrite (extractData_static image_width image_height recognize
               scales offset _ r Hr eq_refl).
    by eexists. }
  destruct (parseExtractedData_returns data Hreq) as [d Hd].
  exists data, d. split; [done|]. split; [exact Hd|].
  by rewrite Hd.
Qed.

End Run.

(** C1 at an image that nowhere looks like the template. The response is
    0.5 at every scale, below the threshold of 0.7, and the search returns
    a match all the same, with confidence 0.5: the first probe of the first
    iteration. The single-scale variant with the fixed threshold returns no
    match for the same response. The run does not end with the template
    error: it calibrates on the two matches and hands a record over. *)
Theorem multi_scale_search_ignores_threshold :
  findBestTemplateMatch 1000 1000 100 50 (flatResponse (1 # 2))
  = Some (Some (TemplateMatch.mk 3 4 (290 # 400) (290 # 400) (1 # 2)))
  ∧ (1 # 2 <= 7 # 10)%Q
  ∧ findTemplateMatch 100 50 (flatResponse (1 # 2)) = None
  ∧ ∃ d, handleFileSelect 1000 1000 100 50 (flatResponse (1 # 2))
           100 50 (flatResponse (1 # 2)) (fun _ _ _ _ => lit "A 123")
         = Some (onDataParsed d).
Proof.
  split; [by vm_compute|]. split; [by vm_compute|]. split; [by vm_compute|].
  eexists. vm_compute. reflexivity.
Qed.

(** ** Calibration *)

(** C2, as the code has it. The scale of the calibration is, per axis, the
    mean of the scales of the two matches, and its offset the mean of the
    offsets that the matches imply, each computed as the location of a match
    minus its reference anchor times the scale of that same match. An anchor
    is then put at its detected location plus half of what the two matches
    disagree on; it lands exactly on the detected location when the two
    matches agree on scale and offset. *)
Theorem calibration_is_mean_of_matches (c h : TemplateMatch.t) :
  (scaleX (calculateScales c h)
   == (TemplateMatch.scaleX c + TemplateMatch.scaleX h) / 2)%Q
  ∧ (scaleY (calculateScales c h)
     == (TemplateMatch.scaleY c + TemplateMatch.scaleY h) / 2)%Q
  ∧ (x (calculateOffset c h (calculateScales c h))
     == (impliedOffsetX TEMPLATE_POSITIONS_change c
         + impliedOffsetX TEMPLATE_POSITIONS_headers h) / 2)%Q
  ∧ (y (calculateOffset c h (calculateScales c h))
     == (impliedOffsetY TEMPLATE_POSITIONS_change c
         + impliedOffsetY TEMPLATE_POSITIONS_headers h) / 2)%Q
  ∧ (inject_Z (fst TEMPLATE_POSITIONS_change)
       * scaleX (calculateScales c h)
     + x (calculateOffset c h (calculateScales c h))
     == inject_Z (TemplateMatch.x c)
        + (inject_Z (fst TEMPLATE_POSITIONS_change)
             * (TemplateMatch.scaleX h - TemplateMatch.scaleX c)
           + (impliedOffsetX TEMPLATE_POSITIONS_headers h
              - impliedOffsetX TEMPLATE_POSITIONS_change c)) / 2)%Q
  ∧ (inject_Z (fst TEMPLATE_POSITIONS_headers)
       * scaleX (calculateScales c h)
     + x (calculateOffset c h (calculateScales c h))
     == inject_Z (TemplateMatch.x h)
        + (inject_Z (fst TEMPLATE_POSITIONS_headers)
             * (TemplateMatch.scaleX c - TemplateMatch.scaleX h)
           + (impliedOffsetX TEMPLATE_POSITIONS_change c
              - impliedOffsetX TEMPLATE_POSITIONS_headers h)) / 2)%Q
  ∧ (inject_Z (snd TEMPLATE_POSITIONS_change)
       * scaleY (calculateScales c h)
     + y (calculateOffset c h (calculateScales c h))
     == inject_Z (TemplateMatch.y c)
        + (inject_Z (snd TEMPLATE_POSITIONS_change)
             * (TemplateMatch.scaleY h - TemplateMatch.scaleY c)
           + (impliedOffsetY TEMPLATE_POSITIONS_headers h
              - impliedOffsetY TEMPLATE_POSITIONS_change c)) / 2)%Q
  ∧ (inject_Z (snd TEMPLATE_POSITIONS_headers)
       * scaleY (calculateScales c h)
     + y (calculateOffset c h (calculateScales c h))
     == inject_Z (TemplateMatch.y h)
        + (inject_Z (snd TEMPLATE_POSITIONS_headers)
             * (TemplateMatch.scaleY c - TemplateMatch.scaleY h)
           + (impliedOffsetY TEMPLATE_POSITIONS_change c
              - impliedOffsetY TEMPLATE_POSITIONS_headers h)) / 2)%Q
  ∧ (matchesAgree c h →
     calibratedAnchor c h TEMPLATE_POSITIONS_change
     = (TemplateMatch.x c, TemplateMatch.y c)
     ∧ calibratedAnchor c h TEMPLATE_POSITIONS_headers
       = (TemplateMatch.x h, TemplateMatch.y h)).
Proof.
  unfold calculateScales, calculateOffset, impliedOffsetX, impliedOffsetY.
  simpl. repeat (split; [solve [reflexivity | field]|]).
  intros (Hsx & Hsy & Hox & Hoy).
  unfold impliedOffsetX, impliedOffsetY in Hox, Hoy. simpl in Hox, Hoy.
  unfold calibratedAnchor, adjustRegion, anchorRegion, calculateOffset,
    calculateScales. simpl.
  change (inject_Z 852) with 852%Q in *. change (inject_Z 292) with 292%Q in *.
  change (inject_Z 38) with 38%Q in *. change (inject_Z 404) with 404%Q in *.
  split; f_equal; apply Math_round_integer;
    revert Hox Hoy;
    generalize (inject_Z (TemplateMatch.x c)) (inject_Z (TemplateMatch.y c))
               (inject_Z (TemplateMatch.x h)) (inject_Z (TemplateMatch.y h));
    intros; unfold Qdiv; change (/ 2)%Q with (1 # 2)%Q; lra.
Qed.

(** C2 as stated fails when the matches disagree: with both templates found
    at scale 1, the change template ten pixels to the right of where the
    headers template implies it, the calibration puts the change anchor at
    x = 857 and the headers anchor at x = 43, five pixels away from the
    detected 862 and 38. *)
Lemma disagreeing_matches_miss_the_anchors :
  (scaleX (calculateScales shiftedChangeMatch plainHeadersMatch) == 1)%Q
  ∧ calibratedAnchor shiftedChangeMatch plainHeadersMatch
      TEMPLATE_POSITIONS_change = (857, 292)
  ∧ (TemplateMatch.x shiftedChangeMatch, TemplateMatch.y shiftedChangeMatch)
    = (862, 292)
  ∧ calibratedAnchor shiftedChangeMatch plainHeadersMatch
      TEMPLATE_POSITIONS_headers = (43, 404)
  ∧ (TemplateMatch.x plainHeadersMatch, TemplateMatch.y plainHeadersMatch)
    = (38, 404).
Proof. by vm_compute. Qed.

(** Matches that agree put both anchors on their detected locations. *)
Lemma agreeing_matches_hit_the_anchors :
  matchesAgree doubledChangeMatch doubledHeadersMatch
  ∧ calibratedAnchor doubledChangeMatch doubledHeadersMatch
      TEMPLATE_POSITIONS_change = (1711, 593)
  ∧ calibratedAnchor doubledChangeMatch doubledHeadersMatch
      TEMPLATE_POSITIONS_headers = (83, 817).
Proof. by vm_compute. Qed.

(** ** Tier adjustment *)

Lemma includes_singleton (s : jsstring) (g : char) :
  includes s [g] = true ↔ g ∈ s.
Proof.
  induction s as [|a s IH]; simpl.
  - split; [done|]. intros H. by apply elem_of_nil in H.
  - rewrite orb_true_iff, andb_true_r, N.eqb_eq, IH, elem_of_cons. tauto.
Qed.

Lemma match_tier_Some text m :
  match_tier text = Some m → tierSymbol m.
Proof.
  induction text as [|c rest IH]; [done|]. simpl.
  destruct (isTierGlyph c) eqn:Hc; [|done].
  intros [= <-]. by exists c.
Qed.

Lemma match_tier_found text c :
  c ∈ text → isTierGlyph c = true → is_Some (match_tier text).
Proof.
  induction text as [|d rest IH]; intros Hin Hc.
  - by apply elem_of_nil in Hin.
  - simpl. destruct (isTierGlyph d) eqn:Hd; [by eexists|].
    apply elem_of_cons in Hin as [->|Hin]; [congruence|]. by apply IH.
Qed.

Lemma extractTierSymbol_symbol text s :
  extractTierSymbol text = Some s → tierSymbol s.
Proof.
  unfold extractTierSymbol.
  destruct (match_tier text) as [m|] eqn:Hm.
  - intros [= <-]. by apply match_tier_Some in Hm.
  - repeat case_match; intros [= <-]; eexists; by split.
Qed.

Lemma hasTierVariants_extracts skillName :
  hasTierVariants skillName = true →
  ∃ s, extractTierSymbol skillName = Some s ∧ tierSymbol s.
Proof.
  unfold hasTierVariants. rewrite !orb_true_iff, !includes_singleton.
  intros H.
  assert (Hfound : is_Some (match_tier skillName)).
  { destruct H as [[H|H]|H];
      eapply match_tier_found; try exact H; reflexivity. }
  destruct Hfound as [m Hm]. exists m. unfold extractTierSymbol.
  rewrite Hm. split; [done|]. by apply match_tier_Some in Hm.
Qed.

Lemma tierSymbol_cases s :
  tierSymbol s ↔ s ∈ circles ++ [[glyph_times]] ++ lookAlikes.
Proof.
  unfold tierSymbol, isTierGlyph, circles, lookAlikes. simpl.
  rewrite !elem_of_cons, elem_of_nil. split.
  - intros (c & -> & Hc). rewrite !orb_true_iff, !N.eqb_eq in Hc.
    intuition (subst; auto).
  - intros H. repeat destruct H as [->|H]; try done; by eexists.
Qed.

Lemma isTierCompatible_listed s p :
  tierSymbol s → tierSymbol p →
  (isTierCompatible s p = true ↔ listedCompatible s p).
Proof.
  rewrite !tierSymbol_cases. unfold circles, lookAlikes. simpl.
  rewrite !elem_of_cons, !elem_of_nil.
  intros Hs Hp.
  repeat destruct Hs as [->|Hs]; try done;
    repeat destruct Hp as [->|Hp]; try done;
    (split;
     [ intros Hc; vm_compute in Hc; try discriminate Hc;
       unfold listedCompatible, circles, lookAlikes; simpl;
       rewrite ?elem_of_cons, ?elem_of_nil;
       first [ solve [left; split; [|split]; [auto 10|auto 10|discriminate]]
             | solve [right; left; split; auto 10]
             | solve [right; right; by split] ]
     | intros Hl;
       first [ reflexivity
             | exfalso; unfold listedCompatible, circles, lookAlikes in Hl;
               simpl in Hl; rewrite ?elem_of_cons, ?elem_of_nil in Hl;
               intuition (try discriminate; try congruence) ] ]).
Qed.

Lemma Math_min_Qmin a b : (Math_min a b == Qmin a b)%Q.
Proof.
  unfold Math_min. destruct (Qle_bool a b) eqn:Hab.
  - apply Qle_bool_iff in Hab. symmetry. by apply Q.min_l.
  - symmetry. apply Q.min_r. apply Qlt_le_weak, Qltb_lt.
    unfold Qltb. by rewrite Hab.
Qed.

Lemma Math_max_Qmax a b : (Math_max a b == Qmax a b)%Q.
Proof.
  unfold Math_max. destruct (Qle_bool a b) eqn:Hab.
  - apply Qle_bool_iff in Hab. symmetry. by apply Q.max_r.
  - symmetry. apply Q.max_l. apply Qlt_le_weak, Qltb_lt.
    unfold Qltb. by rewrite Hab.
Qed.

Lemma tierSymbol_truthy s : tierSymbol s → truthy s = true.
Proof. by intros (c & -> & _). Qed.

Lemma claimed_on_tier_glyphs s p base :
  s ∈ circles ++ [[glyph_times]] → tierSymbol p →
  (if bool_decide (s = p) then (base + (5 # 10))%Q
   else if isTierCompatible s p then Math_min 1 (base + (3 # 10))
        else Math_max 0 (base - (2 # 10)))
  = claimedTierAdjustment s p base.
Proof.
  rewrite tierSymbol_cases. unfold circles, lookAlikes. simpl.
  rewrite !elem_of_cons, !elem_of_nil. intros Hs Hp.
  repeat destruct Hs as [->|Hs]; try done;
    repeat destruct Hp as [->|Hp]; try done; reflexivity.
Qed.



(** The tiers of one name: the other circle raises a similarity of 0.6 to
    0.9 and one of 0.8 to the cap of 1; the cross against the double circle
    lowers 0.6 to 0.4 and floors 0.1 at 0; the same glyph adds 0.5, past 1. *)
Lemma tier_adjustment_examples :
  (applyTierMatchingBonus rightHandedDouble rightHandedSingle (6 # 10)
   == 9 # 10)%Q
  ∧ (applyTierMatchingBonus rightHandedDouble rightHandedSingle (8 # 10)
     == 1)%Q
  ∧ (applyTierMatchingBonus rightHandedDouble rightHandedCross (6 # 10)
     == 4 # 10)%Q
  ∧ (applyTierMatchingBonus rightHandedDouble rightHandedCross (1 # 10)
     == 0)%Q
  ∧ (applyTierMatchingBonus rightHandedDouble rightHandedDouble 1
     == 15 # 10)%Q
  ∧ applyTierMatchingBonus (lit "Shooting Star") rightHandedDouble (1 # 2)
    = (1 # 2)%Q.
Proof. by vm_compute. Qed.

(** ** Skill resolver *)

Lemma keepBest_fold candidates : ∀ best,
  (snd best <= snd (fold_left keepBest candidates best))%Q
  ∧ (∀ c, c ∈ candidates →
          (snd c <= snd (fold_left keepBest candidates best))%Q)
  ∧ (fold_left keepBest candidates best = best
     ∨ ∃ c, c ∈ candidates
            ∧ fold_left keepBest candidates best = (Some (fst c), snd c)).
Proof.
  induction candidates as [|c l IH]; intros best; simpl.
  - split; [lra|]. split; [|by left].
    intros c Hc. by apply elem_of_nil in Hc.
  - destruct (IH (keepBest best c)) as (Hbest & Hall & Hwhich).
    assert (Hstep : (snd best <= snd (keepBest best c))%Q
                    ∧ (snd c <= snd (keepBest best c))%Q).
    { unfold keepBest. destruct (Qltb (snd best) (snd c)) eqn:Hlt; simpl.
      - apply Qltb_lt in Hlt. lra.
      - apply Qltb_ge in Hlt. lra. }
    destruct Hstep as [Hs1 Hs2].
    split; [lra|]. split.
    + intros c' Hc'. apply elem_of_cons in Hc' as [->|Hc'];
        [lra|by apply Hall].
    + destruct Hwhich as [Hsame|(c' & Hc' & Heq)].
      * rewrite Hsame. unfold keepBest.
        destruct (Qltb (snd best) (snd c)); [|by left].
        right. exists c. split; [by left|done].
      * right. exists c'. split; [by right|done].
Qed.

Section ResolverProperties.

Variable toLowerCase : jsstring -> jsstring.
Variable skillnames : list (string * list jsstring).

Local Abbreviation findMatchingSkill' :=
  (findMatchingSkill toLowerCase skillnames).
Local Abbreviation findMatchingSkills' :=
  (findMatchingSkills toLowerCase skillnames).
Local Abbreviation candidateScores' :=
  (candidateScores toLowerCase skillnames).
Local Abbreviation bestCandidate' :=
  (bestCandidate toLowerCase skillnames).
Local Abbreviation resolveLine' := (resolveLine toLowerCase skillnames).

Lemma considerName_fold skillId line names : ∀ best,
  fold_left (considerName toLowerCase skillId line) names best
  = fold_left keepBest (entryScores toLowerCase line skillId names) best.
Proof.
  induction names as [|name l IH]; intros best; [done|].
  simpl. rewrite IH. unfold entryScores. simpl.
  unfold considerName at 1.
  destruct (fuzzyMatch toLowerCase name line); [|done]. done.
Qed.

Lemma considerEntry_fold line isUniqueSkill entries : ∀ best,
  fold_left (considerEntry toLowerCase line isUniqueSkill) entries best
  = fold_left keepBest
      (entries ≫= fun entry =>
         if inPool isUniqueSkill (fst entry)
         then entryScores toLowerCase line (fst entry) (snd entry) else [])
      best.
Proof.
  induction entries as [|[skillId names] l IH]; intros best; [done|].
  rewrite bind_cons, fold_left_app. simpl. rewrite IH.
  destruct (inPool isUniqueSkill skillId); [|done].
  by rewrite considerName_fold.
Qed.

Lemma candidateScores_pool line isUniqueSkill skillId similarity :
  (skillId, similarity) ∈ candidateScores' line isUniqueSkill →
  inPool isUniqueSkill skillId = true.
Proof.
  unfold candidateScores. intros H.
  apply list_elem_of_bind in H as ([id names] & Hc & _). simpl in Hc.
  destruct (inPool isUniqueSkill id) eqn:Hpool.
  - unfold entryScores in Hc.
    apply list_elem_of_omap in Hc as (name & _ & Hname).
    destruct (fuzzyMatch toLowerCase name line); [|done].
    by injection Hname as -> _.
  - by apply elem_of_nil in Hc.
Qed.

(** A line is matched to the first of its best candidates, when the best
    adjusted similarity is above 0.6. *)
Lemma findMatchingSkill_best line isUniqueSkill skillId :
  findMatchingSkill' line isUniqueSkill = Some skillId →
  ∃ similarity, bestCandidate' line isUniqueSkill skillId similarity
                ∧ (6 # 10 < similarity)%Q.
Proof.
  unfold findMatchingSkill. rewrite considerEntry_fold.
  fold (candidateScores' line isUniqueSkill).
  destruct (keepBest_fold (candidateScores' line isUniqueSkill) (None, 0%Q))
    as (_ & Hall & Hwhich).
  destruct (fold_left keepBest _ _) as [bestMatch bestSimilarity].
  destruct (Qltb (6 # 10) bestSimilarity) eqn:Hlt; [|done].
  apply Qltb_lt in Hlt. intros ->.
  destruct Hwhich as [[=]|([id sim] & Hc & [= -> ->])].
  exists sim. split; [|done]. split; [done|]. exact Hall.
Qed.

Lemma findMatchingSkills_from_resolve lines : ∀ i matched,
  findMatchingSkills_from toLowerCase skillnames i lines matched
  = matched ++ omap id (imap (fun j => resolveLine' (i + j)) lines).
Proof.
  induction lines as [|line l IH]; intros i matched.
  - simpl. by rewrite app_nil_r.
  - rewrite imap_cons.
    assert (Hext : imap ((fun j => resolveLine' (i + j)) ∘ S) l
                   = imap (fun j => resolveLine' (S i + j)) l).
    { apply imap_ext. intros j x _. simpl. f_equal. lia. }
    rewrite Hext. replace (i + 0)%nat with i by lia.
    cbn [findMatchingSkills_from omap list_omap].
    unfold resolveLine at 1.
    destruct (negb (truthy line) || negb (truthy (trim line)));
      [by rewrite IH|].
    destruct (findMatchingSkill' line (i =? 0)%nat) as [skillId|];
      [|by rewrite IH].
    destruct (bool_decide (skillId = "")); [by rewrite IH|].
    cbn [id]. rewrite IH. by rewrite <- app_assoc.
Qed.


End ResolverProperties.

(** The resolver on a small catalog: the first line may only take the
    original unique skill, the second only its inherited variant; a trailing
    letter O is read as the single circle; a line that resembles no name is
    left out. *)
Lemma sample_lines_resolve :
  findMatchingSkills asciiLowerCase sampleCatalog
    [ lit "Shooting Star"; lit "Shooting Star"; lit "Right-Handed O";
      lit "Concentration" ]
  = ["100101"; "900101"; "200013"].
Proof. by vm_compute. Qed.

(** * Further properties *)

(** ** Edit distance *)

Lemma levenshteinRow_length str1 c2 : ∀ previous left,
  length previous = S (length str1) →
  length (levenshteinRow str1 c2 previous left) = length str1.
Proof.
  induction str1 as [|c1 str1 IH]; intros previous left Hlen; [done|].
  destruct previous as [|diagonal [|up previous]]; simpl in Hlen; try lia.
  simpl. rewrite IH; [done|]. simpl. lia.
Qed.

Lemma levenshteinRow_bounded str1 c2 : ∀ previous left i offset,
  1 ≤ i → 0 ≤ offset →
  rowBounded (i - 1) offset previous →
  0 ≤ left ≤ Z.max i offset →
  rowBounded i (offset + 1) (levenshteinRow str1 c2 previous left).
Proof.
  induction str1 as [|c1 str1 IH]; intros previous left i offset Hi Ho Hp Hl.
  - intros k v Hk. by destruct previous.
  - destruct previous as [|diagonal [|up previous]];
      try (intros k v Hk; done).
    pose proof (Hp 0%nat diagonal eq_refl) as Hd.
    pose proof (Hp 1%nat up eq_refl) as Hu.
    simpl.
    set (cell := if (c2 =? c1)%N then diagonal
                 else Z.min (diagonal + 1) (Z.min (left + 1) (up + 1))).
    assert (Hcell : 0 ≤ cell ≤ Z.max i (offset + 1)).
    { unfold cell. destruct (c2 =? c1)%N; lia. }
    intros [|k] v Hk; simpl in Hk.
    + injection Hk as <-. lia.
    + eapply (IH (up :: previous) cell i (offset + 1)) in Hk; try lia.
      intros k' v' Hk'. specialize (Hp (S k') v' Hk'). lia.
Qed.

Lemma levenshteinRows_bounded str1 str2 : ∀ i previous,
  1 ≤ i → length previous = S (length str1) →
  rowBounded (i - 1) 0 previous →
  length (levenshteinRows str1 str2 i previous) = S (length str1)
  ∧ rowBounded (i - 1 + Z.of_nat (length str2)) 0
      (levenshteinRows str1 str2 i previous).
Proof.
  induction str2 as [|c2 str2 IH]; intros i previous Hi Hlen Hp.
  - simpl. split; [done|]. by rewrite Z.add_0_r.
  - simpl levenshteinRows.
    destruct (IH (i + 1) (i :: levenshteinRow str1 c2 previous i))
      as [Hl Hb].
    + lia.
    + simpl. by rewrite levenshteinRow_length.
    + replace (i + 1 - 1) with i by lia.
      intros [|k] v Hk; simpl in Hk.
      * injection Hk as <-. lia.
      * apply (levenshteinRow_bounded str1 c2 previous i i 0) in Hk;
          [lia|lia|lia|done|lia].
    + split; [done|].
      replace (i - 1 + Z.of_nat (length (c2 :: str2)))
        with (i + 1 - 1 + Z.of_nat (length str2)) by (simpl; lia).
      done.
Qed.

Lemma last_lookup_default (row : list Z) n v :
  length row = S n → row !! n = Some v → List.last row 0 = v.
Proof.
  revert n. induction row as [|a row IH]; intros n Hlen Hn; [done|].
  destruct row as [|b row].
  - simpl in Hlen. assert (n = 0%nat) as -> by lia. by injection Hn.
  - destruct n as [|n]; [simpl in Hlen; lia|].
    change (List.last (a :: b :: row) 0) with (List.last (b :: row) 0).
    apply (IH n); [simpl in *; lia|done].
Qed.

Lemma initial_row_bounded n :
  length (map Z.of_nat (seq 0 (S n))) = S n
  ∧ rowBounded 0 0 (map Z.of_nat (seq 0 (S n))).
Proof.
  split; [by rewrite length_map, length_seq|].
  intros k v Hk.
  change (map Z.of_nat (seq 0 (S n))) with (Z.of_nat <$> seq 0 (S n)) in Hk.
  rewrite list_lookup_fmap in Hk.
  destruct (seq 0 (S n) !! k) as [j|] eqn:Hj; [|done].
  apply lookup_seq in Hj as [-> _]. injection Hk as <-. lia.
Qed.

Lemma levenshteinDistance_bounds str1 str2 :
  0 ≤ levenshteinDistance str1 str2
    ≤ Z.max (Z.of_nat (length str1)) (Z.of_nat (length str2)).
Proof.
  unfold levenshteinDistance.
  destruct (initial_row_bounded (length str1)) as [Hlen0 Hb0].
  destruct (levenshteinRows_bounded str1 str2 1 _ ltac:(lia) Hlen0 Hb0)
    as [Hlen Hb].
  destruct (lookup_lt_is_Some_2
              (levenshteinRows str1 str2 1
                 (map Z.of_nat (seq 0 (S (length str1)))))
              (length str1)) as [v Hv]; [lia|].
  rewrite (last_lookup_default _ _ v Hlen Hv).
  specialize (Hb _ _ Hv). lia.
Qed.

(** Where the character of the row meets the same character of [str1], the
    cell takes the value of its diagonal neighbour. *)
Lemma levenshteinRow_diagonal str1 c2 : ∀ previous left (k : nat) d,
  str1 !! k = Some c2 → previous !! k = Some d →
  is_Some (previous !! S k) →
  levenshteinRow str1 c2 previous left !! k = Some d.
Proof.
  induction str1 as [|c1 str1 IH]; intros previous left k d Hc Hd Hup;
    [done|].
  destruct previous as [|diagonal [|up previous]].
  - done.
  - destruct k; [by destruct Hup|done].
  - destruct k as [|k]; simpl in *.
    + injection Hc as ->. injection Hd as ->. by rewrite N.eqb_refl.
    + by apply IH.
Qed.

Lemma levenshteinRows_same s : ∀ rest (n : nat) i row,
  drop n s = rest → (n ≤ length s)%nat →
  length row = S (length s) → row !! n = Some 0 →
  List.last (levenshteinRows s rest i row) 0 = 0.
Proof.
  induction rest as [|c rest IH]; intros n i row Hdrop Hn Hlen Hrow.
  - simpl. apply (last_lookup_default _ (length s)); [done|].
    assert (n = length s) as <-; [|done].
    apply (f_equal length) in Hdrop. rewrite length_drop in Hdrop.
    simpl in Hdrop. lia.
  - assert (Hc : s !! n = Some c).
    { rewrite <- (Nat.add_0_r n), <- lookup_drop. by rewrite Hdrop. }
    assert (Hlt : (n < length s)%nat) by (by apply lookup_lt_Some in Hc).
    simpl. apply (IH (S n)).
    + erewrite drop_S in Hdrop by done. by injection Hdrop.
    + lia.
    + simpl. by rewrite levenshteinRow_length.
    + simpl. apply levenshteinRow_diagonal; [done..|].
      apply lookup_lt_is_Some_2. lia.
Qed.

Lemma levenshteinRow_sound s1 s2 (i : nat) c2 :
  s2 !! i = Some c2 →
  ∀ str1 previous left (offset : nat),
  drop offset s1 = str1 →
  rowSound s1 s2 i offset previous →
  cellSound s1 s2 (S i) offset left →
  rowSound s1 s2 (S i) (S offset) (levenshteinRow str1 c2 previous left).
Proof.
  intros Hc2.
  induction str1 as [|c1 str1 IH]; intros previous left offset Hdrop Hp Hl.
  - intros k v Hk. by destruct previous.
  - destruct previous as [|diagonal [|up previous]];
      try (intros k v Hk; done).
    assert (Hc1 : s1 !! offset = Some c1).
    { rewrite <- (Nat.add_0_r offset), <- lookup_drop. by rewrite Hdrop. }
    pose proof (Hp 0%nat diagonal eq_refl) as [Hd Hd0].
    pose proof (Hp 1%nat up eq_refl) as [Hu _].
    destruct Hl as [Hl _].
    rewrite Nat.add_0_r in Hd, Hd0.
    simpl levenshteinRow.
    set (cell := if (c2 =? c1)%N then diagonal
                 else Z.min (diagonal + 1) (Z.min (left + 1) (up + 1))).
    assert (Hcell : cellSound s1 s2 (S i) (S offset) cell).
    { unfold cell. destruct (c2 =? c1)%N eqn:Heq.
      - apply N.eqb_eq in Heq as ->. split; [lia|].
        intros Hz. rewrite (take_S_r _ _ _ Hc1), (take_S_r _ _ _ Hc2).
        by rewrite Hd0.
      - split; [lia|]. intros Hz. lia. }
    intros [|k] v Hk; simpl in Hk.
    + injection Hk as <-. by rewrite Nat.add_0_r.
    + replace (S offset + S k)%nat with (S (S offset) + k)%nat by lia.
      apply (IH (up :: previous) cell (S offset)); [| |done|done].
      * erewrite drop_S in Hdrop by done. by injection Hdrop.
      * intros k' v' Hk'.
        replace (S offset + k')%nat with (offset + S k')%nat by lia.
        by apply Hp.
Qed.

Lemma levenshteinRows_sound s1 s2 : ∀ rest (n : nat) row,
  drop n s2 = rest → (n ≤ length s2)%nat → rowSound s1 s2 n 0 row →
  rowSound s1 s2 (length s2) 0
    (levenshteinRows s1 rest (Z.of_nat (S n)) row).
Proof.
  induction rest as [|c2 rest IH]; intros n row Hdrop Hn Hrow.
  - simpl. assert (n = length s2) as <-; [|done].
    apply (f_equal length) in Hdrop. rewrite length_drop in Hdrop.
    simpl in Hdrop. lia.
  - assert (Hc2 : s2 !! n = Some c2).
    { rewrite <- (Nat.add_0_r n), <- lookup_drop. by rewrite Hdrop. }
    assert (Hlt : (n < length s2)%nat) by (by apply lookup_lt_Some in Hc2).
    simpl levenshteinRows.
    replace (Z.of_nat (S n) + 1) with (Z.of_nat (S (S n))) by lia.
    apply (IH (S n)).
    + erewrite drop_S in Hdrop by done. by injection Hdrop.
    + lia.
    + intros [|k] v Hk; simpl in Hk.
      * injection Hk as <-. split; [lia|lia].
      * replace (0 + S k)%nat with (1 + k)%nat by lia.
        apply (levenshteinRow_sound s1 s2 n c2 Hc2 s1 row (Z.of_nat (S n)) 0);
          [done|done| |done].
        split; [lia|lia].
Qed.

Lemma initial_row_sound s1 s2 :
  rowSound s1 s2 0 0 (map Z.of_nat (seq 0 (S (length s1)))).
Proof.
  intros k v Hk.
  change (map Z.of_nat (seq 0 (S (length s1))))
    with (Z.of_nat <$> seq 0 (S (length s1))) in Hk.
  rewrite list_lookup_fmap in Hk.
  destruct (seq 0 (S (length s1)) !! k) as [j|] eqn:Hj; [|done].
  apply lookup_seq in Hj as [-> _]. injection Hk as <-.
  split; [lia|]. intros Hz. assert (k = 0%nat) as -> by lia. done.
Qed.

(** The edit distance is at least the difference of the lengths and at most
    the larger length, and it is 0 exactly for equal strings. *)
Lemma levenshteinDistance_metric str1 str2 :
  Z.abs (Z.of_nat (length str1) - Z.of_nat (length str2))
    ≤ levenshteinDistance str1 str2
    ≤ Z.max (Z.of_nat (length str1)) (Z.of_nat (length str2))
  ∧ (levenshteinDistance str1 str2 = 0 ↔ str1 = str2).
Proof.
  pose proof (levenshteinDistance_bounds str1 str2) as Hb.
  assert (Hsound : cellSound str1 str2 (length str2) (length str1)
                     (levenshteinDistance str1 str2)).
  { unfold levenshteinDistance.
    destruct (initial_row_bounded (length str1)) as [Hlen0 Hb0].
    destruct (levenshteinRows_bounded str1 str2 1 _ ltac:(lia) Hlen0 Hb0)
      as [Hlen _].
    destruct (lookup_lt_is_Some_2
                (levenshteinRows str1 str2 1
                   (map Z.of_nat (seq 0 (S (length str1)))))
                (length str1)) as [v Hv]; [lia|].
    rewrite (last_lookup_default _ _ v Hlen Hv).
    apply (levenshteinRows_sound str1 str2 str2 0 _ eq_refl ltac:(lia)
             (initial_row_sound str1 str2) (length str1) v Hv). }
  destruct Hsound as [Hlow Hzero]. split; [lia|]. split.
  - intros Hz. specialize (Hzero Hz). by rewrite !take_ge in Hzero by lia.
  - intros <-. unfold levenshteinDistance.
    destruct (initial_row_bounded (length str1)) as [Hlen0 _].
    apply (levenshteinRows_same str1 str1 0); [done|lia|done|done].
Qed.

(** X1. The edit distance computed by [levenshteinDistance] lies between
    the difference of the two lengths and the larger length; it is 0 exactly
    when the two strings are equal, and the distance to or from the empty
    string is the length of the other string. *)
Theorem edit_distance_is_sound (str1 str2 : jsstring) :
  Z.abs (Z.of_nat (length str1) - Z.of_nat (length str2))
    ≤ levenshteinDistance str1 str2
    ≤ Z.max (Z.of_nat (length str1)) (Z.of_nat (length str2))
  ∧ (levenshteinDistance str1 str2 = 0 ↔ str1 = str2)
  ∧ levenshteinDistance str1 [] = Z.of_nat (length str1)
  ∧ levenshteinDistance [] str2 = Z.of_nat (length str2).
Proof.
  destruct (levenshteinDistance_metric str1 str2) as [Hb Hz].
  split; [done|]. split; [done|]. split.
  - destruct (levenshteinDistance_metric str1 []) as [Hb' _].
    simpl in Hb'. lia.
  - destruct (levenshteinDistance_metric [] str2) as [Hb' _].
    simpl in Hb'. lia.
Qed.

(** ** Similarity *)

Lemma similarity_ratio (len d : Z) :
  0 < len → 0 ≤ d ≤ len →
  (0 <= inject_Z (len - d) / inject_Z len)%Q
  ∧ (inject_Z (len - d) / inject_Z len <= 1)%Q
  ∧ ((inject_Z (len - d) / inject_Z len == 1)%Q ↔ d = 0)
  ∧ ((inject_Z (len - d) / inject_Z len == 0)%Q ↔ d = len).
Proof.
  intros Hlen Hd.
  assert (Hpos : (0 < inject_Z len)%Q)
    by (change 0%Q with (inject_Z 0); by rewrite <- Zlt_Qlt).
  assert (Hne : ¬ (inject_Z len == 0)%Q).
  { intros H. rewrite H in Hpos. by apply Qlt_irrefl in Hpos. }
  assert (Hnum0 : (0 <= inject_Z (len - d))%Q)
    by (change 0%Q with (inject_Z 0); rewrite <- Zle_Qle; lia).
  assert (Hnum1 : (inject_Z (len - d) <= inject_Z len)%Q)
    by (rewrite <- Zle_Qle; lia).
  split; [|split; [|split]].
  - apply Qle_shift_div_l; [done|]. by rewrite Qmult_0_l.
  - apply Qle_shift_div_r; [done|]. by rewrite Qmult_1_l.
  - split.
    + intros Heq.
      assert (H : (inject_Z (len - d) == inject_Z len)%Q).
      { rewrite <- (Qmult_div_r (inject_Z (len - d)) (inject_Z len)) by done.
        rewrite Heq. ring. }
      apply (proj1 (inject_Z_injective _ _)) in H. lia.
    + intros ->. rewrite Z.sub_0_r. by field.
  - split.
    + intros Heq.
      assert (H : (inject_Z (len - d) == inject_Z 0)%Q).
      { rewrite <- (Qmult_div_r (inject_Z (len - d)) (inject_Z len)) by done.
        rewrite Heq. change (inject_Z 0) with 0%Q. ring. }
      apply (proj1 (inject_Z_injective _ _)) in H. lia.
    + intros ->. rewrite Z.sub_diag. change (inject_Z 0) with 0%Q. by field.
Qed.

Lemma calculateSimilarity_range str1 str2 :
  (0 <= calculateSimilarity str1 str2)%Q
  ∧ (calculateSimilarity str1 str2 <= 1)%Q
  ∧ ((calculateSimilarity str1 str2 == 1)%Q ↔ str1 = str2).
Proof.
  unfold calculateSimilarity.
  set (longer := if (length str2 <? length str1)%nat then str1 else str2).
  set (shorter := if (length str2 <? length str1)%nat then str2 else str1).
  assert (Hlen : (length shorter ≤ length longer)%nat).
  { unfold longer, shorter.
    destruct (length str2 <? length str1)%nat eqn:Hlt;
      [apply Nat.ltb_lt in Hlt|apply Nat.ltb_ge in Hlt]; lia. }
  assert (Heq : longer = shorter ↔ str1 = str2).
  { unfold longer, shorter.
    destruct (length str2 <? length str1)%nat; split; congruence. }
  destruct (length longer =? 0)%nat eqn:Hzero.
  - apply Nat.eqb_eq in Hzero.
    assert (longer = []) as Hl by (by apply length_zero_iff_nil).
    assert (shorter = []) as Hs by (apply length_zero_iff_nil; lia).
    split; [done|]. split; [done|]. split; [|done].
    intros _. apply Heq. congruence.
  - apply Nat.eqb_neq in Hzero.
    destruct (levenshteinDistance_metric longer shorter) as [Hb Hz].
    destruct (similarity_ratio (Z.of_nat (length longer))
                (levenshteinDistance longer shorter)) as (H0 & H1 & H2 & _);
      [lia|lia|].
    split; [done|]. split; [done|]. rewrite H2, Hz. done.
Qed.

(** X2. The similarity of two strings is a number between 0 and 1; it is 1
    exactly when the strings are equal, and 0 when one of them is empty and
    the other is not. *)
Theorem similarity_in_unit_interval (str1 str2 : jsstring) :
  (0 <= calculateSimilarity str1 str2)%Q
  ∧ (calculateSimilarity str1 str2 <= 1)%Q
  ∧ ((calculateSimilarity str1 str2 == 1)%Q ↔ str1 = str2)
  ∧ (str1 ≠ [] → (calculateSimilarity str1 [] == 0)%Q
                 ∧ (calculateSimilarity [] str1 == 0)%Q).
Proof.
  destruct (calculateSimilarity_range str1 str2) as (H0 & H1 & H2).
  split; [done|]. split; [done|]. split; [done|].
  intros Hne.
  assert (Hlen : (0 < length str1)%nat)
    by (destruct str1; [done|simpl; lia]).
  assert (Hd : levenshteinDistance str1 [] = Z.of_nat (length str1)).
  { destruct (levenshteinDistance_metric str1 []) as [Hb _].
    simpl in Hb. lia. }
  destruct (similarity_ratio (Z.of_nat (length str1))
              (levenshteinDistance str1 [])) as (_ & _ & _ & H3);
    [lia|lia|].
  assert (Hltb : (0 <? length str1)%nat = true) by (by apply Nat.ltb_lt).
  assert (Hnz : (length str1 =? 0)%nat = false) by (apply Nat.eqb_neq; lia).
  split.
  - unfold calculateSimilarity. simpl length. rewrite Hltb, Hnz.
    by apply H3.
  - unfold calculateSimilarity. simpl length.
    change (length str1 <? 0)%nat with false. cbv iota. rewrite Hnz.
    by apply H3.
Qed.

(** ** Text *)

Lemma startsWith_prefix p : ∀ s,
  startsWith p s = true ↔ ∃ post, s = p ++ post.
Proof.
  induction p as [|a p IH]; intros s; simpl.
  - split; [by exists s|done].
  - destruct s as [|b s].
    + split; [done|]. by intros [post [=]].
    + rewrite andb_true_iff, N.eqb_eq, IH. split.
      * intros [-> [post ->]]. by exists post.
      * intros [post [= -> ->]]. split; [done|by exists post].
Qed.

Lemma includes_occursIn s p : includes s p = true ↔ occursIn p s.
Proof.
  unfold occursIn. induction s as [|a s IH].
  - simpl. rewrite orb_false_r, startsWith_prefix. split.
    + intros [post H]. by exists [], post.
    + intros (pre & post & H). symmetry in H.
      apply app_eq_nil in H as [-> H]. apply app_eq_nil in H as [-> ->].
      by exists [].
  - change (includes (a :: s) p) with (startsWith p (a :: s) || includes s p).
    rewrite orb_true_iff, startsWith_prefix, IH. split.
    + intros [[post H]|(pre & post & H)].
      * by exists [], post.
      * exists (a :: pre), post. by rewrite H.
    + intros ([|b pre] & post & H).
      * left. by exists post.
      * right. injection H as -> H. by exists pre, post.
Qed.

Lemma trimStart_split s :
  ∃ pre, s = pre ++ trimStart s ∧ Forall (fun c => isSpace c = true) pre
         ∧ ∀ c, head (trimStart s) = Some c → isSpace c = false.
Proof.
  induction s as [|a s (pre & Hs & Hpre & Hhead)]; simpl.
  - exists []. by repeat split.
  - destruct (isSpace a) eqn:Ha.
    + exists (a :: pre). split; [by rewrite Hs at 1|].
      split; [by constructor|done].
    + exists []. split; [done|]. split; [constructor|].
      intros c [= <-]. done.
Qed.

Lemma trimStart_id s :
  (∀ c, head s = Some c → isSpace c = false) → trimStart s = s.
Proof.
  destruct s as [|a s]; [done|]. intros H. simpl.
  by rewrite (H a eq_refl).
Qed.

Lemma head_rev (s : jsstring) : head (rev s) = last s.
Proof.
  induction s as [|a s IH] using rev_ind; [done|].
  by rewrite rev_app_distr, last_snoc.
Qed.

Lemma trimEnd_split s :
  ∃ post, s = trimEnd s ++ post ∧ Forall (fun c => isSpace c = true) post
          ∧ ∀ c, last (trimEnd s) = Some c → isSpace c = false.
Proof.
  unfold trimEnd.
  destruct (trimStart_split (rev s)) as (pre & Hs & Hpre & Hhead).
  exists (rev pre). split; [|split].
  - rewrite <- rev_app_distr, <- Hs. by rewrite rev_involutive.
  - apply Forall_forall. intros c Hc. rewrite Forall_forall in Hpre.
    apply Hpre. apply list_elem_of_In. apply in_rev.
    by apply list_elem_of_In.
  - intros c Hc. apply Hhead. by rewrite <- head_rev, rev_involutive in Hc.
Qed.

Lemma trimEnd_id s :
  (∀ c, last s = Some c → isSpace c = false) → trimEnd s = s.
Proof.
  intros H. unfold trimEnd. rewrite trimStart_id; [apply rev_involutive|].
  intros c Hc. apply H. by rewrite <- head_rev.
Qed.

(** [trim] takes a run of white space off each end, and leaves a string
    that neither starts nor ends with white space. *)
Lemma trim_split s :
  ∃ pre post, s = pre ++ trim s ++ post
              ∧ Forall (fun c => isSpace c = true) pre
              ∧ Forall (fun c => isSpace c = true) post
              ∧ trimmed (trim s).
Proof.
  unfold trim.
  destruct (trimStart_split s) as (pre & Hs & Hpre & Hhead).
  destruct (trimEnd_split (trimStart s)) as (post & Ht & Hpost & Hlast).
  exists pre, post. split; [by rewrite <- Ht|]. split; [done|].
  split; [done|]. split; [|done].
  intros c Hc. apply Hhead. rewrite Ht.
  destruct (trimEnd (trimStart s)); [done|]. exact Hc.
Qed.

Lemma trim_trimmed s : trimmed s → trim s = s.
Proof.
  intros [Hh Hl]. unfold trim. rewrite (trimStart_id s Hh).
  by apply trimEnd_id.
Qed.

(** ** The tier adjustment stays within bounds *)

Lemma Math_min_cases a b :
  (Math_min a b <= a)%Q ∧ (Math_min a b <= b)%Q
  ∧ ((Math_min a b == a)%Q ∨ (Math_min a b == b)%Q).
Proof.
  unfold Math_min. destruct (Qle_bool a b) eqn:Hab.
  - apply Qle_bool_iff in Hab. repeat split; lra.
  - assert (b < a)%Q by (apply Qltb_lt; unfold Qltb; by rewrite Hab).
    repeat split; lra.
Qed.

Lemma Math_max_cases a b :
  (a <= Math_max a b)%Q ∧ (b <= Math_max a b)%Q
  ∧ ((Math_max a b == a)%Q ∨ (Math_max a b == b)%Q).
Proof.
  unfold Math_max. destruct (Qle_bool a b) eqn:Hab.
  - apply Qle_bool_iff in Hab. repeat split; lra.
  - assert (b < a)%Q by (apply Qltb_lt; unfold Qltb; by rewrite Hab).
    repeat split; lra.
Qed.

Lemma applyTierMatchingBonus_bounds skillName parsedSkill base :
  (0 <= base)%Q → (base <= 1)%Q →
  (0 <= applyTierMatchingBonus skillName parsedSkill base)%Q
  ∧ (base - (2 # 10) <= applyTierMatchingBonus skillName parsedSkill base)%Q
  ∧ (applyTierMatchingBonus skillName parsedSkill base <= base + (5 # 10))%Q.
Proof.
  intros H0 H1. unfold applyTierMatchingBonus.
  pose proof (Math_min_cases 1 (base + (3 # 10))) as (Hm1 & Hm2 & Hm3).
  pose proof (Math_max_cases 0 (base - (2 # 10))) as (Hx1 & Hx2 & Hx3).
  repeat case_match; repeat split; try lra;
    destruct Hm3 as [Hm3|Hm3]; destruct Hx3 as [Hx3|Hx3]; lra.
Qed.

(** ** The filter and the scores of the resolver *)

Section ResolverFurther.

Variable toLowerCase : jsstring -> jsstring.
Variable skillnames : list (string * list jsstring).

Local Abbreviation normalize' := (normalizeString toLowerCase).
Local Abbreviation fuzzy' := (fuzzyMatch toLowerCase).
Local Abbreviation adjusted' := (adjustedSimilarity toLowerCase).
Local Abbreviation candidates' := (candidateScores toLowerCase skillnames).
Local Abbreviation matching' := (findMatchingSkill toLowerCase skillnames).
Local Abbreviation best' := (bestCandidate toLowerCase skillnames).

(** X3. [fuzzyMatch] holds exactly when one normalized string occurs inside
    the other or the similarity of the normalized strings is above 0.7. So
    it holds whenever the two strings normalize to the same text, and a
    string that normalizes to the empty text matches every other string. *)
Theorem fuzzy_match_is_containment_or_similarity (str1 str2 : jsstring) :
  (fuzzy' str1 str2 = true
   ↔ occursIn (normalize' str2) (normalize' str1)
     ∨ occursIn (normalize' str1) (normalize' str2)
     ∨ (7 # 10 < calculateSimilarity (normalize' str1) (normalize' str2))%Q)
  ∧ (normalize' str1 = normalize' str2 → fuzzy' str1 str2 = true)
  ∧ (normalize' str2 = [] →
     fuzzy' str1 str2 = true ∧ fuzzy' str2 str1 = true).
Proof.
  assert (Hiff : ∀ a b,
            fuzzy' a b = true
            ↔ occursIn (normalize' b) (normalize' a)
              ∨ occursIn (normalize' a) (normalize' b)
              ∨ (7 # 10 < calculateSimilarity (normalize' a)
                            (normalize' b))%Q).
  { intros a b. unfold fuzzyMatch.
    rewrite !orb_true_iff, !includes_occursIn, Qltb_lt. tauto. }
  split; [apply Hiff|]. split.
  - intros Heq. apply Hiff. left. rewrite Heq.
    exists [], []. by rewrite app_nil_r.
  - intros Hempty. split; apply Hiff; [left|right; left];
      rewrite Hempty; exists [], (normalize' str1); done.
Qed.

Lemma adjusted_bounds name line :
  (0 <= adjusted' name line)%Q ∧ (adjusted' name line <= 15 # 10)%Q
  ∧ (calculateSimilarity (normalize' name) (normalize' line) - (2 # 10)
     <= adjusted' name line)%Q.
Proof.
  unfold adjustedSimilarity.
  destruct (calculateSimilarity_range (normalize' name) (normalize' line))
    as (H0 & H1 & _).
  destruct (applyTierMatchingBonus_bounds name line _ H0 H1) as (? & ? & ?).
  repeat split; lra.
Qed.

(** X4. The adjusted similarity of a name and a line, after the tier
    bonus, lies between 0 and 1.5, and the bonus moves the base similarity
    by no more than 0.2 down and 0.5 up. *)
Theorem adjusted_similarity_bounds (name line : jsstring) :
  (0 <= adjusted' name line)%Q
  ∧ (adjusted' name line <= 15 # 10)%Q
  ∧ (calculateSimilarity (normalize' name) (normalize' line) - (2 # 10)
     <= adjusted' name line)%Q
  ∧ (adjusted' name line
     <= calculateSimilarity (normalize' name) (normalize' line) + (5 # 10))%Q.
Proof.
  destruct (adjusted_bounds name line) as (H0 & H1 & H2).
  repeat split; try done.
  unfold adjustedSimilarity.
  destruct (calculateSimilarity_range (normalize' name) (normalize' line))
    as (Hb0 & Hb1 & _).
  by destruct (applyTierMatchingBonus_bounds name line _ Hb0 Hb1)
    as (_ & _ & ?).
Qed.

Lemma candidate_of_entry line isUniqueSkill skillId names name :
  (skillId, names) ∈ skillnames → inPool isUniqueSkill skillId = true →
  name ∈ names → fuzzy' name line = true →
  (skillId, adjusted' name line) ∈ candidates' line isUniqueSkill.
Proof.
  intros Hentry Hpool Hname Hfuzzy. unfold candidateScores.
  apply list_elem_of_bind. exists (skillId, names). split; [|done].
  simpl. rewrite Hpool. unfold entryScores.
  apply list_elem_of_omap. exists name. split; [done|]. by rewrite Hfuzzy.
Qed.

Lemma matching_fold line isUniqueSkill :
  matching' line isUniqueSkill
  = (let best := fold_left keepBest (candidates' line isUniqueSkill)
                   (None, 0%Q) in
     if Qltb (6 # 10) (snd best) then fst best else None).
Proof.
  unfold findMatchingSkill. rewrite considerEntry_fold.
  fold (candidates' line isUniqueSkill).
  by destruct (fold_left keepBest _ _).
Qed.

Lemma matching_none line isUniqueSkill :
  matching' line isUniqueSkill = None
  ↔ ∀ c, c ∈ candidates' line isUniqueSkill → (snd c <= 6 # 10)%Q.
Proof.
  rewrite matching_fold.
  destruct (keepBest_fold (candidates' line isUniqueSkill) (None, 0%Q))
    as (Hinit & Hall & Hwhich).
  cbv zeta. destruct (Qltb (6 # 10) (snd (fold_left keepBest _ _))) eqn:Hlt.
  - apply Qltb_lt in Hlt. split.
    + intros Hnone. destruct Hwhich as [Hsame|(c & Hc & Heq)].
      * rewrite Hsame in Hlt. simpl in Hlt. lra.
      * rewrite Heq in Hnone. done.
    + intros Hle. exfalso. destruct Hwhich as [Hsame|(c & Hc & Heq)].
      * rewrite Hsame in Hlt. simpl in Hlt. lra.
      * rewrite Heq in Hlt. simpl in Hlt. specialize (Hle c Hc). lra.
  - apply Qltb_ge in Hlt. split; [|done].
    intros _ c Hc. specialize (Hall c Hc). lra.
Qed.


Lemma keepBest_fold_stays candidates : ∀ best,
  Forall (fun c => (snd c <= snd best)%Q) candidates →
  fold_left keepBest candidates best = best.
Proof.
  induction candidates as [|c l IH]; intros best Hall; [done|].
  apply Forall_cons in Hall as [Hc Hl]. simpl.
  assert (Hkeep : keepBest best c = best).
  { unfold keepBest. destruct (Qltb (snd best) (snd c)) eqn:Hlt; [|done].
    apply Qltb_lt in Hlt. lra. }
  rewrite Hkeep. by apply IH.
Qed.

Lemma keepBest_fold_below candidates : ∀ best bound,
  (snd best < bound)%Q → Forall (fun c => (snd c < bound)%Q) candidates →
  (snd (fold_left keepBest candidates best) < bound)%Q.
Proof.
  induction candidates as [|c l IH]; intros best bound Hb Hall; [done|].
  apply Forall_cons in Hall as [Hc Hl]. simpl. apply IH; [|done].
  unfold keepBest. by destruct (Qltb (snd best) (snd c)).
Qed.



End ResolverFurther.



(** ** Highest aptitude and strategy *)

Lemma indexOf_from_spec array x : ∀ i,
  (indexOf_from array x i = -1 ∧ x ∉ array ∨
   ∃ k : nat, indexOf_from array x i = i + Z.of_nat k
              ∧ array !! k = Some x ∧ (k < length array)%nat)
  ∧ (0 ≤ i → indexOf_from array x i = -1 → x ∉ array).
Proof.
  induction array as [|y rest IH]; intros i; simpl.
  - split; [left; split; [done|]|intros _ _]; by intros H%elem_of_nil.
  - destruct (bool_decide (y = x)) eqn:Hy.
    + apply bool_decide_eq_true in Hy as ->. split.
      * right. exists 0%nat. split; [lia|]. split; [done|]. simpl. lia.
      * intros Hi Hm. lia.
    + apply bool_decide_eq_false in Hy.
      destruct (IH (i + 1)) as [[[Hm Hnot]|(k & Hk & Hlook & Hlen)] Hneg].
      * split; [left; split; [done|]|intros _ _];
          rewrite not_elem_of_cons; by split.
      * split.
        -- right. exists (S k). split; [lia|]. split; [done|]. simpl. lia.
        -- intros Hi Hm. lia.
Qed.

Lemma indexOf_grade aptitude :
  (indexOf aptitudeOrder aptitude = -1 ∧ ¬ isGrade aptitude)
  ∨ (0 ≤ indexOf aptitudeOrder aptitude ≤ 7 ∧ isGrade aptitude
     ∧ aptitudeOrder !! Z.to_nat (indexOf aptitudeOrder aptitude)
       = Some aptitude).
Proof.
  unfold indexOf, isGrade.
  destruct (indexOf_from_spec aptitudeOrder aptitude 0)
    as [[[Hm Hnot]|(k & Hk & Hlook & Hlen)] _].
  - by left.
  - right. rewrite Hk. simpl in Hlen. split; [lia|]. split.
    + apply list_elem_of_lookup. by exists k.
    + by replace (Z.to_nat (0 + Z.of_nat k)) with k by lia.
Qed.

Lemma betterAptitude_cases best a :
  (betterAptitude best a = (a, indexOf aptitudeOrder a) ∧ isGrade a
   ∧ indexOf aptitudeOrder a < snd best)
  ∨ (betterAptitude best a = best
     ∧ (isGrade a → snd best ≤ indexOf aptitudeOrder a)).
Proof.
  unfold betterAptitude. cbv zeta.
  destruct (indexOf_grade a) as [[Hm Hnot]|(Hrange & Hga & _)].
  - rewrite Hm. simpl. right. split; [done|]. intros Hga. by destruct Hnot.
  - destruct (indexOf aptitudeOrder a <? snd best) eqn:Hlt.
    + apply Z.ltb_lt in Hlt. left.
      replace (indexOf aptitudeOrder a =? -1) with false
        by (symmetry; apply Z.eqb_neq; lia).
      done.
    + apply Z.ltb_ge in Hlt. right. rewrite andb_false_r. split; [done|].
      intros _. lia.
Qed.

(** What the loop of [getHighestAptitude] keeps: a grade with its rank, no
    worse than any grade seen so far, taken from the input unless it is
    still the initial G. *)
Lemma betterAptitude_fold aptitudes : ∀ best seen,
  isGrade (fst best) → snd best = indexOf aptitudeOrder (fst best) →
  (∀ a, a ∈ seen → isGrade a → snd best ≤ indexOf aptitudeOrder a) →
  (fst best = lit "G" ∨ fst best ∈ seen) →
  let result := fold_left betterAptitude aptitudes best in
  isGrade (fst result) ∧ snd result = indexOf aptitudeOrder (fst result)
  ∧ (∀ a, a ∈ seen ++ aptitudes → isGrade a →
          snd result ≤ indexOf aptitudeOrder a)
  ∧ (fst result = lit "G" ∨ fst result ∈ seen ++ aptitudes).
Proof.
  induction aptitudes as [|a l IH]; intros best seen Hg Hidx Hmin Horigin.
  - simpl. rewrite app_nil_r. done.
  - simpl.
    replace (seen ++ a :: l) with ((seen ++ [a]) ++ l)
      by (by rewrite <- app_assoc).
    destruct (betterAptitude_cases best a) as [(-> & Hga & Hlt)|[-> Hge]];
      apply IH; simpl; try done.
    + intros a' Ha' Hga'. apply elem_of_app in Ha' as [Ha'|Ha'].
      * specialize (Hmin a' Ha' Hga'). lia.
      * apply list_elem_of_singleton in Ha' as ->. lia.
    + right. apply elem_of_app. right. by constructor.
    + intros a' Ha' Hga'. apply elem_of_app in Ha' as [Ha'|Ha'];
        [by apply Hmin|].
      apply list_elem_of_singleton in Ha' as ->. by apply Hge.
    + destruct Horigin as [?|?]; [by left|right].
      apply elem_of_app. by left.
Qed.

Lemma getHighestAptitude_spec aptitudes :
  let highest := getHighestAptitude aptitudes in
  isGrade highest
  ∧ (∀ a, a ∈ aptitudes → isGrade a →
          indexOf aptitudeOrder highest ≤ indexOf aptitudeOrder a)
  ∧ (highest ∈ aptitudes ∨
     highest = lit "G" ∧ ∀ a, a ∈ aptitudes → ¬ isGrade a).
Proof.
  unfold getHighestAptitude.
  pose proof (betterAptitude_fold aptitudes
                (lit "G", Z.of_nat (length aptitudeOrder) - 1) []) as H.
  cbv zeta in H.
  set (result := fold_left betterAptitude aptitudes
                   (lit "G", Z.of_nat (length aptitudeOrder) - 1)) in *.
  clearbody result.
  destruct H as (Hg & Hidx & Hmin & Horigin).
  - unfold isGrade, aptitudeOrder. cbn [fst]. set_solver.
  - by vm_compute.
  - intros a Ha. by apply elem_of_nil in Ha.
  - by left.
  - rewrite app_nil_l in Hmin, Horigin. cbv zeta. split; [done|]. split.
    + intros a Ha Hga. rewrite <- Hidx. by apply Hmin.
    + destruct (decide (fst result ∈ aptitudes)) as [Hin|Hout];
        [by left|right].
      destruct Horigin as [HG|?]; [|done]. split; [done|].
      intros a Ha Hga. specialize (Hmin a Ha Hga).
      rewrite Hidx, HG in Hmin.
      change (indexOf aptitudeOrder (lit "G")) with 7 in Hmin.
      destruct (indexOf_grade a) as [[_ Hnot]|(Hrange & _ & Hlook)];
        [done|].
      assert (indexOf aptitudeOrder a = 7) as H7 by lia.
      rewrite H7 in Hlook. simpl in Hlook. injection Hlook as <-.
      rewrite HG in Hout. done.
Qed.

(** X8. [getHighestAptitude] returns one of the eight grades; no grade among
    its arguments ranks before it in S, A, ..., G; and it is one of the
    arguments, or G when no argument is a grade at all. Arguments that are
    not grades are passed over. *)
Theorem highest_aptitude_is_best_grade (aptitudes : list jsstring) :
  let highest := getHighestAptitude aptitudes in
  isGrade highest
  ∧ (∀ a, a ∈ aptitudes → isGrade a →
          indexOf aptitudeOrder highest ≤ indexOf aptitudeOrder a)
  ∧ (highest ∈ aptitudes ∨
     highest = lit "G" ∧ ∀ a, a ∈ aptitudes → ¬ isGrade a)
  ∧ (∀ other, ¬ isGrade other →
       getHighestAptitude (other :: aptitudes) = highest).
Proof.
  destruct (getHighestAptitude_spec aptitudes) as (Hg & Hmin & Horigin).
  cbv zeta. split; [done|]. split; [done|]. split; [done|].
  intros other Hnot. unfold getHighestAptitude. simpl.
  destruct (betterAptitude_cases
              (lit "G", Z.of_nat (length aptitudeOrder) - 1) other)
    as [(_ & Hga & _)|[Heq _]]; [done|].
  simpl in Heq. by rewrite Heq.
Qed.

(** X9. The strategy chosen from the style aptitudes: the fallback tag is
    returned exactly when none of the four style values is a grade; as soon
    as one is, the tag is that of the first of front, pace, late, end that
    carries the highest grade. *)
Theorem strategy_falls_back_only_without_grades (s : Style) :
  let highest := getHighestAptitude (styleValues s) in
  let strategy := getStrategyFromAptitude s highest in
  (strategy = "Sasi" ↔ ∀ a, a ∈ styleValues s → ¬ isGrade a)
  ∧ (strategy = "Senkou" ↔ front s = highest ∨ pace s = highest)
  ∧ (strategy = "Oikomi" ↔
       front s ≠ highest ∧ pace s ≠ highest
       ∧ (late s = highest ∨ end_ s = highest)).
Proof.
  cbv zeta.
  destruct (getHighestAptitude_spec (styleValues s)) as (Hg & _ & Horigin).
  cbv zeta in Hg, Horigin.
  set (highest := getHighestAptitude (styleValues s)) in *.
  clearbody highest. unfold getStrategyFromAptitude, styleValues in *.
  split; [|split].
  - split.
    + intros Hs. destruct Horigin as [Hin|[_ Hnone]]; [|done].
      repeat case_bool_decide; try discriminate.
      repeat (apply elem_of_cons in Hin as [->|Hin]; [done|]).
      by apply elem_of_nil in Hin.
    + intros Hnone.
      repeat case_bool_decide; try done; subst; exfalso;
        (eapply Hnone; [|exact Hg]); repeat constructor.
  - repeat case_bool_decide; split; try done; try (intros [?|?]; done);
      auto.
  - repeat case_bool_decide; split; try done; try tauto;
      intros (? & ? & [?|?]); done.
Qed.

(** ** Matching an uma and building the horse state *)

Section HorseStateFacts.

Variable toLowerCase : jsstring -> jsstring.
Variable skillnames : list (string * list jsstring).
Variable umas : list (string * Uma).
Variable newHorseState : gmap string HorseValue.

Local Abbreviation fuzzy'' := (fuzzyMatch toLowerCase).
Local Abbreviation findMatchingUma' := (findMatchingUma toLowerCase umas).
Local Abbreviation convert' :=
  (convertParsedDataToHorseState toLowerCase skillnames umas newHorseState).

Lemma findOutfitOf_spec outfit entries :
  match findOutfitOf toLowerCase outfit entries with
  | Some outfitId =>
      ∃ outfitName, (outfitId, outfitName) ∈ entries
                    ∧ fuzzy'' outfitName outfit = true
  | None => ∀ outfitId outfitName, (outfitId, outfitName) ∈ entries →
                                   fuzzy'' outfitName outfit = false
  end.
Proof.
  induction entries as [|[outfitId outfitName] rest IH]; simpl.
  - intros ? ? H. by apply elem_of_nil in H.
  - destruct (fuzzy'' outfitName outfit) eqn:Hm.
    + exists outfitName. split; [constructor|done].
    + destruct (findOutfitOf toLowerCase outfit rest) as [found|].
      * destruct IH as (n & Hin & Hn). exists n. split; [by constructor|done].
      * intros i n Hin. apply elem_of_cons in Hin as [Heq|Hin].
        -- by injection Heq as -> ->.
        -- by eapply IH.
Qed.

Lemma findByOutfit_spec outfit roster :
  match findByOutfit toLowerCase outfit roster with
  | Some outfitId =>
      ∃ umaId uma outfitName,
        (umaId, uma) ∈ roster ∧ (outfitId, outfitName) ∈ outfits uma
        ∧ fuzzy'' outfitName outfit = true
  | None =>
      ∀ umaId uma outfitId outfitName,
        (umaId, uma) ∈ roster → (outfitId, outfitName) ∈ outfits uma →
        fuzzy'' outfitName outfit = false
  end.
Proof.
  induction roster as [|[umaId uma] rest IH]; simpl.
  - intros ? ? ? ? H. by apply elem_of_nil in H.
  - pose proof (findOutfitOf_spec outfit (outfits uma)) as Hone.
    destruct (findOutfitOf toLowerCase outfit (outfits uma)) as [found|].
    + destruct Hone as (n & Hin & Hn). exists umaId, uma, n.
      split; [constructor|done].
    + destruct (findByOutfit toLowerCase outfit rest) as [found|].
      * destruct IH as (k & u & n & Hk & Hin & Hn). exists k, u, n.
        split; [by constructor|done].
      * intros k u i n Hk Hin. apply elem_of_cons in Hk as [Heq|Hk].
        -- injection Heq as -> ->. by eapply Hone.
        -- by eapply IH.
Qed.

Lemma findByName_spec name roster :
  match findByName toLowerCase name roster with
  | Some outfitId =>
      ∃ umaId uma,
        (umaId, uma) ∈ roster ∧ fuzzy'' (uma_name uma) name = true
        ∧ fst <$> head (outfits uma) = Some outfitId
  | None =>
      ∀ umaId uma, (umaId, uma) ∈ roster →
        fuzzy'' (uma_name uma) name = true →
        ∃ umaId' uma', (umaId', uma') ∈ roster
          ∧ fuzzy'' (uma_name uma') name = true ∧ outfits uma' = []
  end.
Proof.
  induction roster as [|[umaId uma] rest IH]; simpl.
  - intros ? ? H. by apply elem_of_nil in H.
  - destruct (fuzzy'' (uma_name uma) name) eqn:Hm.
    + destruct (outfits uma) as [|[i n] l] eqn:Ho; simpl.
      * intros _ _ _ _. exists umaId, uma. split; [constructor|done].
      * exists umaId, uma. split; [constructor|]. split; [done|].
        by rewrite Ho.
    + destruct (findByName toLowerCase name rest) as [found|].
      * destruct IH as (k & u & Hk & Hn & Hh). exists k, u.
        split; [by constructor|done].
      * intros k u Hk Hn. apply elem_of_cons in Hk as [Heq|Hk].
        -- injection Heq as -> ->. congruence.
        -- destruct (IH k u Hk Hn) as (k' & u' & Hk' & Hn' & Ho).
           exists k', u'. split; [by constructor|done].
Qed.

Lemma truthy_trim (s : jsstring) :
  truthy s && truthy (trim s) = truthy (trim s).
Proof.
  destruct s as [|c s]; [done|]. done.
Qed.


Lemma strategy_tags s highest :
  getStrategyFromAptitude s highest ∈ ["Senkou"; "Oikomi"; "Sasi"].
Proof.
  unfold getStrategyFromAptitude.
  repeat case_bool_decide; repeat constructor.
Qed.

(** X11. [convertParsedDataToHorseState] changes no field other than the
    eleven it sets; the five stats are copied; the three aptitude fields
    always hold one of the eight grades, the best of their group; the
    strategy is one of three tags; the outfit is set only to a non-empty
    identifier found for the uma, and the skills only to a non-empty list of
    matched skills, both being left as in a fresh state otherwise. *)
Theorem horse_state_is_overwritten_fieldwise (data : ParsedUmaData) :
  let horseState := convert' data in
  let a := aptitudes data in
  (∀ field, field ∉ writtenFields →
            horseState !! field = newHorseState !! field)
  ∧ ([horseState !! "speed"; horseState !! "stamina"; horseState !! "power";
      horseState !! "guts"; horseState !! "wisdom"]
     = (fun n => Some (HNumber n)) <$>
       [speed (stats data); stamina (stats data); power (stats data);
        guts (stats data); wisdom (stats data)])
  ∧ (∃ surface distance_ style_,
       isGrade surface ∧ isGrade distance_ ∧ isGrade style_
       ∧ horseState !! "surfaceAptitude" = Some (HText surface)
       ∧ horseState !! "distanceAptitude" = Some (HText distance_)
       ∧ horseState !! "strategyAptitude" = Some (HText style_)
       ∧ surface = getHighestAptitude [turf (track a); dirt (track a)]
       ∧ distance_ = getHighestAptitude
                      [sprint (distance a); mile (distance a);
                       medium (distance a); long (distance a)]
       ∧ style_ = getHighestAptitude (styleValues (style a))
       ∧ horseState !! "strategy"
         = Some (HId (getStrategyFromAptitude (style a) style_))
       ∧ getStrategyFromAptitude (style a) style_
         ∈ ["Senkou"; "Oikomi"; "Sasi"])
  ∧ (horseState !! "outfitId" = newHorseState !! "outfitId"
     ∧ (findMatchingUma' (outfit data) (name data) = None
        ∨ findMatchingUma' (outfit data) (name data) = Some "")
     ∨ ∃ outfitId, outfitId ≠ ""
         ∧ findMatchingUma' (outfit data) (name data) = Some outfitId
         ∧ horseState !! "outfitId" = Some (HId outfitId))
  ∧ (horseState !! "skills" = newHorseState !! "skills"
     ∧ findMatchingSkills toLowerCase skillnames (skills data) = []
     ∨ findMatchingSkills toLowerCase skillnames (skills data) ≠ []
       ∧ horseState !! "skills"
         = Some (HSkillSet
                   (findMatchingSkills toLowerCase skillnames (skills data)))).
Proof.
  cbv zeta. unfold convertParsedDataToHorseState. cbv zeta.
  fold (styleValues (style (aptitudes data))).
  set (umaId := findMatchingUma' (outfit data) (name data)).
  set (matched := findMatchingSkills toLowerCase skillnames (skills data)).
  set (withOutfit := match umaId with
                     | Some id => if bool_decide (id = "") then newHorseState
                                  else <["outfitId" := HId id]> newHorseState
                     | None => newHorseState
                     end).
  assert (Hframe : ∀ field, field ≠ "outfitId" →
                     withOutfit !! field = newHorseState !! field).
  { intros field Hne. unfold withOutfit.
    destruct umaId as [id|]; [|done].
    case_bool_decide; [done|]. by rewrite lookup_insert_ne. }
  split; [|split; [|split; [|split]]].
  - intros field Hnot. unfold writtenFields in Hnot.
    rewrite !not_elem_of_cons in Hnot.
    destruct Hnot as (? & ? & ? & ? & ? & ? & ? & ? & ? & ? & ? & _).
    destruct matched; rewrite ?lookup_insert_ne by done; by apply Hframe.
  - destruct matched; simpl; repeat f_equal;
      by repeat first [rewrite lookup_insert_eq
                      | rewrite lookup_insert_ne by done].
  - eexists _, _, _.
    split; [apply getHighestAptitude_spec|].
    split; [apply getHighestAptitude_spec|].
    split; [apply (getHighestAptitude_spec
                     (styleValues (style (aptitudes data))))|].
    repeat split; try apply strategy_tags;
      destruct matched;
      by repeat first [rewrite lookup_insert_eq
                      | rewrite lookup_insert_ne by done].
  - assert (Hsame : ∀ h : gmap string HorseValue,
              match matched with
              | [] => h | _ :: _ => <["skills" := HSkillSet matched]> h
              end !! "outfitId" = h !! "outfitId").
    { intros h. destruct matched; [done|]. by rewrite lookup_insert_ne. }
    rewrite Hsame, !lookup_insert_ne by done. unfold withOutfit.
    destruct umaId as [id|]; [|left; by auto].
    case_bool_decide as Hid; [left; subst; by auto|right].
    exists id. by rewrite lookup_insert_eq.
  - destruct matched as [|m l] eqn:Hm.
    + left. split; [|done]. rewrite !lookup_insert_ne by done.
      by apply Hframe.
    + right. split; [done|]. by rewrite lookup_insert_eq.
Qed.

End HorseStateFacts.

(** ** The scale search stays inside its range *)

Section SearchFurther.

Variables image_width image_height : Z.
Variables template_width template_height : Z.
Variable matchTemplate : Z -> Z -> Q * (Z * Z).

Local Abbreviation testScale'' :=
  (testScale image_width image_height template_width template_height
     matchTemplate).
Local Abbreviation binarySearchStep'' :=
  (binarySearchStep image_width image_height template_width template_height
     matchTemplate).
Local Abbreviation evaluated'' :=
  (evaluated image_width image_height template_width template_height).
Local Abbreviation responseAt'' :=
  (responseAt template_width template_height matchTemplate).
Local Abbreviation matchAt'' :=
  (matchAt template_width template_height matchTemplate).
Local Abbreviation afterSteps'' :=
  (afterSteps image_width image_height template_width template_height
     matchTemplate).
Local Abbreviation searchProbes'' :=
  (searchProbes image_width image_height template_width template_height
     matchTemplate).
Local Abbreviation narrowed'' :=
  (narrowed image_width image_height template_width template_height
     matchTemplate).
Local Abbreviation findBestTemplateMatch'' :=
  (findBestTemplateMatch image_width image_height template_width
     template_height matchTemplate).

Lemma probes_inside st s :
  (minScale st < maxScale st)%Q → s ∈ probesOf st →
  (minScale st < s)%Q ∧ (s < maxScale st)%Q.
Proof.
  intros Hlt Hs. unfold probesOf in Hs.
  repeat (apply elem_of_cons in Hs as [->|Hs]);
    [| | |by apply elem_of_nil in Hs];
    unfold lowScaleOf, midScaleOf, highScaleOf, Qdiv;
    change (/ 2)%Q with (1 # 2)%Q; split; lra.
Qed.

Lemma narrowed_inside st :
  (minScale st < maxScale st)%Q →
  (minScale st <= fst (narrowed'' st))%Q
  ∧ (fst (narrowed'' st) < snd (narrowed'' st))%Q
  ∧ (snd (narrowed'' st) <= maxScale st)%Q
  ∧ (snd (narrowed'' st) - fst (narrowed'' st)
     == (maxScale st - minScale st) * (1 # 2))%Q.
Proof.
  intros Hlt. unfold narrowed.
  destruct (chooseRange _ _ _); simpl;
    unfold lowScaleOf, midScaleOf, highScaleOf, Qdiv;
    change (/ 2)%Q with (1 # 2)%Q; repeat split; lra.
Qed.

Lemma binarySearchStep_inside st :
  (minScale st < maxScale st)%Q →
  (minScale st <= minScale (binarySearchStep'' st))%Q
  ∧ (minScale (binarySearchStep'' st) < maxScale (binarySearchStep'' st))%Q
  ∧ (maxScale (binarySearchStep'' st) <= maxScale st)%Q
  ∧ (maxScale (binarySearchStep'' st) - minScale (binarySearchStep'' st)
     == (maxScale st - minScale st) * (1 # 2))%Q.
Proof.
  intros Hlt.
  destruct (binarySearchStep_spec image_width image_height template_width
              template_height matchTemplate st) as (_ & Hn & _).
  pose proof (narrowed_inside st Hlt) as H. rewrite <- Hn in H. exact H.
Qed.

Lemma searchProbes_inside n : ∀ st lo hi,
  (lo <= minScale st)%Q → (minScale st < maxScale st)%Q →
  (maxScale st <= hi)%Q →
  (∀ s, s ∈ searchProbes'' n st → (lo < s)%Q ∧ (s < hi)%Q)
  ∧ (maxScale (afterSteps'' n st) - minScale (afterSteps'' n st)
     == (maxScale st - minScale st) * (1 # 2) ^ Z.of_nat n)%Q.
Proof.
  induction n as [|n IH]; intros st lo hi Hlo Hlt Hhi.
  - split.
    + intros s Hs. by apply elem_of_nil in Hs.
    + simpl. lra.
  - destruct (binarySearchStep_inside st Hlt) as (H1 & H2 & H3 & H4).
    destruct (IH (binarySearchStep'' st) lo hi) as [Hin Hwidth];
      [lra|done|lra|].
    split.
    + intros s Hs. cbn [searchProbes] in Hs.
      apply elem_of_app in Hs as [Hs|Hs]; [|by apply Hin].
      destruct (probes_inside st s Hlt Hs). split; lra.
    + cbn [afterSteps]. rewrite Hwidth, H4.
      rewrite Nat2Z.inj_succ, <- Z.add_1_r.
      rewrite Qpower_plus by done.
      change ((1 # 2) ^ 1)%Q with (1 # 2)%Q. ring.
Qed.

(** [testScale] keeps a match only with a confidence above the initial
    -1. *)
Lemma testScale_confident scale st :
  (-1 <= bestConfidence st)%Q →
  (is_Some (bestMatch st) → (-1 < bestConfidence st)%Q) →
  (-1 <= bestConfidence (snd (testScale'' scale st)))%Q
  ∧ (is_Some (bestMatch (snd (testScale'' scale st))) →
     (-1 < bestConfidence (snd (testScale'' scale st)))%Q).
Proof.
  intros Hle Hsome. unfold testScale.
  destruct ((image_width <? _) || (image_height <? _)); [done|].
  destruct (matchTemplate _ _) as [confidence location].
  destruct (Qltb (bestConfidence st) confidence) eqn:Hlt; [|done].
  apply Qltb_lt in Hlt. simpl. split; [lra|]. intros _. lra.
Qed.

Lemma binarySearchStep_confident st :
  (-1 <= bestConfidence st)%Q →
  (is_Some (bestMatch st) → (-1 < bestConfidence st)%Q) →
  (-1 <= bestConfidence (binarySearchStep'' st))%Q
  ∧ (is_Some (bestMatch (binarySearchStep'' st)) →
     (-1 < bestConfidence (binarySearchStep'' st))%Q).
Proof.
  intros Hle Hsome. unfold binarySearchStep.
  set (st0 := {| bestMatch := bestMatch st;
                 bestConfidence := bestConfidence st;
                 minScale := minScale st; maxScale := maxScale st;
                 stepCount := S (stepCount st) |}).
  pose proof (testScale_confident (lowScaleOf st0) st0 Hle Hsome) as [H1 H1'].
  destruct (testScale'' (lowScaleOf st0) st0) as [c1 st1].
  pose proof (testScale_confident (midScaleOf st0) st1 H1 H1') as [H2 H2'].
  destruct (testScale'' (midScaleOf st0) st1) as [c2 st2].
  pose proof (testScale_confident (highScaleOf st0) st2 H2 H2') as [H3 H3'].
  destruct (testScale'' (highScaleOf st0) st2) as [c3 st3].
  by destruct (chooseRange c1 c2 c3).
Qed.

Lemma afterSteps_confident n : ∀ st,
  (-1 <= bestConfidence st)%Q →
  (is_Some (bestMatch st) → (-1 < bestConfidence st)%Q) →
  (-1 <= bestConfidence (afterSteps'' n st))%Q
  ∧ (is_Some (bestMatch (afterSteps'' n st)) →
     (-1 < bestConfidence (afterSteps'' n st))%Q).
Proof.
  induction n as [|n IH]; intros st Hle Hsome; [done|].
  cbn [afterSteps].
  destruct (binarySearchStep_confident st Hle Hsome). by apply IH.
Qed.


End SearchFurther.

(** ** Templates that do not fit the image *)

Lemma Math_round_monotone (p q : Q) :
  (p <= q)%Q → Math_round p ≤ Math_round q.
Proof.
  intros Hle. unfold Math_round. apply Qfloor_resp_le. lra.
Qed.

Lemma Math_round_scaled_monotone (size : Z) (s t : Q) :
  0 ≤ size → (s <= t)%Q →
  Math_round (inject_Z size * s) ≤ Math_round (inject_Z size * t).
Proof.
  intros Hsize Hle. apply Math_round_monotone.
  rewrite (Qmult_comm _ s), (Qmult_comm _ t).
  apply Qmult_le_compat_r; [done|].
  change 0%Q with (inject_Z 0). by rewrite <- Zle_Qle.
Qed.

Section OversizedTemplate.

Variables image_width image_height : Z.
Variables change_width change_height : Z.
Variable change_matchTemplate : Z -> Z -> Q * (Z * Z).
Variables headers_width headers_height : Z.
Variable headers_matchTemplate : Z -> Z -> Q * (Z * Z).
Variable recognize : Z -> Z -> Z -> Z -> jsstring.

Lemma unfit_template_has_no_match template_width template_height
    matchTemplate :
  (0 ≤ template_width
   ∧ image_width < Math_round (inject_Z template_width * (3 # 10))
   ∨ 0 ≤ template_height
     ∧ image_height < Math_round (inject_Z template_height * (3 # 10))) →
  findBestTemplateMatch image_width image_height template_width
    template_height matchTemplate = Some None.
Proof.
  intros Hbig.
  destruct (findBestTemplateMatch_best image_width image_height
              template_width template_height matchTemplate)
    as [-> [_ Hkept]].
  destruct (searchProbes_inside image_width image_height template_width
              template_height matchTemplate maxSteps initialSearchState
              (3 # 10) 2) as [Hin _]; [by simpl|by simpl|by simpl|].
  destruct (bestMatch _) as [m|]; [exfalso|done].
  destruct Hkept as (s & Hs & Hev & _).
  destruct (Hin s Hs) as [Hlo _].
  unfold evaluated in Hev. apply negb_true_iff, orb_false_iff in Hev.
  destruct Hev as [Hw Hh]. apply Z.ltb_ge in Hw, Hh.
  destruct Hbig as [[Hpos Hlt]|[Hpos Hlt]].
  - assert (3 # 10 <= s)%Q as Hle by lra.
    pose proof (Math_round_scaled_monotone template_width (3 # 10) s Hpos Hle).
    lia.
  - assert (3 # 10 <= s)%Q as Hle by lra.
    pose proof (Math_round_scaled_monotone template_height (3 # 10) s Hpos Hle).
    lia.
Qed.

(** X13. A template that, resized to the smallest scale 0.3, is still
    wider or higher than the image is never correlated: every probe of the
    search is skipped, the search returns no match, and the run reports
    that the templates were not found, whatever the image shows. *)
Theorem oversized_template_is_never_matched :
  (0 ≤ change_width
   ∧ image_width < Math_round (inject_Z change_width * (3 # 10))
   ∨ 0 ≤ change_height
     ∧ image_height < Math_round (inject_Z change_height * (3 # 10))) →
  findBestTemplateMatch image_width image_height change_width change_height
    change_matchTemplate = Some None
  ∧ handleFileSelect image_width image_height change_width change_height
      change_matchTemplate headers_width headers_height
      headers_matchTemplate recognize
    = Some (onError no_template_matches).
Proof.
  intros Hbig.
  pose proof (unfit_template_has_no_match change_width change_height
                change_matchTemplate Hbig) as Hnone.
  split; [done|]. unfold handleFileSelect. rewrite Hnone.
  destruct (findBestTemplateMatch_best image_width image_height
              headers_width headers_height headers_matchTemplate)
    as [-> _].
  done.
Qed.

End OversizedTemplate.

Lemma oversized_template_is_never_matched_witness :
  findBestTemplateMatch 100 100 1000 50 (flatResponse 1) = Some None
  ∧ handleFileSelect 100 100 1000 50 (flatResponse 1) 100 50 (flatResponse 1)
      (fun _ _ _ _ => lit "A 123")
    = Some (onError no_template_matches).
Proof.
  apply (oversized_template_is_never_matched 100 100 1000 50).
  left. split; [lia|]. by vm_compute.
Defined.

(** ** The field parsers and the parsed record *)

Lemma parseInt_fold run : ∀ acc,
  Forall (fun d => isDigit d = true) run → 0 ≤ acc →
  0 ≤ fold_left (fun acc c => 10 * acc + digitValue c) run acc
  ∧ fold_left (fun acc c => 10 * acc + digitValue c) run acc
    < (acc + 1) * 10 ^ Z.of_nat (length run).
Proof.
  induction run as [|c run IH]; intros acc Hd Hacc.
  - simpl. lia.
  - apply Forall_cons in Hd as [Hc Hd]. cbn [fold_left length].
    assert (0 ≤ digitValue c ≤ 9) as Hv.
    { unfold isDigit in Hc. apply andb_true_iff in Hc as [H1 H2].
      apply N.leb_le in H1, H2. unfold digitValue. lia. }
    destruct (IH (10 * acc + digitValue c) Hd) as [IH1 IH2]; [lia|].
    split; [done|].
    rewrite Nat2Z.inj_succ, Z.pow_succ_r by lia.
    assert (0 < 10 ^ Z.of_nat (length run)) by (apply Z.pow_pos_nonneg; lia).
    nia.
Qed.

Lemma parseStat_range text : 0 ≤ parseStat text ≤ 9999.
Proof.
  unfold parseStat.
  destruct (match_digits_3_4 text) as [m|] eqn:Hm; [|lia].
  apply match_digits_3_4_Some in Hm as (_ & Hlen & Hd).
  destruct (parseInt_fold m 0 Hd) as [H1 H2]; [lia|].
  unfold parseInt.
  destruct Hlen as [Hlen|Hlen]; rewrite Hlen in H2; simpl in H2; lia.
Qed.

(** X14. A parsed stat is never negative and never above 9999, whatever
    the text: of a longer run of digits only the first four are read, so
    that 12345 parses to 1234; and a run of fewer than three digits is not
    read at all. *)
Theorem parsed_stat_is_below_ten_thousand :
  (∀ text, 0 ≤ parseStat text ≤ 9999)
  ∧ (∀ a b c d rest,
       Forall (fun x => isDigit x = true) [a; b; c; d] →
       parseStat (a :: b :: c :: d :: rest) = parseInt [a; b; c; d])
  ∧ (∀ text, (length text < 3)%nat → parseStat text = 0)
  ∧ parseStat (lit "12345") = 1234
  ∧ parseStat (lit "99") = 0.
Proof.
  split; [exact parseStat_range|]. split; [|split; [|done]].
  - intros a b c d rest Hd.
    repeat (apply Forall_cons in Hd as [? Hd]).
    unfold parseStat. cbn [match_digits_3_4].
    by repeat match goal with H : isDigit _ = true |- _ => rewrite H; clear H
              end.
  - intros text Hlen.
    destruct text as [|a [|b [|c text]]]; try done. simpl in Hlen. lia.
Qed.

Lemma parseExtractedData_cases (data : ExtractedData) k :
  firstGap data k →
  parseExtractedData data
  = Some (match parseFields data [] with
          | Some d =>
              Returned {| outfit := outfit d; name := name d;
                          stats := stats d; aptitudes := aptitudes d;
                          skills := skillsBetween data 1 (k - 1) |}
          | None => Threw undefined_match_message
          end).
Proof.
  intros Hk. unfold parseExtractedData.
  rewrite (firstGap_collect data k Hk).
  by destruct (parseFields data []).
Qed.

Lemma parseFields_missing (data : ExtractedData) sk :
  parseFields data sk = None →
  ∃ key, key ∈ requiredKeys ∧ data !! key = None.
Proof.
  intros Hnone.
  destruct (decide (Forall (fun key => is_Some (data !! key)) requiredKeys))
    as [Hall|Hnot].
  - destruct (parseFields_present data sk Hall) as [d Hd]. congruence.
  - apply not_Forall_Exists in Hnot; [|intros key; apply _].
    apply Exists_exists in Hnot as (key & Hkey & Hmiss).
    exists key. split; [done|]. by apply eq_None_not_Some.
Qed.

Lemma parseFields_fields (data : ExtractedData) sk d :
  parseFields data sk = Some d →
  Forall2 (fun key v => ∃ text, data !! key = Some text ∧ v = parseStat text)
    statKeys (statValues d)
  ∧ Forall2 (fun key v => ∃ text, data !! key = Some text
                                  ∧ v = parseAptitude text)
      aptitudeKeys (aptitudeValues d)
  ∧ outfit d = or_else (data !! "uma_outfit") []
  ∧ name d = or_else (data !! "uma_name") (lit "Unknown Uma")
  ∧ skills d = sk.
Proof.
  unfold parseFields, statField, aptitudeField. intros H.
  repeat match type of H with
         | context [data !! ?k] =>
             let t := fresh "text" in
             let E := fresh "E" in
             lazymatch k with
             | "uma_outfit" => fail
             | "uma_name" => fail
             | _ => destruct (data !! k) as [t|] eqn:E;
                    cbn [fmap option_fmap option_map mbind option_bind] in H;
                    [|discriminate H]
             end
         end.
  injection H as <-. unfold statValues, aptitudeValues, statKeys,
    aptitudeKeys. cbn.
  split; [|split; [|done]]; repeat constructor; by eexists.
Qed.

Lemma keepSkill_kept text s :
  keepSkill text = Some s → s = trim text ∧ s ≠ [] ∧ trimmed s.
Proof.
  unfold keepSkill. intros H.
  destruct (truthy text && truthy (trim text)) eqn:Ht; [|done].
  injection H as <-. apply andb_true_iff in Ht as [_ Ht].
  split; [done|]. split.
  - by destruct (trim text).
  - by destruct (trim_split text) as (? & ? & _ & _ & _ & ?).
Qed.

Lemma omap_length_le {A B} (f : A → option B) (l : list A) :
  (length (omap f l) ≤ length l)%nat.
Proof.
  induction l as [|a l IH]; [done|]. cbn [omap list_omap].
  destruct (f a); simpl; lia.
Qed.

Lemma skillsBetween_kept (data : ExtractedData) i n :
  Forall (fun s => s ≠ [] ∧ trimmed s) (skillsBetween data i n)
  ∧ (length (skillsBetween data i n) ≤ n)%nat.
Proof.
  unfold skillsBetween. split.
  - apply Forall_forall. intros s Hs.
    apply list_elem_of_omap in Hs as (j & _ & Hj).
    destruct (data !! skillKey j) as [text|]; [|done]. simpl in Hj.
    by destruct (keepSkill_kept text s Hj) as (_ & ? & ?).
  - etrans; [apply omap_length_le|]. by rewrite length_seq.
Qed.

Lemma or_else_cases (v : option jsstring) fallback :
  (v = Some (or_else v fallback) ∧ or_else v fallback ≠ [])
  ∨ (or_else v fallback = fallback ∧ (v = None ∨ v = Some [])).
Proof.
  destruct v as [[|c s]|]; simpl; auto.
Qed.

(** X15. [parseExtractedData] always ends. It throws exactly when one of
    the fifteen stat and aptitude fields is missing from the extracted
    data, with the message of a call on [undefined]. Otherwise the record
    it returns has a name that is never empty (the recognized one, or
    Unknown Uma when that is missing or empty), an outfit that is the
    recognized one or empty, five stats between 0 and 9999, each parsed from
    its own field, and skills that are non-empty and free of white space at
    both ends, at most one per field below the first missing one. *)
Theorem parsed_record_is_well_formed (data : ExtractedData) :
  ∃ c k,
    parseExtractedData data = Some c ∧ firstGap data k
    ∧ match c with
      | Threw message =>
          message = undefined_match_message
          ∧ ∃ key, key ∈ requiredKeys ∧ data !! key = None
      | Returned d =>
          Forall (fun key => is_Some (data !! key)) requiredKeys
          ∧ name d ≠ []
          ∧ (data !! "uma_name" = Some (name d)
             ∨ name d = lit "Unknown Uma"
               ∧ (data !! "uma_name" = None ∨ data !! "uma_name" = Some []))
          ∧ (data !! "uma_outfit" = Some (outfit d)
             ∨ outfit d = []
               ∧ (data !! "uma_outfit" = None
                  ∨ data !! "uma_outfit" = Some []))
          ∧ Forall2 (fun key v => ∃ text, data !! key = Some text
                                          ∧ v = parseStat text
                                          ∧ 0 ≤ v ≤ 9999)
              statKeys (statValues d)
          ∧ Forall (fun s => s ≠ [] ∧ trimmed s) (skills d)
          ∧ (length (skills d) ≤ k - 1)%nat
      end.
Proof.
  destruct (firstGap_exists data) as [k Hk].
  eexists _, k. split; [exact (parseExtractedData_cases data k Hk)|].
  split; [done|].
  destruct (parseFields data []) as [d|] eqn:Hd.
  - destruct (parseFields_fields data [] d Hd)
      as (Hstats & Hapt & Houtfit & Hname & _).
    cbn [name outfit stats skills statValues].
    fold (statValues d).
    split; [|split; [|split; [|split; [|split; [|split]]]]].
    + apply Forall_forall. intros key Hkey. unfold requiredKeys in Hkey.
      apply elem_of_app in Hkey as [Hkey|Hkey].
      * fold statKeys in Hkey.
        apply list_elem_of_lookup in Hkey as [i Hi].
        destruct (Forall2_lookup_l _ _ _ _ _ Hstats Hi)
          as (v & _ & text & Ht & _).
        by eexists.
      * apply list_elem_of_lookup in Hkey as [i Hi].
        destruct (Forall2_lookup_l _ _ _ _ _ Hapt Hi)
          as (v & _ & text & Ht & _).
        by eexists.
    + rewrite Hname.
      destruct (or_else_cases (data !! "uma_name") (lit "Unknown Uma"))
        as [[_ ?]|[-> _]]; done.
    + rewrite Hname.
      destruct (or_else_cases (data !! "uma_name") (lit "Unknown Uma"))
        as [[? _]|[? ?]]; auto.
    + rewrite Houtfit.
      destruct (or_else_cases (data !! "uma_outfit") [])
        as [[? _]|[? ?]]; auto.
    + eapply Forall2_impl; [exact Hstats|].
      intros key v (text & Ht & ->). exists text.
      split; [done|]. split; [done|]. apply parseStat_range.
    + apply skillsBetween_kept.
    + apply skillsBetween_kept.
  - split; [done|]. by apply (parseFields_missing data []).
Qed.

(** ** From the calibration to the record *)

Lemma trim_idempotent s : trim (trim s) = trim s.
Proof.
  apply trim_trimmed. by destruct (trim_split s) as (? & ? & _ & _ & _ & ?).
Qed.

Section ExtractionFurther.

Variables image_width image_height : Z.
Variable recognize : Z -> Z -> Z -> Z -> jsstring.

Local Abbreviation ocr' := (ocrRegion recognize).
Local Abbreviation within' := (withinImage image_width image_height).
Local Abbreviation leading' := (leadingInside image_width image_height).

Lemma keepSkill_ocr r :
  keepSkill (ocr' r) = if truthy (ocr' r) then Some (ocr' r) else None.
Proof.
  unfold keepSkill, ocrRegion. rewrite trim_idempotent.
  by destruct (truthy (trim _)).
Qed.

(** The skill fields of a dictionary filled from [regions], numbered from
    [start]: present up to the first region outside the image. *)
Lemma leading_fields regions : ∀ (data : ExtractedData) start,
  (∀ i r, regions !! i = Some r →
          data !! skillKey (start + i)
          = if within' r then Some (ocr' r) else None) →
  data !! skillKey (start + length regions) = None →
  (∀ j, (start ≤ j < start + leading' regions)%nat →
        is_Some (data !! skillKey j))
  ∧ data !! skillKey (start + leading' regions) = None
  ∧ skillsBetween data start (leading' regions)
    = omap (fun r => keepSkill (ocr' r)) (take (leading' regions) regions)
  ∧ (leading' regions ≤ length regions)%nat
  ∧ (∀ r, r ∈ take (leading' regions) regions → within' r = true)
  ∧ (∀ r, regions !! leading' regions = Some r → within' r = false).
Proof.
  induction regions as [|r rest IH]; intros data start Hdata Hend.
  - simpl in *. split; [intros j Hj; lia|]. split; [done|].
    split; [done|]. split; [done|].
    split; [by intros r Hr%elem_of_nil|done].
  - pose proof (Hdata 0%nat r eq_refl) as Hr.
    rewrite Nat.add_0_r in Hr. cbn [leadingInside].
    destruct (within' r) eqn:Hin.
    + destruct (IH data (S start)) as (Hsome & Hnone & Hsk & Hlen & Hall
                                       & Hout).
      * intros i r' Hi. specialize (Hdata (S i) r' Hi).
        by replace (S start + i)%nat with (start + S i)%nat by lia.
      * simpl in Hend.
        by replace (S start + length rest)%nat
          with (start + S (length rest))%nat by lia.
      * split; [|split; [|split; [|split; [|split]]]].
        -- intros j Hj. destruct (decide (j = start)) as [->|Hne].
           ++ rewrite Hr. by eexists.
           ++ apply Hsome. lia.
        -- by replace (start + S (leading' rest))%nat
             with (S start + leading' rest)%nat by lia.
        -- unfold skillsBetween in *. cbn [seq omap list_omap take].
           rewrite Hr. cbn [mbind option_bind].
           by rewrite Hsk.
        -- simpl. lia.
        -- intros r' Hr'. cbn [take] in Hr'.
           apply elem_of_cons in Hr' as [->|Hr']; [done|by apply Hall].
        -- intros r' Hr'. by apply Hout.
    + split; [intros j Hj; lia|]. rewrite Nat.add_0_r.
      split; [done|]. split; [done|]. split; [simpl; lia|].
      split; [by intros r' Hr'%elem_of_nil|].
      intros r' [= <-]. done.
Qed.

Lemma regionsOfKind_static k r :
  r ∈ regionsOfKind k → r ∈ DATA_REGIONS.
Proof.
  unfold regionsOfKind. intros Hr.
  apply list_elem_of_In, filter_In in Hr as [Hr _].
  by apply list_elem_of_In.
Qed.

(** X16. From a calibration to the record. The extraction and the parser
    both end, and the parser does not throw. The five stats and the ten
    aptitudes of the record are parsed from the texts recognized at the
    calibrated places of the static stat and aptitude regions, in the order
    of the catalog; the name and the outfit are the texts recognized at
    theirs, replaced by Unknown Uma and by the empty text when nothing is
    recognized. The skills are the non-empty texts recognized at the
    generated skill regions, in order, up to the first region that does not
    lie inside the image: no region after it contributes, inside or not. *)
Theorem record_reads_the_calibrated_regions (scales : Scales)
    (offset : Offset) :
  ∃ data d regions,
    extractData image_width image_height recognize scales offset = Some data
    ∧ parseExtractedData data = Some (Returned d)
    ∧ generateSkillRegions image_height (scaleY scales) offset
      = Some regions
    ∧ statValues d
      = (fun r => parseStat (ocr' (adjustRegion r scales offset)))
        <$> regionsOfKind DataRegion.stats
    ∧ aptitudeValues d
      = (fun r => parseAptitude (ocr' (adjustRegion r scales offset)))
        <$> regionsOfKind DataRegion.aptitudes
    ∧ [outfit d; name d]
      = zip_with (fun r fallback =>
                    if truthy (ocr' (adjustRegion r scales offset))
                    then ocr' (adjustRegion r scales offset) else fallback)
          (regionsOfKind DataRegion.name) [[]; lit "Unknown Uma"]
    ∧ skills d
      = List.filter truthy (ocr' <$> take (leading' regions) regions)
    ∧ (leading' regions ≤ length regions)%nat
    ∧ (∀ r, r ∈ take (leading' regions) regions →
            insideImage image_width image_height r)
    ∧ (∀ r, regions !! leading' regions = Some r →
            ¬ insideImage image_width image_height r).
Proof.
  unfold extractData. rewrite generateSkillRegions_rows.
  cbv beta iota delta [mbind option_bind].
  set (regions := skillRowsFrom 1 startY (rowCount image_height)
                    (scaleY scales) offset).
  set (data := extractSkills image_width image_height recognize regions
                 (extractStatic recognize scales offset ∅)).
  assert (Hstatic : ∀ r, r ∈ DATA_REGIONS →
            data !! DataRegion.name_ r
            = Some (ocr' (adjustRegion r scales offset))).
  { intros r Hr.
    by apply (extractData_static image_width image_height recognize
                scales offset regions r Hr). }
  assert (Hnames : ∀ i r, regions !! i = Some r →
            DataRegion.name_ r = skillKey (1 + i)).
  { intros i r Hi.
    pose proof (skillRowsFrom_names 1 startY (rowCount image_height)
                  (scaleY scales) offset) as Hn.
    fold regions in Hn.
    assert ((DataRegion.name_ <$> regions) !! i
            = Some (DataRegion.name_ r)) as Hl
      by (by rewrite list_lookup_fmap, Hi).
    rewrite Hn, list_lookup_fmap in Hl.
    destruct (seq 1 (2 * rowCount image_height) !! i) as [j|] eqn:Hj;
      [|done].
    apply lookup_seq in Hj as [-> _]. by injection Hl as <-. }
  assert (Hskill : ∀ i r, regions !! i = Some r →
            data !! skillKey (1 + i)
            = if within' r then Some (ocr' r) else None).
  { intros i r Hi. rewrite <- (Hnames i r Hi).
    apply (extractData_skill image_width image_height recognize scales
             offset r).
    by apply list_elem_of_lookup_2 in Hi. }
  assert (Hend : data !! skillKey (1 + length regions) = None).
  { unfold data. rewrite extractSkills_other.
    - unfold extractStatic. rewrite fold_insert_other; [done|].
      apply skill_key_not_static.
    - pose proof (skillRowsFrom_names 1 startY (rowCount image_height)
                    (scaleY scales) offset) as Hn.
      fold regions in Hn. rewrite Hn. intros Hin.
      apply list_elem_of_fmap in Hin as (j & Hj & Hin).
      apply skillKey_inj in Hj as <-.
      apply elem_of_seq in Hin.
      pose proof (skillRowsFrom_length 1 startY (rowCount image_height)
                    (scaleY scales) offset) as Hlen.
      fold regions in Hlen. lia. }
  destruct (leading_fields regions data 1 Hskill Hend)
    as (Hsome & Hnone & Hsk & Hlen & Hall & Hout).
  assert (Hgap : firstGap data (S (leading' regions))).
  { split; [lia|]. split; [done|]. intros j Hj. apply Hsome. lia. }
  assert (Hreq : Forall (fun key => is_Some (data !! key)) requiredKeys).
  { apply Forall_forall. intros key Hkey.
    destruct (required_keys_static key Hkey) as (r & Hr & <-).
    rewrite (Hstatic r Hr). by eexists. }
  destruct (parseFields_present data [] Hreq) as [d0 Hd0].
  pose proof (parseExtractedData_cases data _ Hgap) as Hparse.
  rewrite Hd0 in Hparse.
  replace (S (leading' regions) - 1)%nat with (leading' regions)
    in Hparse by lia.
  destruct (parseFields_fields data [] d0 Hd0)
    as (Hstats & Hapt & Houtfit & Hname & _).
  eexists data, _, regions. split; [done|]. split; [exact Hparse|].
  split; [done|].
  assert (Hfields : Forall (fun r => data !! DataRegion.name_ r
                     = Some (ocr' (adjustRegion r scales offset)))
                     DATA_REGIONS) by (by apply Forall_forall).
  destruct d0 as [o n [sp st po gu wi]
                    [[tu di] [spr mi me lo] [fr pa la en]] sk].
  unfold statValues, aptitudeValues, statKeys, aptitudeKeys in *.
  cbn [name outfit stats aptitudes skills speed stamina power guts wisdom
       track distance style turf dirt sprint mile medium long front pace
       late end_] in *.
  let l := eval vm_compute in (regionsOfKind DataRegion.stats) in
    change (regionsOfKind DataRegion.stats) with l.
  let l := eval vm_compute in (regionsOfKind DataRegion.aptitudes) in
    change (regionsOfKind DataRegion.aptitudes) with l.
  let l := eval vm_compute in (regionsOfKind DataRegion.name) in
    change (regionsOfKind DataRegion.name) with l.
  cbn [fmap list_fmap zip_with].
  unfold DATA_REGIONS in Hfields.
  repeat match goal with
         | H : Forall _ (_ :: _) |- _ => apply Forall_cons in H as [? H]
         | H : Forall2 _ (_ :: _) (_ :: _) |- _ =>
             apply Forall2_cons in H as [(? & ? & ->) H]
         end.
  cbn [DataRegion.name_] in *.
  split; [congruence|]. split; [congruence|]. split.
  { rewrite Houtfit, Hname.
    repeat match goal with
           | H : data !! ?k = _ |- context [data !! ?k] => rewrite H
           end.
    done. }
  split; [|split; [|split]].
  - rewrite Hsk. generalize (take (leading' regions) regions).
    intros l. induction l as [|r l IH]; [done|].
    cbn [omap list_omap fmap list_fmap List.filter].
    rewrite keepSkill_ocr. destruct (truthy (ocr' r)); by rewrite IH.
  - done.
  - intros r Hr. apply withinImage_inside. by apply Hall.
  - intros r Hr Hin. apply withinImage_inside in Hin.
    specialize (Hout r Hr). congruence.
Qed.

End ExtractionFurther.

(** ** The outcome of a run *)

Lemma findBestTemplateMatch_scales image_width image_height template_width
    template_height matchTemplate m :
  findBestTemplateMatch image_width image_height template_width
    template_height matchTemplate = Some (Some m) →
  TemplateMatch.scaleX m = TemplateMatch.scaleY m
  ∧ (3 # 10 < TemplateMatch.scaleX m)%Q ∧ (TemplateMatch.scaleX m < 2)%Q.
Proof.
  intros Hm.
  destruct (findBestTemplateMatch_best image_width image_height
              template_width template_height matchTemplate)
    as [Hres [_ Hkept]].
  assert (Hbm : bestMatch
                  (afterSteps image_width image_height template_width
                     template_height matchTemplate maxSteps
                     initialSearchState) = Some m) by congruence.
  rewrite Hbm in Hkept.
  destruct Hkept as (s & Hs & _ & -> & _).
  destruct (searchProbes_inside image_width image_height template_width
              template_height matchTemplate maxSteps initialSearchState
              (3 # 10) 2) as [Hin _]; [by simpl|by simpl|by simpl|].
  destruct (Hin s Hs). by simpl.
Qed.

Section RunFurther.

Variables image_width image_height : Z.
Variables change_width change_height : Z.
Variable change_matchTemplate : Z -> Z -> Q * (Z * Z).
Variables headers_width headers_height : Z.
Variable headers_matchTemplate : Z -> Z -> Q * (Z * Z).
Variable recognize : Z -> Z -> Z -> Z -> jsstring.

Local Abbreviation handleFileSelect' :=
  (handleFileSelect image_width image_height change_width change_height
     change_matchTemplate headers_width headers_height
     headers_matchTemplate recognize).


End RunFurther.

(** ** Generated skill regions in closed form *)

Lemma skillRowsFrom_lookup n : ∀ skillIndex currentY scale offset i r,
  skillRowsFrom skillIndex currentY n scale offset !! i = Some r →
  r = skillRegionAt (skillIndex + i)
        (if Nat.even i then leftX else rightX)
        (currentY + skillYInterval * Z.of_nat (i / 2)) scale offset.
Proof.
  induction n as [|n IH]; intros skillIndex currentY scale offset i r Hi;
    [done|].
  cbn [skillRowsFrom] in Hi.
  destruct i as [|[|i]].
  - injection Hi as <-. rewrite Nat.add_0_r. simpl Nat.even. cbn [Nat.div].
    change (0 / 2)%nat with 0%nat. by rewrite Z.mul_0_r, Z.add_0_r.
  - injection Hi as <-. change (1 / 2)%nat with 0%nat.
    rewrite Z.mul_0_r, Z.add_0_r.
    by replace (skillIndex + 1)%nat with (S skillIndex) by lia.
  - cbn [lookup list_lookup] in Hi. apply IH in Hi as ->.
    replace (S (S skillIndex) + i)%nat with (skillIndex + S (S i))%nat
      by lia.
    change (Nat.even (S (S i))) with (Nat.even i).
    replace (S (S i) / 2)%nat with (S (i / 2)).
    + f_equal. lia.
    + change (S (S i)) with (2 + i)%nat.
      replace (2 + i)%nat with (i + 1 * 2)%nat by lia.
      rewrite Nat.div_add by done. lia.
Qed.

Lemma rowCount_monotone h h' : h ≤ h' → (rowCount h ≤ rowCount h')%nat.
Proof.
  intros Hle. unfold rowCount.
  assert ((h - (startY + skillHeight) + (skillYInterval - 1)) / skillYInterval
          ≤ (h' - (startY + skillHeight) + (skillYInterval - 1))
            / skillYInterval)
    by (apply Z.div_le_mono; [done|lia]).
  lia.
Qed.

Lemma rowCount_zero h : rowCount h = 0%nat ↔ h ≤ startY + skillHeight.
Proof.
  unfold rowCount, startY, skillHeight, skillYInterval. split.
  - intros H0.
    destruct (Z.le_gt_cases h (864 + 68)) as [?|Hgt]; [done|].
    assert (1 ≤ (h - (864 + 68) + (112 - 1)) / 112)
      by (apply Z.div_le_lower_bound; lia).
    lia.
  - intros Hle.
    destruct (Z.le_gt_cases 0 (h - (864 + 68) + (112 - 1))) as [Hpos|Hneg].
    + rewrite Z.div_small by lia. done.
    + assert ((h - (864 + 68) + (112 - 1)) / 112 < 0)
        by (apply Z.div_lt_upper_bound; lia).
      lia.
Qed.

(** X18. [generateSkillRegions] always ends, with two regions for each row
    whose bottom edge in the reference layout lies above the image height:
    none for an image at most 932 high, and never fewer for a higher image.
    The regions are named skill_1, skill_2, ... without gaps, and the region
    of index [i] is the reference region of row [i / 2], left column for
    even [i] and right column for odd [i], projected like a static region
    with the one scale it is given on both axes. *)
Theorem skill_regions_are_projected_reference_rows (imageHeight : Z)
    (scale : Q) (offset : Offset) :
  ∃ regions,
    generateSkillRegions imageHeight scale offset = Some regions
    ∧ length regions = (2 * rowCount imageHeight)%nat
    ∧ (regions = [] ↔ imageHeight ≤ 932)
    ∧ (∀ higher, imageHeight ≤ higher →
         (rowCount imageHeight ≤ rowCount higher)%nat)
    ∧ DataRegion.name_ <$> regions = skillKey <$> seq 1 (length regions)
    ∧ ∀ i r, regions !! i = Some r →
        r = adjustRegion (referenceSkillRegion i)
              {| scaleX := scale; scaleY := scale |} offset.
Proof.
  rewrite generateSkillRegions_rows. eexists. split; [done|].
  pose proof (skillRowsFrom_length 1 startY (rowCount imageHeight) scale
                offset) as Hlen.
  split; [done|]. split; [|split; [|split]].
  - rewrite <- length_zero_iff_nil, Hlen.
    pose proof (rowCount_zero imageHeight) as Hz.
    unfold startY, skillHeight in Hz. split; intros H.
    + apply Hz. lia.
    + apply Hz in H. lia.
  - intros higher. apply rowCount_monotone.
  - rewrite Hlen. apply skillRowsFrom_names.
  - intros i r Hi. by apply skillRowsFrom_lookup in Hi as ->.
Qed.

(** ** Projecting a region *)

Lemma Math_round_near (q : Q) :
  (inject_Z (Math_round q) <= q + (1 # 2))%Q
  ∧ (q - (1 # 2) < inject_Z (Math_round q))%Q.
Proof.
  unfold Math_round.
  pose proof (Qfloor_le (q + (1 # 2))) as Hle.
  pose proof (Qlt_floor (q + (1 # 2))) as Hlt.
  rewrite inject_Z_plus in Hlt. change (inject_Z 1) with 1%Q in Hlt.
  split; lra.
Qed.

Lemma Math_round_sum (p q : Q) :
  Z.abs (Math_round p + Math_round q - Math_round (p + q)) ≤ 1.
Proof.
  destruct (Math_round_near p) as [Hp1 Hp2].
  destruct (Math_round_near q) as [Hq1 Hq2].
  destruct (Math_round_near (p + q)) as [Hs1 Hs2].
  assert (Hup : (inject_Z (Math_round p + Math_round q - Math_round (p + q))
                 < inject_Z 2)%Q).
  { unfold Z.sub. rewrite !inject_Z_plus, inject_Z_opp.
    change (inject_Z 2) with 2%Q. lra. }
  assert (Hdown : (inject_Z (-2)
                   < inject_Z (Math_round p + Math_round q
                               - Math_round (p + q)))%Q).
  { unfold Z.sub. rewrite !inject_Z_plus, inject_Z_opp.
    change (inject_Z (-2)) with (-2)%Q. lra. }
  rewrite <- Zlt_Qlt in Hup, Hdown. lia.
Qed.

Lemma Qfloor_unique (q : Q) (n : Z) :
  (inject_Z n <= q)%Q → (q < inject_Z (n + 1))%Q → Qfloor q = n.
Proof.
  intros Hlow Hhigh. apply Qfloor_resp_le in Hlow.
  rewrite Qfloor_Z in Hlow. pose proof (Qfloor_le q) as Hfl.
  assert (Hlt : (inject_Z (Qfloor q) < inject_Z (n + 1))%Q) by lra.
  rewrite <- Zlt_Qlt in Hlt. lia.
Qed.

Lemma Math_round_shift (q : Q) (z : Z) :
  Math_round (q + inject_Z z) = Math_round q + z.
Proof.
  unfold Math_round.
  pose proof (Qfloor_le (q + (1 # 2))) as Hle.
  pose proof (Qlt_floor (q + (1 # 2))) as Hlt.
  rewrite inject_Z_plus in Hlt.
  apply Qfloor_unique; rewrite !inject_Z_plus; lra.
Qed.

Lemma Math_round_comp (p q : Q) : (p == q)%Q → Math_round p = Math_round q.
Proof.
  intros Heq. unfold Math_round. apply Qfloor_comp. by rewrite Heq.
Qed.

Lemma Math_round_shift_inner (a b : Q) (z : Z) :
  Math_round (a + (b + inject_Z z)) = Math_round (a + b) + z.
Proof.
  rewrite <- Math_round_shift. apply Math_round_comp. ring.
Qed.


(** ** Single-scale matching *)


(** ** Nearest sample *)

Lemma at_index_Some a i v :
  at_index a i = Some v ↔ 0 ≤ i ∧ a !! Z.to_nat i = Some v.
Proof.
  unfold at_index. destruct (i <? 0) eqn:Hi.
  - apply Z.ltb_lt in Hi. split; [done|]. intros [? _]. lia.
  - apply Z.ltb_ge in Hi. by split; [|intros [_ ?]].
Qed.

Lemma at_index_is_Some a i :
  0 ≤ i < Z.of_nat (length a) → is_Some (at_index a i).
Proof.
  intros Hi. destruct (lookup_lt_is_Some_2 a (Z.to_nat i)) as [v Hv]; [lia|].
  exists v. apply at_index_Some. split; [lia|done].
Qed.

Lemma at_index_None a i :
  at_index a i = None ↔ i < 0 ∨ Z.of_nat (length a) ≤ i.
Proof.
  unfold at_index. destruct (i <? 0) eqn:Hi.
  - apply Z.ltb_lt in Hi. split; [by left|done].
  - apply Z.ltb_ge in Hi. rewrite lookup_ge_None. split.
    + intros ?. right. lia.
    + intros [?|?]; lia.
Qed.

Lemma Qabs_diff_below (w x : Q) : (w <= x)%Q → (Qabs (w - x) == x - w)%Q.
Proof.
  intros Hle. rewrite Qabs_neg by lra. ring.
Qed.

Lemma Qabs_diff_above (w x : Q) : (x <= w)%Q → (Qabs (w - x) == w - x)%Q.
Proof.
  intros Hle. by rewrite Qabs_pos by lra.
Qed.

Section NearestSample.

Variable a : list Q.
Variable x : Q.

Local Abbreviation len := (Z.of_nat (length a)).

(** The loop of [binSearch] between [lo] and [hi], once [x] is known not to
    be below the first sample: it ends within [hi - lo + 1] iterations on an
    index of the array, and on a nearest sample when the array is ascending,
    [x] is not above the last sample, and the samples left of [lo] are below
    [x] and those right of [hi] above it. *)
Lemma binSearch_loop_spec fuel : ∀ lo hi,
  lessThan x (at_index a 0) = false →
  0 ≤ lo → lo ≤ hi + 1 → 0 ≤ hi → hi < len → hi - lo + 1 ≤ Z.of_nat fuel →
  ∃ r, binSearch_loop fuel a x lo hi = Some r
       ∧ 0 ≤ r < len
       ∧ (ascending a →
          greaterThan x (at_index a (len - 1)) = false →
          (∀ (i : nat) w, Z.of_nat i < lo → a !! i = Some w → (w < x)%Q) →
          (∀ (i : nat) w, hi < Z.of_nat i → a !! i = Some w → (x < w)%Q) →
          nearestAt a x r).
Proof.
  induction fuel as [|fuel IH]; intros lo hi Hfirst Hlo Hle Hhi Hlen Hfuel.
  - assert (lo = hi + 1) as -> by lia.
    cbn [binSearch_loop]. replace (hi + 1 <=? hi) with false
      by (symmetry; apply Z.leb_gt; lia).
    eexists. split; [done|]. split.
    + destruct (nearer x _ _) eqn:Hn; [|lia].
      unfold nearer in Hn.
      destruct (at_index a (hi + 1)) as [q|] eqn:Hq; [|done].
      apply at_index_Some in Hq as [_ Hq].
      apply lookup_lt_Some in Hq. lia.
    + intros Hasc Hlast Hbelow Habove.
      destruct (at_index_is_Some a hi) as [p Hp]; [lia|].
      pose proof Hp as Hp'. apply at_index_Some in Hp' as [_ Hp'].
      assert (Hpx : (p < x)%Q) by (apply (Hbelow (Z.to_nat hi)); [lia|done]).
      destruct (Z.eq_dec (hi + 1) len) as [Hend|Hin].
      { exfalso. replace (len - 1) with hi in Hlast by lia.
        rewrite Hp in Hlast. simpl in Hlast. apply Qltb_ge in Hlast. lra. }
      destruct (at_index_is_Some a (hi + 1)) as [q Hq]; [lia|].
      pose proof Hq as Hq'. apply at_index_Some in Hq' as [_ Hq'].
      assert (Hqx : (x < q)%Q)
        by (apply (Habove (Z.to_nat (hi + 1))); [lia|done]).
      rewrite Hp, Hq. cbn [nearer].
      assert (Hside : ∀ (i : nat) w, a !! i = Some w →
                (w <= p)%Q ∧ (w < x)%Q ∨ (q <= w)%Q ∧ (x < w)%Q).
      { intros i w Hw.
        destruct (Z.le_gt_cases (Z.of_nat i) hi) as [Hi|Hi].
        - left. split; [|apply (Hbelow i); [lia|done]].
          apply (Hasc i (Z.to_nat hi)); [lia|done|done].
        - right. split; [|apply (Habove i); [lia|done]].
          apply (Hasc (Z.to_nat (hi + 1)) i); [lia|done|done]. }
      pose proof (Qabs_diff_below p x ltac:(lra)) as Ep.
      pose proof (Qabs_diff_above q x ltac:(lra)) as Eq.
      assert (Hfar : ∀ (i : nat) w, a !! i = Some w →
                (Qabs (p - x) <= Qabs (w - x))%Q
                ∨ (Qabs (q - x) <= Qabs (w - x))%Q).
      { intros i w Hw. destruct (Hside i w Hw) as [[? ?]|[? ?]].
        - left. pose proof (Qabs_diff_below w x ltac:(lra)) as Ew.
          set (ap := Qabs (p - x)) in *. set (aw := Qabs (w - x)) in *.
          clearbody ap aw. lra.
        - right. pose proof (Qabs_diff_above w x ltac:(lra)) as Ew.
          set (aq := Qabs (q - x)) in *. set (aw := Qabs (w - x)) in *.
          clearbody aq aw. lra. }
      destruct (Qltb (Qabs (q - x)) (Qabs (p - x))) eqn:Hn.
      * apply Qltb_lt in Hn. exists q. split; [done|].
        intros i w Hw. destruct (Hfar i w Hw) as [Hf|Hf]; [|done].
        set (ap := Qabs (p - x)) in *. set (aq := Qabs (q - x)) in *.
        set (aw := Qabs (w - x)) in *. clearbody ap aq aw. lra.
      * apply Qltb_ge in Hn. exists p. split; [done|].
        intros i w Hw. destruct (Hfar i w Hw) as [Hf|Hf]; [done|].
        set (ap := Qabs (p - x)) in *. set (aq := Qabs (q - x)) in *.
        set (aw := Qabs (w - x)) in *. clearbody ap aq aw. lra.
  - cbn [binSearch_loop].
    destruct (lo <=? hi) eqn:Hcmp.
    + apply Z.leb_le in Hcmp.
      assert (Hmid : lo ≤ (lo + hi) / 2 ≤ hi).
      { split; [apply Z.div_le_lower_bound|apply Z.div_le_upper_bound];
          lia. }
      set (mid := (lo + hi) / 2) in *.
      destruct (at_index_is_Some a mid) as [v Hv]; [lia|].
      pose proof Hv as Hv'. apply at_index_Some in Hv' as [_ Hv'].
      rewrite Hv. cbn [lessThan greaterThan].
      destruct (Qltb x v) eqn:Hxv.
      * apply Qltb_lt in Hxv.
        assert (mid ≠ 0) as Hne.
        { intros H0. rewrite H0 in Hv. rewrite Hv in Hfirst.
          simpl in Hfirst. apply Qltb_ge in Hfirst. lra. }
        destruct (IH lo (mid - 1)) as (r & Hr & Hrange & Hnear);
          [done|lia|lia|lia|lia|lia|].
        exists r. split; [done|]. split; [done|].
        intros Hasc Hlast Hbelow Habove. apply Hnear; [done|done|done|].
        intros i w Hi Hw.
        destruct (Z.le_gt_cases (Z.of_nat i) hi) as [Hin|Hout];
          [|by apply (Habove i)].
        assert (v <= w)%Q
          by (apply (Hasc (Z.to_nat mid) i); [lia|done|done]).
        lra.
      * apply Qltb_ge in Hxv.
        destruct (Qltb v x) eqn:Hvx.
        -- apply Qltb_lt in Hvx.
           destruct (IH (mid + 1) hi) as (r & Hr & Hrange & Hnear);
             [done|lia|lia|lia|lia|lia|].
           exists r. split; [done|]. split; [done|].
           intros Hasc Hlast Hbelow Habove. apply Hnear; [done|done| |done].
           intros i w Hi Hw.
           destruct (Z.le_gt_cases lo (Z.of_nat i)) as [Hin|Hout];
             [|by apply (Hbelow i)].
           assert (w <= v)%Q
             by (apply (Hasc i (Z.to_nat mid)); [lia|done|done]).
           lra.
        -- apply Qltb_ge in Hvx.
           exists mid. split; [done|]. split; [lia|].
           intros _ _ _ _. exists v. split; [done|].
           intros i w Hw.
           pose proof (Qabs_diff_above v x ltac:(lra)) as Ev.
           pose proof (Qabs_nonneg (w - x)) as Hnn.
           set (av := Qabs (v - x)) in *. set (aw := Qabs (w - x)) in *.
           clearbody av aw. lra.
    + apply Z.leb_gt in Hcmp.
      destruct (IH lo hi Hfirst Hlo Hle Hhi Hlen) as (r & Hr & Hrest);
        [lia|].
      exists r. split; [|done].
      destruct fuel; cbn [binSearch_loop] in Hr |- *;
        replace (lo <=? hi) with false in *
          by (symmetry; apply Z.leb_gt; lia);
        done.
Qed.

(** X21. [binSearch] ends for every array, in any order, and every [x]. It
    returns 0 when [x] is below the first sample and, otherwise, the index
    before the last one when [x] is above the last sample. What it returns
    is an index of the array, with two exceptions: -1 for the empty array,
    and -1 for an array of one sample below [x]. *)
Theorem nearest_sample_search_ends_in_the_array :
  ∃ r, binSearch a x = Some r
       ∧ -1 ≤ r < Z.max len 1
       ∧ (r = -1 ↔
          a = [] ∨ ∃ v, a = [v] ∧ (v < x)%Q)
       ∧ (lessThan x (at_index a 0) = true → r = 0)
       ∧ (lessThan x (at_index a 0) = false →
          greaterThan x (at_index a (len - 1)) = true → r = len - 2).
Proof.
  unfold binSearch. cbv zeta.
  destruct (lessThan x (at_index a 0)) eqn:Hfirst.
  - exists 0. split; [done|]. split; [lia|]. split; [|done].
    split; [done|]. intros [->|(v & -> & Hv)]; [done|].
    simpl in Hfirst. apply Qltb_lt in Hfirst. lra.
  - destruct (greaterThan x (at_index a (len - 1))) eqn:Hlast.
    + exists (len - 1 - 1). split; [done|].
      unfold greaterThan in Hlast.
      destruct (at_index a (len - 1)) as [v|] eqn:Hv; [|done].
      apply at_index_Some in Hv as [Hpos Hv]. split; [lia|].
      split; [|split; [done|intros _ _; lia]].
      split.
      * intros Hm. right. destruct a as [|v' [|? ?]]; simpl in *; try lia.
        exists v'. split; [done|]. injection Hv as ->.
        by apply Qltb_lt in Hlast.
      * intros [->|(v' & -> & _)]; [done|]. simpl. lia.
    + destruct a as [|v0 rest] eqn:Ha.
      * exists (-1). split; [done|]. split; [simpl; lia|].
        split; [by split; [left|]|done].
      * rewrite <- Ha in *.
        assert (1 ≤ len) by (rewrite Ha; simpl; lia).
        destruct (binSearch_loop_spec (S (length a)) 0 (len - 1))
          as (r & Hr & Hrange & _); [done|lia|lia|lia|lia|lia|].
        exists r. split; [done|]. split; [lia|].
        split; [|done]. split; [lia|].
        intros [Hnil|(v & Hv & Hlt)]; [by rewrite Ha in Hnil|].
        exfalso. rewrite Hv in Hlast. simpl in Hlast.
        apply Qltb_ge in Hlast. lra.
Qed.


End NearestSample.


(** ** The parser of the recognized page *)

Lemma extractUmaName_first lines :
  (∃ pre post,
     lines = pre ++ ImageParser.extractUmaName lines :: post
     ∧ Forall (fun l => ImageParser.isNameLine l = false) pre
     ∧ ImageParser.isNameLine (ImageParser.extractUmaName lines) = true)
  ∨ (ImageParser.extractUmaName lines = lit "Unknown Uma"
     ∧ Forall (fun l => ImageParser.isNameLine l = false) lines).
Proof.
  induction lines as [|line rest IH]; [by right|].
  cbn [ImageParser.extractUmaName].
  destruct (ImageParser.isNameLine line) eqn:Hline.
  - left. exists [], rest. by split; [|split].
  - destruct IH as [(pre & post & Heq & Hpre & Hname)|[Hdef Hall]].
    + left. exists (line :: pre), post. split; [by rewrite Heq at 1|].
      split; [by constructor|done].
    + right. split; [done|by constructor].
Qed.

(** X23. The name that [extractUmaName] returns always has the shape it
    looks for: 3 to 30 characters, letters and white space only, without
    the words Details, Speed and Stamina; the default Unknown Uma has it
    too. It is the first line of that shape, and the default only when no
    line has it. *)
Theorem extracted_name_has_the_name_shape (lines : list jsstring) :
  let name := ImageParser.extractUmaName lines in
  ImageParser.isNameLine name = true
  ∧ (3 ≤ length name ≤ 30)%nat
  ∧ Forall (fun c => isUpper c || isLower c || isSpace c = true) name
  ∧ ((∃ pre post, lines = pre ++ name :: post
                  ∧ Forall (fun l => ImageParser.isNameLine l = false) pre)
     ∨ name = lit "Unknown Uma"
       ∧ Forall (fun l => ImageParser.isNameLine l = false) lines)
  ∧ ImageParser.extractUmaName [name] = name.
Proof.
  cbv zeta.
  assert (Hshape : ImageParser.isNameLine (ImageParser.extractUmaName lines)
                   = true).
  { destruct (extractUmaName_first lines) as [(? & ? & _ & _ & ?)|[-> _]];
      [done|by vm_compute]. }
  split; [done|].
  pose proof Hshape as Hparts. unfold ImageParser.isNameLine in Hparts.
  repeat (apply andb_true_iff in Hparts as [Hparts ?]).
  unfold ImageParser.match_letters in Hparts.
  repeat (apply andb_true_iff in Hparts as [Hparts ?]).
  apply Nat.leb_le in Hparts.
  match goal with H : (_ <=? 30)%nat = true |- _ => apply Nat.leb_le in H end.
  split; [lia|]. split; [|split].
  - apply Forall_forall. intros c Hc.
    match goal with
    | H : forallb _ _ = true |- _ =>
        rewrite forallb_forall in H; apply H; by apply list_elem_of_In
    end.
  - destruct (extractUmaName_first lines)
      as [(pre & post & Heq & Hpre & _)|[Hdef Hall]].
    + left. by exists pre, post.
    + by right.
  - cbn [ImageParser.extractUmaName]. by rewrite Hshape.
Qed.

Lemma match_letters_longer line :
  ImageParser.match_letters 4 50 line = true → (3 <? length line)%nat = true.
Proof.
  unfold ImageParser.match_letters. intros H.
  repeat (apply andb_true_iff in H as [H ?]).
  apply Nat.leb_le in H. apply Nat.ltb_lt. lia.
Qed.

Lemma extractSkills_loop_filter lines : ∀ skills,
  ImageParser.extractSkills_loop lines skills
  = skills ++ List.filter isSkillLine lines.
Proof.
  induction lines as [|line rest IH]; intros skills.
  - simpl. by rewrite app_nil_r.
  - cbn [ImageParser.extractSkills_loop List.filter]. unfold isSkillLine at 1.
    destruct (ImageParser.isLabelLine line); [by rewrite IH|]. simpl.
    destruct (ImageParser.match_letters 4 50 line) eqn:Hm; simpl.
    + rewrite (match_letters_longer line Hm). rewrite IH.
      by rewrite <- app_assoc.
    + by rewrite IH.
Qed.

Lemma filter_kept {A} (f : A → bool) (l : list A) :
  Forall (fun a => f a = true) l → List.filter f l = l.
Proof.
  induction 1 as [|a l Ha _ IH]; [done|]. simpl. by rewrite Ha, IH.
Qed.

Lemma filter_all {A} (f : A → bool) (l : list A) :
  Forall (fun a => f a = true) (List.filter f l).
Proof.
  apply Forall_forall. intros a Ha.
  by apply list_elem_of_In, filter_In in Ha as [_ ?].
Qed.

(** X24. [extractSkills] returns the first ten of the lines that are not
    label lines and consist of 4 to 50 letters and white space, in the
    order of the page; the further test on the length never decides. It
    never returns more than ten lines, and applied to its own result it
    returns that result. *)
Theorem extracted_skills_are_the_first_ten_skill_lines
    (lines : list jsstring) :
  ImageParser.extractSkills lines = take 10 (List.filter isSkillLine lines)
  ∧ (length (ImageParser.extractSkills lines) ≤ 10)%nat
  ∧ Forall (fun line => isSkillLine line = true ∧ line ∈ lines)
      (ImageParser.extractSkills lines)
  ∧ ImageParser.extractSkills (ImageParser.extractSkills lines)
    = ImageParser.extractSkills lines
  ∧ (∀ line, (length line ≤ 3)%nat → isSkillLine line = false).
Proof.
  assert (Heq : ImageParser.extractSkills lines
                = take 10 (List.filter isSkillLine lines)).
  { unfold ImageParser.extractSkills.
    by rewrite extractSkills_loop_filter. }
  assert (Hall : Forall (fun line => isSkillLine line = true)
                   (take 10 (List.filter isSkillLine lines))).
  { apply Forall_take, filter_all. }
  split; [done|]. split; [|split; [|split]].
  - rewrite Heq, length_take. lia.
  - rewrite Heq. apply Forall_forall. intros line Hline.
    split; [by apply (proj1 (Forall_forall _ _) Hall)|].
    apply subseteq_take in Hline.
    by apply list_elem_of_In, filter_In in Hline as [?%list_elem_of_In _].
  - unfold ImageParser.extractSkills at 1.
    rewrite extractSkills_loop_filter, app_nil_l, Heq.
    rewrite (filter_kept _ _ Hall). by rewrite take_take.
  - intros line Hlen. unfold isSkillLine, ImageParser.match_letters.
    replace (4 <=? length line)%nat with false
      by (symmetry; apply Nat.leb_gt; lia).
    by rewrite andb_false_r.
Qed.

Lemma match_upper_end_spec line m :
  ImageParser.match_upper_end line = Some m →
  ∃ c pre post, m = [c] ∧ line = pre ++ c :: post ∧ isUpper c = true
                ∧ Forall (fun d => isSpace d = true) post.
Proof.
  induction line as [|c rest IH]; [done|].
  cbn [ImageParser.match_upper_end].
  destruct (isUpper c && forallb isSpace rest) eqn:Hc.
  - intros [= <-]. apply andb_true_iff in Hc as [Hu Hs].
    exists c, [], rest. split; [done|]. split; [done|]. split; [done|].
    apply Forall_forall. intros d Hd. rewrite forallb_forall in Hs.
    by apply Hs, list_elem_of_In.
  - intros Hm. destruct (IH Hm) as (c' & pre & post & -> & -> & Hu & Hs).
    by exists c', (c :: pre), post.
Qed.

Lemma upper_not_space c : isUpper c = true → isSpace c = false.
Proof.
  unfold isUpper, isSpace. intros H. apply andb_true_iff in H as [H1 H2].
  apply N.leb_le in H1, H2.
  repeat (apply orb_false_iff; split);
    try (apply N.eqb_neq; lia);
    apply andb_false_iff;
    try (left; apply N.leb_gt; lia); right; apply N.leb_gt; lia.
Qed.

Lemma trimStart_spaces post :
  Forall (fun d => isSpace d = true) post → trimStart post = [].
Proof.
  induction 1 as [|d post Hd _ IH]; [done|]. simpl. by rewrite Hd.
Qed.

Lemma last_trimEnd pre c post :
  isSpace c = false → Forall (fun d => isSpace d = true) post →
  last (trimEnd (pre ++ c :: post)) = Some c.
Proof.
  intros Hc Hpost. unfold trimEnd.
  rewrite rev_app_distr. cbn [rev]. rewrite <- !app_assoc.
  assert (Hrev : Forall (fun d => isSpace d = true) (rev post)).
  { apply Forall_forall. intros d Hd.
    apply list_elem_of_In, in_rev, list_elem_of_In in Hd.
    by apply (proj1 (Forall_forall _ _) Hpost). }
  assert (Hstart : ∀ l, Forall (fun d => isSpace d = true) l →
            trimStart (l ++ [c] ++ rev pre) = [c] ++ rev pre).
  { induction 1 as [|d l Hd _ IH]; simpl; [by rewrite Hc|].
    by rewrite Hd. }
  rewrite (Hstart _ Hrev). cbn [app rev].
  by rewrite last_snoc.
Qed.

Lemma readAptitude_fold words lines : ∀ current,
  let result :=
    fold_left (fun cur line =>
                 ImageParser.readAptitude (fst words) (snd words) line cur)
      lines current in
  (Forall (fun l => setsAptitude words l = false) lines → result = current)
  ∧ (∀ pre line post,
       lines = pre ++ line :: post → setsAptitude words line = true →
       Forall (fun l => setsAptitude words l = false) post →
       ∃ c, result = [c] ∧ isUpper c = true
            ∧ last (trimEnd line) = Some c).
Proof.
  assert (Hstep : ∀ line cur,
            setsAptitude words line = false →
            ImageParser.readAptitude (fst words) (snd words) line cur = cur).
  { intros line cur Hno. unfold setsAptitude in Hno.
    unfold ImageParser.readAptitude.
    destruct (includes line (lit words.1) || includes line (lit words.2));
      [|done].
    simpl in Hno. apply bool_decide_eq_false in Hno.
    destruct (ImageParser.match_upper_end line); [|done].
    destruct Hno. by eexists. }
  assert (Hkeep : ∀ l cur,
            Forall (fun l => setsAptitude words l = false) l →
            fold_left (fun cur line =>
                         ImageParser.readAptitude (fst words) (snd words)
                           line cur) l cur = cur).
  { induction l as [|line l IH]; intros cur Hl; [done|].
    apply Forall_cons in Hl as [Hline Hl]. simpl.
    rewrite (Hstep line cur Hline). by apply IH. }
  intros current. cbv zeta. split; [apply Hkeep|].
  intros pre line post -> Hsets Hpost.
  rewrite fold_left_app. cbn [fold_left]. rewrite (Hkeep _ _ Hpost).
  unfold setsAptitude in Hsets. apply andb_true_iff in Hsets as [Hw Hm].
  apply bool_decide_eq_true in Hm as [m Hm].
  unfold ImageParser.readAptitude. rewrite Hw, Hm.
  destruct (match_upper_end_spec line m Hm)
    as (c & pre' & post' & -> & -> & Hu & Hs).
  exists c. split; [done|]. split; [done|].
  apply last_trimEnd; [by apply upper_not_space|done].
Qed.

Lemma extractAptitudes_fields lines : ∀ a,
  valuesOf (fold_left ImageParser.aptitudeStep lines a)
  = zip_with
      (fun words current =>
         fold_left (fun cur line =>
                      ImageParser.readAptitude (fst words) (snd words)
                        line cur) lines current)
      aptitudeWords (valuesOf a).
Proof.
  induction lines as [|line rest IH]; intros a; [done|].
  cbn [fold_left]. by rewrite IH.
Qed.

(** X25. The ten aptitudes that [extractAptitudes] returns do not depend
    on one another: each is set by the lines that hold one of the two
    spellings of its own key word and end, white space apart, in a capital
    letter. It stays G when no line does; otherwise it is the closing
    capital letter of the last such line, be it a grade or not. Every
    value is a single capital letter. *)
Theorem page_aptitudes_follow_the_last_line (lines : list jsstring) :
  Forall2
    (fun words value =>
       (∃ c, value = [c] ∧ isUpper c = true)
       ∧ (Forall (fun l => setsAptitude words l = false) lines →
          value = lit "G")
       ∧ (∀ pre line post,
            lines = pre ++ line :: post → setsAptitude words line = true →
            Forall (fun l => setsAptitude words l = false) post →
            ∃ c, value = [c] ∧ last (trimEnd line) = Some c))
    aptitudeWords (valuesOf (ImageParser.extractAptitudes lines)).
Proof.
  unfold ImageParser.extractAptitudes. rewrite extractAptitudes_fields.
  assert (Hone : ∀ words,
            let value :=
              fold_left (fun cur line =>
                           ImageParser.readAptitude (fst words) (snd words)
                             line cur) lines (lit "G") in
            (∃ c, value = [c] ∧ isUpper c = true)
            ∧ (Forall (fun l => setsAptitude words l = false) lines →
               value = lit "G")
            ∧ (∀ pre line post,
                 lines = pre ++ line :: post →
                 setsAptitude words line = true →
                 Forall (fun l => setsAptitude words l = false) post →
                 ∃ c, value = [c] ∧ last (trimEnd line) = Some c)).
  { intros words. cbv zeta.
    destruct (readAptitude_fold words lines (lit "G")) as [Hnone Hlast].
    cbv zeta in Hnone, Hlast. split; [|split; [done|]].
    - destruct (decide (Forall (fun l => setsAptitude words l = false)
                          lines)) as [Hall|Hsome].
      + rewrite (Hnone Hall). by eexists.
      + apply not_Forall_Exists in Hsome; [|intros l; apply _].
        assert (Hsplit : ∃ pre line post,
                  lines = pre ++ line :: post
                  ∧ setsAptitude words line = true
                  ∧ Forall (fun l => setsAptitude words l = false) post).
        { clear Hnone Hlast. induction lines as [|l rest IH].
          - by apply Exists_nil in Hsome.
          - destruct (decide (Exists (fun l => ¬ setsAptitude words l = false)
                                rest)) as [Hrest|Hrest].
            + destruct (IH Hrest) as (pre & line & post & -> & ? & ?).
              by exists (l :: pre), line, post.
            + apply Exists_cons in Hsome as [Hl|Hl]; [|done].
              exists [], l, rest. split; [done|].
              split; [destruct (setsAptitude words l) eqn:El;
                      [done|by destruct Hl]|].
              apply Forall_forall. intros l' Hl'.
              destruct (setsAptitude words l') eqn:E; [|done].
              destruct Hrest. apply Exists_exists. exists l'.
              split; [done|]. by rewrite E. }
        destruct Hsplit as (pre & line & post & Heq & Hsets & Hpost).
        destruct (Hlast pre line post Heq Hsets Hpost) as (c & ? & ? & _).
        by exists c.
    - intros pre line post Heq Hsets Hpost.
      destruct (Hlast pre line post Heq Hsets Hpost) as (c & ? & _ & ?).
      by exists c. }
  unfold aptitudeWords, valuesOf, ImageParser.initialAptitudes.
  cbn [track distance style turf dirt sprint mile medium long front pace
       late end_ zip_with].
  repeat match goal with
         | |- Forall2 _ ((?capitalized, ?plain) :: _) _ =>
             constructor; [exact (Hone (capitalized, plain))|]
         end.
  constructor.
Qed.

Lemma split_lines_cons_line (c : char) (text : jsstring) :
  (c =? 10)%N = false →
  ∃ line others, ImageParser.split_lines text = line :: others
                 ∧ ImageParser.split_lines (c :: text) = (c :: line) :: others.
Proof.
  intros Hc. cbn [ImageParser.split_lines]. rewrite Hc.
  destruct text as [|d text]; [by exists [], []|].
  cbn [ImageParser.split_lines].
  destruct (d =? 10)%N; [by eexists _, _|].
  destruct (ImageParser.split_lines text); by eexists _, _.
Qed.

Lemma split_lines_no_newline (text : jsstring) :
  Forall (fun line => 10%N ∉ line) (ImageParser.split_lines text).
Proof.
  induction text as [|c text IH].
  - repeat constructor. by intros ?%elem_of_nil.
  - destruct (c =? 10)%N eqn:Hc.
    + cbn [ImageParser.split_lines]. rewrite Hc.
      constructor; [by intros ?%elem_of_nil|done].
    + destruct (split_lines_cons_line c text Hc)
        as (line & others & Heq & Hcons).
      rewrite Hcons. rewrite Heq in IH. apply Forall_cons in IH as [Hline Hothers].
      constructor; [|done].
      apply N.eqb_neq in Hc. rewrite not_elem_of_cons. by split.
Qed.

Lemma split_lines_app (a : jsstring) : ∀ b : jsstring,
  ImageParser.split_lines (a ++ 10%N :: b)
  = ImageParser.split_lines a ++ ImageParser.split_lines b.
Proof.
  induction a as [|c a IH]; intros b; [done|].
  destruct (c =? 10)%N eqn:Hc.
  - cbn [app ImageParser.split_lines]. rewrite Hc. by rewrite IH.
  - destruct (split_lines_cons_line c a Hc)
      as (line & others & Heq & Hcons).
    destruct (split_lines_cons_line c (a ++ 10%N :: b) Hc)
      as (line' & others' & Heq' & Hcons').
    rewrite Hcons. cbn [app]. rewrite Hcons'.
    rewrite IH, Heq in Heq'. by injection Heq' as <- <-.
Qed.

Lemma split_lines_single (text : jsstring) :
  10%N ∉ text → ImageParser.split_lines text = [text].
Proof.
  induction text as [|c text IH]; [done|].
  rewrite not_elem_of_cons. intros [Hc Htext].
  cbn [ImageParser.split_lines].
  replace (c =? 10)%N with false by (symmetry; by apply N.eqb_neq).
  by rewrite (IH Htext).
Qed.

(** X26. The lines that [parseUmaData] hands to its extractors: none is
    empty, none starts or ends with white space, none holds a line feed.
    The lines of two texts joined by a line feed are the lines of the first
    followed by those of the second, and a text without a line feed gives
    its trimmed self, or no line when it is blank. In such a line the pattern
    of [extractAptitudes] finds a capital letter exactly when the line ends
    in one. *)
Theorem page_lines_are_trimmed_and_not_empty (text : jsstring) :
  Forall (fun line => line ≠ [] ∧ trimmed line ∧ (10%N ∉ line)
                      ∧ ∀ c, ImageParser.match_upper_end line = Some [c]
                             ↔ last line = Some c ∧ isUpper c = true)
    (ImageParser.lines text)
  ∧ (∀ more, ImageParser.lines (text ++ 10%N :: more)
             = ImageParser.lines text ++ ImageParser.lines more)
  ∧ (10%N ∉ text →
     ImageParser.lines text = if truthy (trim text) then [trim text] else []).
Proof.
  split; [|split].
  - unfold ImageParser.lines. apply Forall_forall. intros line Hline.
    apply list_elem_of_In, filter_In in Hline as [Hin Hlen].
    apply in_map_iff in Hin as (raw & <- & Hraw).
    apply Nat.ltb_lt in Hlen.
    destruct (trim_split raw) as (pre & post & Heq & _ & _ & Htrimmed).
    assert (Hnl : 10%N ∉ trim raw).
    { intros Hin.
      pose proof (proj1 (Forall_forall _ _) (split_lines_no_newline text)
                    raw ltac:(by apply list_elem_of_In)) as Hno.
      apply Hno. rewrite Heq. set_solver. }
    split; [intros Hnil; rewrite Hnil in Hlen; simpl in Hlen; lia|].
    split; [done|]. split; [done|].
    intros c. split.
    + intros Hm.
      destruct (match_upper_end_spec _ _ Hm)
        as (c' & pre' & post' & [= <-] & Hline & Hu & Hs).
      split; [|done].
      destruct Htrimmed as [_ Hend].
      destruct post' as [|d post'] using rev_ind.
      * rewrite Hline. by rewrite last_snoc.
      * exfalso. rewrite Hline in Hend.
        specialize (Hend d).
        rewrite app_comm_cons, app_assoc, last_snoc in Hend.
        specialize (Hend eq_refl).
        apply Forall_app in Hs as [_ Hd].
        apply (proj1 (Forall_singleton _ _)) in Hd. congruence.
    + intros [Hlast Hu].
      destruct (trim raw) as [|d l] using rev_ind; [done|].
      rewrite last_snoc in Hlast. injection Hlast as ->.
      clear -Hu. induction l as [|e l IH].
      * simpl. by rewrite Hu.
      * cbn [app ImageParser.match_upper_end].
        rewrite IH.
        destruct (isUpper e && forallb isSpace (l ++ [c])) eqn:He; [|done].
        apply andb_true_iff in He as [_ He].
        rewrite forallb_app in He. apply andb_true_iff in He as [_ He].
        simpl in He. rewrite (upper_not_space c Hu) in He. done.
  - intros more. unfold ImageParser.lines.
    by rewrite split_lines_app, map_app, List.filter_app.
  - intros Hno. unfold ImageParser.lines.
    rewrite (split_lines_single text Hno). simpl.
    by destruct (trim text).
Qed.

(** ** Tier symbols *)

Lemma match_tier_first text :
  match match_tier text with
  | Some m =>
      ∃ c pre post, m = [c] ∧ text = pre ++ c :: post
                    ∧ isTierGlyph c = true
                    ∧ Forall (fun d => isTierGlyph d = false) pre
  | None => Forall (fun d => isTierGlyph d = false) text
  end.
Proof.
  induction text as [|c rest IH]; [by constructor|].
  cbn [match_tier]. destruct (isTierGlyph c) eqn:Hc.
  - by exists c, [], rest.
  - destruct (match_tier rest) as [m|].
    + destruct IH as (c' & pre & post & -> & -> & Hg & Hpre).
      exists c', (c :: pre), post. split; [done|]. split; [done|].
      split; [done|]. by constructor.
    + by constructor.
Qed.

Lemma isTierCompatible_outside s p :
  isTierCompatible s p = true → tierSymbol s ∧ tierSymbol p.
Proof.
  unfold isTierCompatible, tierMap. cbn [property].
  repeat case_bool_decide; subst; cbn [array_includes existsb];
    try done;
    intros Hin; repeat (apply orb_true_iff in Hin as [Hin|Hin]);
    try done;
    apply bool_decide_eq_true in Hin; subst;
    split; eexists; split; try reflexivity; reflexivity.
Qed.

(** X27. [extractTierSymbol] returns the first of the six glyphs of the
    text when it holds one, a circle when it holds none and its trimmed
    form ends in a blank and a capital O, and nothing otherwise: the last
    test, for a copyright sign, never decides, since a text that holds one
    has it or an earlier glyph returned by the first test. The
    compatibility that [isTierCompatible] reads from its table holds for
    glyphs only, and is symmetric; no glyph but the cross is compatible with
    itself. *)
Theorem tier_symbol_is_first_glyph_or_trailing_O (text : jsstring) :
  extractTierSymbol text
  = match match_tier text with
    | Some tierMatch => Some tierMatch
    | None =>
        if endsWith (lit " O") (trim text) then Some [glyph_circle] else None
    end
  ∧ match match_tier text with
    | Some m =>
        ∃ c pre post, m = [c] ∧ text = pre ++ c :: post
                      ∧ isTierGlyph c = true
                      ∧ Forall (fun d => isTierGlyph d = false) pre
    | None => Forall (fun d => isTierGlyph d = false) text
    end
  ∧ (includes text [glyph_copyright] = true → is_Some (match_tier text))
  ∧ (∀ s p, isTierCompatible s p = true → tierSymbol s ∧ tierSymbol p)
  ∧ (∀ s p, isTierCompatible s p = isTierCompatible p s)
  ∧ (∀ s, isTierCompatible s s = true ↔ s = [glyph_times]).
Proof.
  assert (Hcopy : includes text [glyph_copyright] = true →
                  is_Some (match_tier text)).
  { intros Hin. apply includes_singleton in Hin.
    by apply (match_tier_found text glyph_copyright). }
  assert (Hsym : ∀ s p, isTierCompatible s p = true →
                        isTierCompatible p s = true).
  { intros s p Hc.
    destruct (isTierCompatible_outside s p Hc) as [Hs Hp].
    apply isTierCompatible_listed in Hc; [|done..].
    apply isTierCompatible_listed; [done..|].
    unfold listedCompatible, circles, lookAlikes in *.
    destruct Hc as [(Hs' & Hp' & Hne)|[(Hs' & Hp')|[-> ->]]].
    - apply elem_of_app in Hp' as [Hp'|Hp'].
      + left. split; [done|]. split; [|done].
        apply elem_of_app. by left.
      + right. left. by split.
    - left. split; [done|]. split; [apply elem_of_app; by right|].
      intros ->. set_solver.
    - right. right. done. }
  split; [|split; [|split; [|split; [|split]]]].
  - unfold extractTierSymbol.
    destruct (match_tier text) as [m|] eqn:Hm; [done|].
    destruct (endsWith (lit " O") (trim text)); [done|].
    destruct (includes text [glyph_copyright]) eqn:Hin; [|done].
    destruct (Hcopy eq_refl) as [? ?]. done.
  - apply match_tier_first.
  - done.
  - apply isTierCompatible_outside.
  - intros s p.
    destruct (isTierCompatible s p) eqn:Hsp.
    + symmetry. by apply Hsym.
    + destruct (isTierCompatible p s) eqn:Hps; [|done].
      apply Hsym in Hps. congruence.
  - intros s. split.
    + intros Hc. destruct (isTierCompatible_outside s s Hc) as [Hs _].
      apply isTierCompatible_listed in Hc; [|done..].
      unfold listedCompatible in Hc.
      destruct Hc as [(_ & _ & Hne)|[(Hs' & Hp')|[-> _]]]; [done| |done].
      unfold circles, lookAlikes in *. set_solver.
    + intros ->. reflexivity.
Qed.

(** ** Normal forms *)

Lemma trim_elements s c : c ∈ trim s → c ∈ s.
Proof.
  intros Hc. destruct (trim_split s) as (pre & post & Heq & _).
  rewrite Heq. set_solver.
Qed.

Lemma filter_forall_kept (l : jsstring) :
  Forall (fun c => isWord c || isSpace c = true) l →
  filter (fun c => isWord c || isSpace c = true) l = l.
Proof.
  unfold jsstring in *.
  induction 1 as [|c l Hc _ IH]; [done|].
  rewrite filter_cons_True by done. by rewrite IH.
Qed.

Lemma asciiLower_idempotent c : asciiLower (asciiLower c) = asciiLower c.
Proof.
  unfold asciiLower. destruct (isUpper c) eqn:Hc; [|by rewrite Hc].
  replace (isUpper (c + 32)%N) with false; [done|].
  unfold isUpper in *. apply andb_true_iff in Hc as [H1 H2].
  apply N.leb_le in H1, H2. symmetry. apply andb_false_iff. right.
  apply N.leb_gt. lia.
Qed.

(** X28. The normal form of [normalizeString] holds letters, digits,
    underscores and white space only, and neither starts nor ends with
    white space, whatever the case conversion does. When the conversion
    works character by character and leaves a converted character as it
    is, normalizing is stable: the normal form of a normal form is that
    normal form, and it passes [fuzzyMatch] against the text it came from. *)
Theorem normal_form_is_stable (lower : char → char) (s : jsstring) :
  (∀ c, lower (lower c) = lower c) →
  let normal := normalizeString (map lower) s in
  normalizeString (map lower) normal = normal
  ∧ trimmed normal
  ∧ Forall (fun c => isWord c || isSpace c = true) normal
  ∧ Forall (fun c => lower c = c) normal
  ∧ fuzzyMatch (map lower) normal s = true.
Proof.
  intros Hidem. cbv zeta.
  set (normal := normalizeString (map lower) s).
  assert (Hin : ∀ c, c ∈ normal →
            (isWord c || isSpace c = true) ∧ lower c = c).
  { intros c Hc. unfold normal, normalizeString in Hc.
    apply trim_elements in Hc. apply list_elem_of_filter in Hc as [Hp Hc].
    split; [done|].
    apply list_elem_of_In, in_map_iff in Hc as (c' & <- & _).
    apply Hidem. }
  assert (Htrimmed : trimmed normal).
  { unfold normal, normalizeString.
    by destruct (trim_split
                   (filter (fun c => isWord c || isSpace c = true)
                      (map lower s))) as (? & ? & _ & _ & _ & ?). }
  assert (Hstable : normalizeString (map lower) normal = normal).
  { unfold normalizeString at 1.
    assert (map lower normal = normal) as ->.
    { rewrite <- (map_id normal) at 2. apply map_ext_in.
      intros c Hc. by apply Hin, list_elem_of_In. }
    assert (filter (fun c => isWord c || isSpace c = true) normal = normal)
      as ->.
    { apply filter_forall_kept. apply Forall_forall.
      intros c Hc. by apply Hin. }
    by apply trim_trimmed. }
  split; [done|]. split; [done|]. split; [|split].
  - apply Forall_forall. intros c Hc. by apply Hin.
  - apply Forall_forall. intros c Hc. by apply Hin.
  - unfold fuzzyMatch. cbv zeta. fold normal. rewrite Hstable.
    assert (includes normal normal = true) as ->; [|done].
    apply includes_occursIn. exists [], []. by rewrite app_nil_r.
Qed.

Lemma normal_form_is_stable_witness :
  let normal := normalizeString (map asciiLower) shoutedLine in
  normalizeString (map asciiLower) normal = normal
  ∧ trimmed normal
  ∧ Forall (fun c => isWord c || isSpace c = true) normal
  ∧ Forall (fun c => asciiLower c = c) normal
  ∧ fuzzyMatch (map asciiLower) normal shoutedLine = true.
Proof.
  apply (normal_form_is_stable asciiLower shoutedLine).
  exact asciiLower_idempotent.
Defined.

(** ** Edit distance: symmetry *)

Lemma editCell_step str1 str2 i j :
  editCell str1 str2 (S i) (S j)
  = if sameCharAt str1 str2 i j then editCell str1 str2 i j
    else Z.min (editCell str1 str2 i j + 1)
           (Z.min (editCell str1 str2 (S i) j + 1)
              (editCell str1 str2 i (S j) + 1)).
Proof. reflexivity. Qed.

Lemma editCell_first_column str1 str2 i :
  editCell str1 str2 i 0 = Z.of_nat i.
Proof. by destruct i. Qed.

Lemma editCell_symmetric str1 str2 i : ∀ j,
  editCell str1 str2 i j = editCell str2 str1 j i.
Proof.
  induction i as [|i IHi]; intros j.
  - by rewrite editCell_first_column.
  - induction j as [|j IHj]; [done|].
    rewrite !editCell_step, IHj, !IHi.
    assert (sameCharAt str1 str2 i j = sameCharAt str2 str1 j i) as ->.
    { unfold sameCharAt.
      destruct (str2 !! i), (str1 !! j); try done. apply N.eqb_sym. }
    destruct (sameCharAt str2 str1 j i); [done|]. lia.
Qed.

Lemma levenshteinRow_exact (s1 s2 : jsstring) (i : nat) c2 :
  s2 !! i = Some c2 →
  ∀ str1 previous left (offset : nat),
  drop offset s1 = str1 →
  rowExact s1 s2 i offset previous →
  left = editCell s1 s2 (S i) offset →
  rowExact s1 s2 (S i) (S offset) (levenshteinRow str1 c2 previous left).
Proof.
  intros Hc2.
  induction str1 as [|c1 str1 IH]; intros previous left offset Hdrop Hp Hl.
  - intros k v Hk. by destruct previous.
  - destruct previous as [|diagonal [|up previous]];
      try (intros k v Hk; done).
    assert (Hc1 : s1 !! offset = Some c1).
    { pose proof (lookup_drop s1 offset 0) as Hlook.
      rewrite Hdrop, Nat.add_0_r in Hlook. symmetry. exact Hlook. }
    pose proof (Hp 0%nat diagonal eq_refl) as Hd.
    pose proof (Hp 1%nat up eq_refl) as Hu.
    rewrite Nat.add_0_r in Hd.
    replace (offset + 1)%nat with (S offset) in Hu by lia.
    simpl levenshteinRow.
    set (cell := if (c2 =? c1)%N then diagonal
                 else Z.min (diagonal + 1) (Z.min (left + 1) (up + 1))).
    assert (Hcell : cell = editCell s1 s2 (S i) (S offset)).
    { rewrite editCell_step. unfold sameCharAt. rewrite Hc2, Hc1.
      unfold cell. by rewrite Hd, Hu, Hl. }
    intros [|k] v Hk; simpl in Hk.
    + injection Hk as <-. by rewrite Nat.add_0_r.
    + replace (S offset + S k)%nat with (S (S offset) + k)%nat by lia.
      apply (IH (up :: previous) cell (S offset)); [| |done|done].
      * erewrite drop_S in Hdrop by done. by injection Hdrop.
      * intros k' v' Hk'.
        replace (S offset + k')%nat with (offset + S k')%nat by lia.
        by apply Hp.
Qed.

Lemma levenshteinRows_exact (s1 s2 : jsstring) : ∀ rest (n : nat) row,
  drop n s2 = rest → (n ≤ length s2)%nat → rowExact s1 s2 n 0 row →
  rowExact s1 s2 (length s2) 0
    (levenshteinRows s1 rest (Z.of_nat (S n)) row).
Proof.
  induction rest as [|c2 rest IH]; intros n row Hdrop Hn Hrow.
  - simpl. assert (n = length s2) as <-; [|done].
    apply (f_equal length) in Hdrop. rewrite length_drop in Hdrop.
    simpl in Hdrop. lia.
  - assert (Hc2 : s2 !! n = Some c2).
    { pose proof (lookup_drop s2 n 0) as Hlook.
      rewrite Hdrop, Nat.add_0_r in Hlook. symmetry. exact Hlook. }
    assert (Hlt : (n < length s2)%nat) by (by apply lookup_lt_Some in Hc2).
    simpl levenshteinRows.
    replace (Z.of_nat (S n) + 1) with (Z.of_nat (S (S n))) by lia.
    apply (IH (S n)).
    + erewrite drop_S in Hdrop by done. by injection Hdrop.
    + lia.
    + intros [|k] v Hk; simpl in Hk.
      * injection Hk as <-. by rewrite editCell_first_column.
      * replace (0 + S k)%nat with (1 + k)%nat by lia.
        apply (levenshteinRow_exact s1 s2 n c2 Hc2 s1 row (Z.of_nat (S n)) 0);
          [done|done| |done].
        by rewrite editCell_first_column.
Qed.

Lemma levenshteinDistance_exact str1 str2 :
  levenshteinDistance str1 str2
  = editCell str1 str2 (length str2) (length str1).
Proof.
  unfold levenshteinDistance.
  destruct (initial_row_bounded (length str1)) as [Hlen0 Hb0].
  destruct (levenshteinRows_bounded str1 str2 1 _ ltac:(lia) Hlen0 Hb0)
    as [Hlen _].
  destruct (lookup_lt_is_Some_2
              (levenshteinRows str1 str2 1
                 (map Z.of_nat (seq 0 (S (length str1)))))
              (length str1)) as [v Hv]; [lia|].
  rewrite (last_lookup_default _ _ v Hlen Hv).
  assert (Hinit : rowExact str1 str2 0 0
                    (map Z.of_nat (seq 0 (S (length str1))))).
  { intros k w Hk.
    change (map Z.of_nat (seq 0 (S (length str1))))
      with (Z.of_nat <$> seq 0 (S (length str1))) in Hk.
    rewrite list_lookup_fmap in Hk.
    destruct (seq 0 (S (length str1)) !! k) as [j|] eqn:Hj; [|done].
    apply lookup_seq in Hj as [-> _]. by injection Hk as <-. }
  exact (levenshteinRows_exact str1 str2 str2 0 _ eq_refl ltac:(lia) Hinit
           (length str1) v Hv).
Qed.

Lemma levenshteinDistance_symmetric str1 str2 :
  levenshteinDistance str1 str2 = levenshteinDistance str2 str1.
Proof.
  rewrite !levenshteinDistance_exact. apply editCell_symmetric.
Qed.

Lemma calculateSimilarity_symmetric str1 str2 :
  calculateSimilarity str1 str2 = calculateSimilarity str2 str1.
Proof.
  unfold calculateSimilarity. cbv zeta.
  destruct (length str2 <? length str1)%nat eqn:H1;
    destruct (length str1 <? length str2)%nat eqn:H2; try done.
  - apply Nat.ltb_lt in H1, H2. lia.
  - apply Nat.ltb_ge in H1, H2.
    assert (length str1 = length str2) as Hlen by lia.
    rewrite Hlen. destruct (length str2 =? 0)%nat; [done|].
    by rewrite (levenshteinDistance_symmetric str2 str1).
Qed.

(** X29. The rows that [levenshteinDistance] builds hold the cells of the
    matrix that its recurrence defines, and the distance does not depend on
    the order of its two arguments. Hence neither [calculateSimilarity] nor
    [fuzzyMatch] does: which of two strings of equal length counts as the
    longer one changes nothing. *)
Theorem similarity_is_symmetric (toLowerCase : jsstring → jsstring)
    (str1 str2 : jsstring) :
  levenshteinDistance str1 str2
  = editCell str1 str2 (length str2) (length str1)
  ∧ levenshteinDistance str1 str2 = levenshteinDistance str2 str1
  ∧ calculateSimilarity str1 str2 = calculateSimilarity str2 str1
  ∧ fuzzyMatch toLowerCase str1 str2 = fuzzyMatch toLowerCase str2 str1.
Proof.
  split; [apply levenshteinDistance_exact|].
  split; [apply levenshteinDistance_symmetric|].
  split; [apply calculateSimilarity_symmetric|].
  unfold fuzzyMatch. cbv zeta.
  rewrite (calculateSimilarity_symmetric
             (normalizeString toLowerCase str1)).
  by rewrite (orb_comm (includes (normalizeString toLowerCase str1) _)).
Qed.
